(** * reader-font: storage keys, persistence, icon list and icon detail

    A shallow embedding of the TypeScript sources of the font glyph
    inspector: [src/utils/storageUtil.ts], the list component
    [src/components/icon-list.vue] (current revision and the older inline
    revision), the detail component [src/components/icon-detail.vue] and
    the upload panel of [src/App.vue].

    JavaScript strings are sequences of UTF-16 code units, so a string is
    a [list N] here; [length], the regular expression of the key codec and
    [btoa] all work on code units. *)

From Stdlib Require Import ZArith NArith List Bool Lia String Ascii.
From Stdlib Require Import DecimalN DecimalZ DecimalFacts.
From stdpp Require Import base option list gmap.

Set Default Proof Using "Type".

(* ===================================================================== *)
(** * Strings and completions                                             *)
(* ===================================================================== *)

Abbreviation jsstring := (list N).

(** An ASCII literal as a JavaScript string. *)
Definition lit (s : string) : jsstring :=
  List.map N_of_ascii (list_ascii_of_string s).

(** The exceptions the modelled code can raise. *)
Inductive error : Type :=
  | SyntaxError            (* JSON.parse on malformed text *)
  | InvalidCharacterError  (* btoa on a code unit above 0xFF *)
  | QuotaExceededError     (* localStorage.setItem past the quota *)
  | TypeError              (* member access on null, value of another shape *)
  | ReferenceError         (* a [const] read before its declaration has run *)
  | NoIconsConverted.      (* thrown by downloadAllPng itself *)

(** The result of evaluating an expression that may throw. *)
Inductive completion (A : Type) : Type :=
  | Normal (a : A)
  | Throw (e : error).
Arguments Normal {A} a.
Arguments Throw {A} e.

Definition cbind {A B} (c : completion A) (k : A -> completion B) : completion B :=
  match c with
  | Normal a => k a
  | Throw e => Throw e
  end.

#[export] Instance completion_ret : MRet completion := @Normal.
#[export] Instance completion_bind : MBind completion :=
  fun A B k c => cbind c k.

(** [a || d] at type string: [undefined] and the empty string are falsy. *)
Definition or_else (a : option jsstring) (d : jsstring) : jsstring :=
  match a with
  | Some (c :: s) => c :: s
  | _ => d
  end.

(** [s.split(sep)] for a one-character separator: never the empty array. *)
Fixpoint split (sep : N) (s : jsstring) : list jsstring :=
  match s with
  | [] => [[]]
  | c :: r =>
      if (c =? sep)%N then [] :: split sep r
      else match split sep r with
           | seg :: segs => (c :: seg) :: segs
           | [] => [[c]]
           end
  end.

(** [arr.pop()] read as an expression: the last element, if any. *)
Definition pop (l : list jsstring) : option jsstring := last l.

(** [s.slice(-n)]: the last [n] code units ([max (length - n) 0] onwards). *)
Definition slice_last (n : nat) (s : jsstring) : jsstring :=
  drop (length s - n) s.

(** [s.substring(0, n)]. *)
Definition substring0 (n : nat) (s : jsstring) : jsstring := take n s.

(* ===================================================================== *)
(** * btoa                                                                *)
(* ===================================================================== *)

Definition b64char (i : N) : N :=
  (if i <? 26 then 65 + i
   else if i <? 52 then 97 + (i - 26)
   else if i <? 62 then 48 + (i - 52)
   else if i =? 62 then 43
   else 47)%N.

Definition b64pad : N := 61%N.

Fixpoint b64encode (s : list N) : list N :=
  match s with
  | [] => []
  | [a] =>
      [b64char (N.shiftr a 2); b64char (N.shiftl (N.land a 3) 4); b64pad; b64pad]
  | [a; b] =>
      [b64char (N.shiftr a 2);
       b64char (N.lor (N.shiftl (N.land a 3) 4) (N.shiftr b 4));
       b64char (N.shiftl (N.land b 15) 2); b64pad]
  | a :: b :: c :: r =>
      b64char (N.shiftr a 2)
      :: b64char (N.lor (N.shiftl (N.land a 3) 4) (N.shiftr b 4))
      :: b64char (N.lor (N.shiftl (N.land b 15) 2) (N.shiftr c 6))
      :: b64char (N.land c 63)
      :: b64encode r
  end.

(** [btoa] accepts only "binary strings": it throws on a code unit above
    0xFF. *)
Definition btoa (s : jsstring) : completion jsstring :=
  if forallb (fun c => (c <? 256)%N) s then Normal (b64encode s)
  else Throw InvalidCharacterError.

(* ===================================================================== *)
(** * Storage key codec                                                   *)
(* ===================================================================== *)

(** The character class [a-zA-Z0-9._-] of the sanitising regular
    expression. *)
Definition is_safe (c : N) : bool :=
  (((97 <=? c) && (c <=? 122)) || ((65 <=? c) && (c <=? 90))
   || ((48 <=? c) && (c <=? 57))
   || (c =? 46) || (c =? 95) || (c =? 45))%N.

Definition slash : N := 47%N.
Definition underscore : N := 95%N.
Definition hyphen : N := 45%N.

Module storageUtil.

(** [storageConfig] / [globalConfig]. *)
Definition storageFontDatasKey : jsstring := lit "font-icons-".
Definition storageFileNames : jsstring := lit "font-icons-saved-file-names".

Definition maxLength : nat := 50.

(** [getSafeStorageKey], storageUtil.ts lines 21-36: every code unit
    outside the class is replaced by an underscore. *)
Definition getSafeStorageKey (filename : jsstring) : completion jsstring :=
  let basename := or_else (pop (split slash filename)) filename in
  let safeName := List.map (fun c => if is_safe c then c else underscore) basename in
  if length safeName <=? maxLength then
    Normal (storageFontDatasKey ++ safeName)
  else
    b64 ← btoa safeName;
    let hash := substring0 8 b64 in
    let truncatedName := slice_last (maxLength - 10) safeName in
    Normal (storageFontDatasKey ++ truncatedName ++ [hyphen] ++ hash).

End storageUtil.

(** The older revision of the list component carries its own codec
    (src/unnamed/part_000 lines 567-582, the second copy of icon-list.vue
    in that file): code units outside the class are deleted, and the
    prefix is the component's [storageKeyPrefix] ref, which is never
    reassigned. *)
Module inlineList.

Definition storageKeyPrefix : jsstring := lit "font-icons-".

Definition maxLength : nat := 50.

Definition getSafeStorageKey (filename : jsstring) : completion jsstring :=
  let basename := or_else (pop (split slash filename)) filename in
  let safeName := List.filter is_safe basename in
  if length safeName <=? maxLength then
    Normal (storageKeyPrefix ++ safeName)
  else
    b64 ← btoa safeName;
    let hash := substring0 8 b64 in
    let truncatedName := slice_last (maxLength - 10) safeName in
    Normal (storageKeyPrefix ++ truncatedName ++ [hyphen] ++ hash).

End inlineList.

Definition safe (c : N) : Prop := is_safe c = true.

(** The 65 code units of the class, by enumeration. *)
Definition safe_codes : list N :=
  List.filter is_safe (List.map N.of_nat (seq 0 128)).

Definition group_ok (a b c : N) : bool :=
  is_safe (b64char (N.shiftr a 2))
  && is_safe (b64char (N.lor (N.shiftl (N.land a 3) 4) (N.shiftr b 4)))
  && is_safe (b64char (N.lor (N.shiftl (N.land b 15) 2) (N.shiftr c 6)))
  && is_safe (b64char (N.land c 63)).


(* ===================================================================== *)
(** * JSON values, JSON.stringify and JSON.parse                          *)
(* ===================================================================== *)

(** The values that reach [JSON.stringify] and come back from
    [JSON.parse].  A number is held exactly: [JNum z] is the integer [z],
    and [JFrac m k], with [k < 0] and [m] not a multiple of 10, is the
    number [m * 10^k] that is not an integer.  (The platform holds the
    double nearest to it; the only numeric field of the program's data is
    a code point.)  An object keeps its members in insertion order. *)
Unset Elimination Schemes.
Inductive json : Type :=
  | JNull
  | JBool (b : bool)
  | JNum (z : Z)
  | JStr (s : jsstring)
  | JArr (l : list json)
  | JObj (l : list (jsstring * json))
  | JFrac (m k : Z).
Set Elimination Schemes.

(** Induction over [json] with the hypothesis available for every element
    of an array and every member of an object. *)
Definition json_ind (P : json -> Prop)
    (Hnull : P JNull) (Hbool : forall b, P (JBool b))
    (Hnum : forall z, P (JNum z)) (Hstr : forall s, P (JStr s))
    (Harr : forall l, Forall P l -> P (JArr l))
    (Hobj : forall l, Forall (fun kv => P (snd kv)) l -> P (JObj l))
    (Hfrac : forall m k, P (JFrac m k))
    : forall v, P v :=
  fix go (v : json) : P v :=
    match v with
    | JNull => Hnull
    | JBool b => Hbool b
    | JNum z => Hnum z
    | JStr s => Hstr s
    | JArr l =>
        Harr l ((fix elems (l : list json) : Forall P l :=
                   match l with
                   | [] => @List.Forall_nil _ P
                   | v :: l' => @List.Forall_cons _ P v l' (go v) (elems l')
                   end) l)
    | JObj l =>
        Hobj l ((fix members (l : list (jsstring * json))
                   : Forall (fun kv => P (snd kv)) l :=
                   match l with
                   | [] => @List.Forall_nil _ _
                   | kv :: l' => @List.Forall_cons _ (fun kv => P (snd kv)) kv l' (go (snd kv)) (members l')
                   end) l)
    | JFrac m k => Hfrac m k
    end.

(** No number inside the value has a fraction. *)
Fixpoint integral (v : json) : bool :=
  match v with
  | JFrac _ _ => false
  | JArr l => forallb integral l
  | JObj l => forallb (fun kv => integral (snd kv)) l
  | _ => true
  end.

Definition dquote : N := 34%N.
Definition backslash : N := 92%N.
Definition comma : N := 44%N.
Definition colon : N := 58%N.
Definition lbracket : N := 91%N.
Definition rbracket : N := 93%N.
Definition lbrace : N := 123%N.
Definition rbrace : N := 125%N.

(** What may follow a value inside an array or an object, or at the end of
    the text. *)
Definition delim (rest : jsstring) : Prop :=
  match rest with
  | [] => True
  | c :: _ => c = comma \/ c = rbracket \/ c = rbrace
  end.

(** ** Numbers *)

Fixpoint uint_digits (u : Decimal.uint) : jsstring :=
  match u with
  | Decimal.Nil => []
  | Decimal.D0 u => 48%N :: uint_digits u
  | Decimal.D1 u => 49%N :: uint_digits u
  | Decimal.D2 u => 50%N :: uint_digits u
  | Decimal.D3 u => 51%N :: uint_digits u
  | Decimal.D4 u => 52%N :: uint_digits u
  | Decimal.D5 u => 53%N :: uint_digits u
  | Decimal.D6 u => 54%N :: uint_digits u
  | Decimal.D7 u => 55%N :: uint_digits u
  | Decimal.D8 u => 56%N :: uint_digits u
  | Decimal.D9 u => 57%N :: uint_digits u
  end.

(** [String(n)] / the number production of [JSON.stringify], for an
    integer. *)
Definition number_to_string (z : Z) : jsstring :=
  match Z.to_int z with
  | Decimal.Pos u => uint_digits u
  | Decimal.Neg u => hyphen :: uint_digits u
  end.

Definition digit_of (c : N) : option (Decimal.uint -> Decimal.uint) :=
  (if c =? 48 then Some Decimal.D0 else if c =? 49 then Some Decimal.D1
   else if c =? 50 then Some Decimal.D2 else if c =? 51 then Some Decimal.D3
   else if c =? 52 then Some Decimal.D4 else if c =? 53 then Some Decimal.D5
   else if c =? 54 then Some Decimal.D6 else if c =? 55 then Some Decimal.D7
   else if c =? 56 then Some Decimal.D8 else if c =? 57 then Some Decimal.D9
   else None)%N.

Fixpoint read_digits (s : jsstring) : Decimal.uint * jsstring :=
  match s with
  | [] => (Decimal.Nil, [])
  | c :: r =>
      match digit_of c with
      | Some d => let (u, rest) := read_digits r in (d u, rest)
      | None => (Decimal.Nil, s)
      end
  end.

(** The digits of [|z|]. *)
Definition abs_digits (z : Z) : jsstring :=
  match Z.to_int (Z.abs z) with
  | Decimal.Pos u => uint_digits u
  | Decimal.Neg u => uint_digits u
  end.

(** [Number::toString] for [m * 10^k] with [k < 0]: with [n] the position
    of the decimal point among the digits, plain notation for
    [-6 < n <= 21] and exponent notation otherwise. *)
Definition fraction_to_string (m k : Z) : jsstring :=
  let ds := abs_digits m in
  let n := (Z.of_nat (length ds) + k)%Z in
  (if (m <? 0)%Z then [hyphen] else [])
  ++ (if ((0 <? n) && (n <=? 21))%Z then
        take (Z.to_nat n) ds ++ 46%N :: drop (Z.to_nat n) ds
      else if ((-6 <? n) && (n <=? 0))%Z then
        48%N :: 46%N :: replicate (Z.to_nat (- n)) 48%N ++ ds
      else
        match ds with
        | [] => []
        | d :: more =>
            (d :: match more with [] => [] | _ :: _ => 46%N :: more end)
            ++ 101%N :: (if (n - 1 <? 0)%Z then 45%N else 43%N) :: abs_digits (n - 1)
        end).

Definition is_num_start (c : N) : bool :=
  ((c =? hyphen) || ((48 <=? c) && (c <=? 57)))%N.

Definition read_sign (s : jsstring) : bool * jsstring :=
  match s with
  | c :: r => if (c =? hyphen)%N then (true, r) else (false, s)
  | [] => (false, s)
  end.

(** The optional fraction: a dot and at least one digit. *)
Definition read_fraction (s : jsstring) : option (Decimal.uint * jsstring) :=
  match s with
  | c :: r =>
      if (c =? 46)%N then
        let (f, rest) := read_digits r in
        match f with
        | Decimal.Nil => None
        | _ => Some (f, rest)
        end
      else Some (Decimal.Nil, s)
  | [] => Some (Decimal.Nil, [])
  end.

(** The optional exponent: [e] or [E], an optional sign and at least one
    digit. *)
Definition read_exponent (s : jsstring) : option (option Z * jsstring) :=
  match s with
  | c :: r =>
      if ((c =? 101) || (c =? 69))%N then
        let (negative, r1) :=
          match r with
          | c' :: r' =>
              if (c' =? 45)%N then (true, r')
              else if (c' =? 43)%N then (false, r')
              else (false, r)
          | [] => (false, r)
          end in
        let (x, rest) := read_digits r1 in
        match x with
        | Decimal.Nil => None
        | _ => Some (Some (if negative then - Z.of_uint x else Z.of_uint x)%Z, rest)
        end
      else Some (None, s)
  | [] => Some (None, [])
  end.

(** Trailing zeros of the mantissa are traded against the exponent. *)
Fixpoint strip_zeros (fuel : nat) (m k : Z) : Z * Z :=
  match fuel with
  | 0 => (m, k)
  | S fuel' =>
      if ((k <? 0) && (m mod 10 =? 0))%Z then strip_zeros fuel' (m / 10) (k + 1)
      else (m, k)
  end.

(** The value [m * 10^k] of a literal with [digits] digits. *)
Definition decimal_number (digits : nat) (m k : Z) : json :=
  if (0 <=? k)%Z then JNum (m * 10 ^ k)
  else
    let (m', k') := strip_zeros digits m k in
    if ((k' =? 0) || (m' =? 0))%Z then JNum m' else JFrac m' k'.

(** The JSON number production: an optional minus sign, then ["0"] or a
    digit string without a leading zero, then an optional fraction and an
    optional exponent. *)
Definition parse_number (s : jsstring) : option (json * jsstring) :=
  let (negative, s1) := read_sign s in
  let (u, r1) := read_digits s1 in
  if Decimal.uint_beq (Decimal.unorm u) u then
    match read_fraction r1 with
    | None => None
    | Some (f, r2) =>
        match read_exponent r2 with
        | None => None
        | Some (e, rest) =>
            match f, e with
            | Decimal.Nil, None =>
                Some (JNum (Z.of_int (if negative then Decimal.Neg u else Decimal.Pos u)),
                      rest)
            | _, _ =>
                let mantissa := Z.of_uint (Decimal.app u f) in
                let k := (default 0 e - Z.of_nat (Decimal.nb_digits f))%Z in
                Some (decimal_number (Decimal.nb_digits (Decimal.app u f))
                        (if negative then - mantissa else mantissa) k,
                      rest)
            end
        end
    end
  else None.

(** ** Strings *)

Definition hex_digit (n : N) : N :=
  (if n <? 10 then 48 + n else 97 + (n - 10))%N.

(** [QuoteJSONString]: the quote, the backslash and the control characters
    are escaped, every other code unit is written as it is.  (A lone
    surrogate, which the platform writes as a [\u] escape, is written raw
    here; [JSON.parse] reads both forms back as the same code unit.) *)
Definition escape_char (c : N) : jsstring :=
  (if c =? 34 then [92; 34]
   else if c =? 92 then [92; 92]
   else if c =? 8 then [92; 98]
   else if c =? 12 then [92; 102]
   else if c =? 10 then [92; 110]
   else if c =? 13 then [92; 114]
   else if c =? 9 then [92; 116]
   else if c <? 32 then [92; 117; 48; 48; hex_digit (c / 16); hex_digit (c mod 16)]
   else [c])%N.

Definition quote (s : jsstring) : jsstring :=
  dquote :: flat_map escape_char s ++ [dquote].

Definition hex_value (c : N) : option N :=
  (if (48 <=? c) && (c <=? 57) then Some (c - 48)
   else if (97 <=? c) && (c <=? 102) then Some (c - 87)
   else if (65 <=? c) && (c <=? 70) then Some (c - 55)
   else None)%N.

Definition unescape (e : N) : option N :=
  (if e =? 34 then Some 34 else if e =? 92 then Some 92
   else if e =? 47 then Some 47 else if e =? 98 then Some 8
   else if e =? 102 then Some 12 else if e =? 110 then Some 10
   else if e =? 114 then Some 13 else if e =? 116 then Some 9
   else None)%N.

(** The characters of a string literal after its opening quote, up to and
    including the closing quote. *)
Fixpoint parse_chars (s : jsstring) : option (jsstring * jsstring) :=
  match s with
  | [] => None
  | c :: r =>
      if (c =? dquote)%N then Some ([], r)
      else if (c =? backslash)%N then
        match r with
        | [] => None
        | e :: r1 =>
            if (e =? 117)%N then
              match r1 with
              | h1 :: h2 :: h3 :: h4 :: r2 =>
                  match hex_value h1, hex_value h2, hex_value h3, hex_value h4,
                        parse_chars r2 with
                  | Some a, Some b, Some c', Some d, Some (t, rest) =>
                      Some ((((a * 16 + b) * 16 + c') * 16 + d)%N :: t, rest)
                  | _, _, _, _, _ => None
                  end
              | _ => None
              end
            else
              match unescape e, parse_chars r1 with
              | Some u, Some (t, rest) => Some (u :: t, rest)
              | _, _ => None
              end
        end
      else if (c <? 32)%N then None
      else
        match parse_chars r with
        | Some (t, rest) => Some (c :: t, rest)
        | None => None
        end
  end.

(** ** Values *)

Fixpoint join (sep : N) (l : list jsstring) : jsstring :=
  match l with
  | [] => []
  | x :: l' =>
      match l' with
      | [] => x
      | _ :: _ => x ++ sep :: join sep l'
      end
  end.

(** [JSON.stringify(v)] without indentation. *)
Fixpoint stringify (v : json) : jsstring :=
  match v with
  | JNull => lit "null"
  | JBool b => if b then lit "true" else lit "false"
  | JNum z => number_to_string z
  | JStr s => quote s
  | JArr l => lbracket :: join comma (List.map stringify l) ++ [rbracket]
  | JObj l =>
      lbrace
      :: join comma (List.map (fun kv => quote (fst kv) ++ colon :: stringify (snd kv)) l)
      ++ [rbrace]
  | JFrac m k => fraction_to_string m k
  end.

Definition is_ws (c : N) : bool :=
  ((c =? 32) || (c =? 9) || (c =? 10) || (c =? 13))%N.

Fixpoint skip_ws (s : jsstring) : jsstring :=
  match s with
  | c :: r => if is_ws c then skip_ws r else s
  | [] => []
  end.

(** [strip p s]: [s] without its prefix [p], if it starts with [p]. *)
Fixpoint strip (p s : jsstring) : option jsstring :=
  match p, s with
  | [], _ => Some s
  | a :: p', b :: s' => if (a =? b)%N then strip p' s' else None
  | _ :: _, [] => None
  end.

Definition keyword (p : jsstring) (v : json) (s : jsstring) : option (json * jsstring) :=
  match strip p s with
  | Some rest => Some (v, rest)
  | None => None
  end.

(** Recursive descent over the JSON grammar.  [fuel] bounds the nesting
    and the number of siblings; [JSON_parse] supplies more than any text
    of that length needs. *)
Fixpoint parse_value (fuel : nat) (s : jsstring) : option (json * jsstring) :=
  match fuel with
  | 0 => None
  | S fuel' =>
      match skip_ws s with
      | [] => None
      | c :: r =>
          if (c =? dquote)%N then
            match parse_chars r with
            | Some (t, rest) => Some (JStr t, rest)
            | None => None
            end
          else if (c =? lbracket)%N then
            match skip_ws r with
            | [] => None
            | c' :: r' =>
                if (c' =? rbracket)%N then Some (JArr [], r')
                else match parse_elements fuel' r with
                     | Some (l, rest) => Some (JArr l, rest)
                     | None => None
                     end
            end
          else if (c =? lbrace)%N then
            match skip_ws r with
            | [] => None
            | c' :: r' =>
                if (c' =? rbrace)%N then Some (JObj [], r')
                else match parse_members fuel' r with
                     | Some (l, rest) => Some (JObj l, rest)
                     | None => None
                     end
            end
          else if (c =? 116)%N then keyword (lit "rue") (JBool true) r
          else if (c =? 102)%N then keyword (lit "alse") (JBool false) r
          else if (c =? 110)%N then keyword (lit "ull") JNull r
          else parse_number (c :: r)
      end
  end
with parse_elements (fuel : nat) (s : jsstring) : option (list json * jsstring) :=
  match fuel with
  | 0 => None
  | S fuel' =>
      match parse_value fuel' s with
      | None => None
      | Some (v, r) =>
          match skip_ws r with
          | [] => None
          | c :: r' =>
              if (c =? comma)%N then
                match parse_elements fuel' r' with
                | Some (l, rest) => Some (v :: l, rest)
                | None => None
                end
              else if (c =? rbracket)%N then Some ([v], r')
              else None
          end
      end
  end
with parse_members (fuel : nat) (s : jsstring)
    : option (list (jsstring * json) * jsstring) :=
  match fuel with
  | 0 => None
  | S fuel' =>
      match skip_ws s with
      | [] => None
      | q :: r =>
          if (q =? dquote)%N then
            match parse_chars r with
            | None => None
            | Some (k, r1) =>
                match skip_ws r1 with
                | [] => None
                | c1 :: r2 =>
                    if (c1 =? colon)%N then
                      match parse_value fuel' r2 with
                      | None => None
                      | Some (v, r3) =>
                          match skip_ws r3 with
                          | [] => None
                          | c3 :: r4 =>
                              if (c3 =? comma)%N then
                                match parse_members fuel' r4 with
                                | Some (l, rest) => Some ((k, v) :: l, rest)
                                | None => None
                                end
                              else if (c3 =? rbrace)%N then Some ([(k, v)], r4)
                              else None
                          end
                      end
                    else None
                end
            end
          else None
      end
  end.

(** [JSON.parse(text)]: one value, then only white space.  Malformed text
    throws a [SyntaxError]. *)
Definition JSON_parse (text : jsstring) : completion json :=
  match parse_value (S (length text)) text with
  | Some (v, rest) =>
      match skip_ws rest with
      | [] => Normal v
      | _ :: _ => Throw SyntaxError
      end
  | None => Throw SyntaxError
  end.

(** [parses v]: the text printed for [v], followed by anything that may
    follow a value, is read back as [v] with enough fuel. *)
Definition parses (v : json) : Prop :=
  forall fuel rest,
    length (stringify v) < fuel -> delim rest ->
    parse_value fuel (stringify v ++ rest) = Some (v, rest).

(* ===================================================================== *)
(** * Icon records and their JSON form                                    *)
(* ===================================================================== *)

(** [IconProps]: the two transient fields are optional in the source. *)
Record IconProps : Type := mkIcon {
  unicode : Z;
  iconName : jsstring;
  viewBox : jsstring;
  svgPath : jsstring;
  isEditing : option bool;
  editingName : option jsstring
}.

Definition optional_member {A} (key : jsstring) (to_json : A -> json)
    (field : option A) : list (jsstring * json) :=
  match field with
  | Some a => [(key, to_json a)]
  | None => []
  end.

(** The object [JSON.stringify] sees for one record: the own properties in
    the order the record literal of [generatorIconList] creates them; a
    property that is [undefined] is left out. *)
Definition json_of_icon (icon : IconProps) : json :=
  JObj ([(lit "unicode", JNum (unicode icon));
         (lit "iconName", JStr (iconName icon));
         (lit "viewBox", JStr (viewBox icon));
         (lit "svgPath", JStr (svgPath icon))]
        ++ optional_member (lit "isEditing") JBool (isEditing icon)
        ++ optional_member (lit "editingName") JStr (editingName icon)).

Definition json_of_icons (icons : list IconProps) : json :=
  JArr (List.map json_of_icon icons).

(** Code points that a double holds exactly, so that [JSON.parse] reads
    back the very number that was written. *)
Definition exact_code_points (icons : list IconProps) : Prop :=
  Forall (fun icon => (Z.abs (unicode icon) <= 2 ^ 53)%Z) icons.

Definition json_of_strings (names : list jsstring) : json :=
  JArr (List.map JStr names).

(** Property lookup on a parsed object: of two members with one key the
    later one is the property's value. *)
Fixpoint member_of (key : jsstring) (members : list (jsstring * json)) : option json :=
  match members with
  | [] => None
  | (k, v) :: rest =>
      match member_of key rest with
      | Some v' => Some v'
      | None => if bool_decide (k = key) then Some v else None
      end
  end.

Definition as_number (v : json) : option Z :=
  match v with JNum z => Some z | _ => None end.
Definition as_string (v : json) : option jsstring :=
  match v with JStr s => Some s | _ => None end.
Definition as_boolean (v : json) : option bool :=
  match v with JBool b => Some b | _ => None end.

Definition required {A} (read : json -> option A) (v : option json) : option A :=
  match v with
  | Some x => read x
  | None => None
  end.

Definition optional {A} (read : json -> option A) (v : option json) : option (option A) :=
  match v with
  | Some x => match read x with Some a => Some (Some a) | None => None end
  | None => Some None
  end.

(** A parsed value read at the declared type [IconProps]. *)
Definition icon_of_json (v : json) : option IconProps :=
  match v with
  | JObj members =>
      u ← required as_number (member_of (lit "unicode") members);
      n ← required as_string (member_of (lit "iconName") members);
      b ← required as_string (member_of (lit "viewBox") members);
      p ← required as_string (member_of (lit "svgPath") members);
      e ← optional as_boolean (member_of (lit "isEditing") members);
      en ← optional as_string (member_of (lit "editingName") members);
      Some (mkIcon u n b p e en)
  | _ => None
  end.

Definition array_of_json {A} (read : json -> option A) (v : json) : option (list A) :=
  match v with
  | JArr l => mapM read l
  | _ => None
  end.

Definition icons_of_json : json -> option (list IconProps) := array_of_json icon_of_json.
Definition strings_of_json : json -> option (list jsstring) := array_of_json as_string.

(** [JSON.parse(text)] under a type annotation [: T].  The annotation is
    an unchecked cast in the source: text that is JSON of another shape
    hands the caller a value that is not a [T].  The embedding is typed and
    has no such value; it raises a [TypeError] there instead.  The
    results below are results about the program for stores whose items
    are missing, empty, not JSON, or the text of a value of the declared
    type; what a read returns is stated for such items only. *)
Definition JSON_parse_as {A} (read : json -> option A) (text : jsstring) : completion A :=
  v ← JSON_parse text;
  match read v with
  | Some a => Normal a
  | None => Throw TypeError
  end.

(* ===================================================================== *)
(** * localStorage                                                        *)
(* ===================================================================== *)

(** The browser's key-value store: its items and the quota past which
    [setItem] throws. *)
Record Storage : Type := mkStorage {
  items : gmap jsstring jsstring;
  quota : nat
}.

Definition used (m : gmap jsstring jsstring) : nat :=
  map_fold (fun k v total => length k + length v + total) 0 m.

(** Code that reads and writes [localStorage] and may throw. *)
Definition JS (A : Type) : Type := Storage -> completion A * Storage.

#[export] Instance JS_ret : MRet JS := fun A a st => (Normal a, st).
#[export] Instance JS_bind : MBind JS := fun A B k m st =>
  match m st with
  | (Normal a, st') => k a st'
  | (Throw e, st') => (Throw e, st')
  end.

Definition lift {A} (c : completion A) : JS A := fun st => (c, st).

(** [try { body } catch (error) { handler }]. *)
Definition try_catch {A} (body : JS A) (handler : error -> JS A) : JS A :=
  fun st =>
    match body st with
    | (Normal a, st') => (Normal a, st')
    | (Throw e, st') => handler e st'
    end.

Definition getItem (key : jsstring) : JS (option jsstring) :=
  fun st => (Normal (items st !! key), st).

Definition setItem (key value : jsstring) : JS unit :=
  fun st =>
    let items' := <[key := value]> (items st) in
    if used items' <=? quota st then (Normal tt, mkStorage items' (quota st))
    else (Throw QuotaExceededError, st).

Definition removeItem (key : jsstring) : JS unit :=
  fun st => (Normal tt, mkStorage (delete key (items st)) (quota st)).

(** [arr.indexOf(x)]: [None] stands for [-1]. *)
Fixpoint indexOf (x : jsstring) (l : list jsstring) : option nat :=
  match l with
  | [] => None
  | y :: l' => if bool_decide (y = x) then Some 0 else S <$> indexOf x l'
  end.

(** The store operations of storageUtil.ts (the key codec of that file is
    in [storageUtil] above). *)
Module Import persistence.
Import storageUtil.

(** [getSavedFileNameData], storageUtil.ts lines 42-56. *)
Definition getSavedFileNameData : JS (list jsstring) :=
  try_catch
    (existingData ← getItem storageFileNames;
     match existingData with
     | Some (c :: s) => lift (JSON_parse_as strings_of_json (c :: s))
     | _ => mret []
     end)
    (fun _ => mret []).

(** [saveFileNameData], lines 62-75. *)
Definition saveFileNameData (filename : jsstring) : JS unit :=
  savedFileNames ← getSavedFileNameData;
  if bool_decide (filename ∈ savedFileNames) then mret tt
  else setItem storageFileNames
         (stringify (json_of_strings (savedFileNames ++ [filename]))).

(** [getFontData], lines 94-109. *)
Definition getFontData (filename : jsstring) : JS (list IconProps) :=
  try_catch
    (storageKey ← lift (getSafeStorageKey filename);
     storedData ← getItem storageKey;
     match storedData with
     | Some (c :: s) => lift (JSON_parse_as icons_of_json (c :: s))
     | _ => mret []
     end)
    (fun _ => mret []).

(** [saveFontData], lines 116-122. *)
Definition saveFontData (filename : jsstring) (iconProps : list IconProps) : JS unit :=
  storageKey ← lift (getSafeStorageKey filename);
  setItem storageKey (stringify (json_of_icons iconProps)).

(** [deleteStorageData], lines 124-137. *)
Definition deleteStorageData (filename : jsstring) : JS unit :=
  storageKey ← lift (getSafeStorageKey filename);
  _ ← removeItem storageKey;
  savedFileNames ← getSavedFileNameData;
  match indexOf filename savedFileNames with
  | Some index =>
      setItem storageFileNames
        (stringify (json_of_strings (delete index savedFileNames)))
  | None => mret tt
  end.

End persistence.

(** The registry as the program reads it. *)
Definition registry (st : Storage) : list jsstring :=
  match getSavedFileNameData st with
  | (Normal names, _) => names
  | (Throw _, _) => []
  end.

Definition run {A} (m : JS A) (st : Storage) : Storage := snd (m st).

(** Registry operations as the storage layer offers them. *)
Inductive RegistryOp : Type :=
  | RegistryAdd (filename : jsstring)      (* saveFileNameData *)
  | RegistryRemove (filename : jsstring).  (* deleteStorageData *)

Definition registry_step (st : Storage) (op : RegistryOp) : Storage :=
  match op with
  | RegistryAdd filename => run (saveFileNameData filename) st
  | RegistryRemove filename => run (deleteStorageData filename) st
  end.

(** The registry slot is empty or holds the text of a duplicate-free array
    of names. *)
Definition registry_ok (st : Storage) : Prop :=
  items st !! storageUtil.storageFileNames = None
  \/ exists names,
       NoDup names
       /\ items st !! storageUtil.storageFileNames
          = Some (stringify (json_of_strings names)).

(* ===================================================================== *)
(** * Icon list controller                                                *)
(* ===================================================================== *)

(** The current revision of icon-list.vue is the first copy in
    src/unnamed/part_000 (lines 1-516); line numbers below refer to it
    unless a file is named. *)

(** What the list component reads from a parsed font: per glyph the code
    point, the name, the bounding box of its path and the path written by
    [toSVG(2)].  Coordinates are integers here. *)
Record BoundingBox : Type := mkBox { x1 : Z; y1 : Z; x2 : Z; y2 : Z }.

Record Glyph : Type := mkGlyph {
  glyph_unicode : option Z;
  glyph_name : option jsstring;
  glyph_box : BoundingBox;
  glyph_svg : jsstring
}.

Record Font : Type := mkFont { glyphs : option (list Glyph) }.

Definition space : N := 32%N.

(** [generatorIconList]: a glyph without a code point (or with code point
    0) is skipped. *)
Definition generatorIconList (font : Font) : list IconProps :=
  match glyphs font with
  | None => []
  | Some gs =>
      flat_map
        (fun glyph =>
           match glyph_unicode glyph with
           | None | Some 0%Z => []
           | Some u =>
               let box := glyph_box glyph in
               [mkIcon u
                  (or_else (glyph_name glyph) [])
                  (number_to_string (x1 box) ++ [space]
                   ++ number_to_string (y1 box) ++ [space]
                   ++ number_to_string (x2 box - x1 box) ++ [space]
                   ++ number_to_string (y2 box - y1 box))
                  (glyph_svg glyph)
                  (Some false)
                  (Some (or_else (glyph_name glyph) []))]
           end)
        gs
  end.

(** The messages the component shows. *)
Inductive message : Type :=
  | LoadFailed          (* message.error: loading the saved data failed *)
  | SaveMissingFilename (* message.error: cannot save without a filename *)
  | SaveSucceeded       (* message.success after handleSave *)
  | SaveFailed          (* message.error after handleSave *)
  | PngDownloadSucceeded    (* message.success: PNG icons downloaded *)
  | PngDownloadFailed       (* message.error: generating the archive failed *)
  | PngConversionFailed.    (* message.error: converting to PNG failed *)

Record Props : Type := mkProps {
  font : option Font;
  filename : option jsstring
}.

(** The component's refs.  [allIconList] holds the record objects of the
    canonical collection; [iconList] holds references to those same
    objects, a reference being the object's position in [allIconList].
    Both arrays are only ever replaced as a whole. *)
Record ListState : Type := mkList {
  allIconList : list IconProps;
  iconList : list nat;
  isDownloading : bool;
  shown : list message
}.

(** The records the filtered view shows, in order. *)
Definition visible (st : ListState) : list IconProps :=
  omap (fun ref => allIconList st !! ref) (iconList st).

(** References to every record of a collection, in order. *)
Definition every (icons : list IconProps) : list nat := seq 0 (length icons).

(** [allIconList.value = icons; iconList.value = icons]. *)
Definition set_both (icons : list IconProps) (st : ListState) : ListState :=
  mkList icons (every icons) (isDownloading st) (shown st).

Definition notify (m : message) (st : ListState) : ListState :=
  mkList (allIconList st) (iconList st) (isDownloading st) (shown st ++ [m]).

(** [loadSavedIconData] (lines 38-54). *)
Definition loadSavedIconData (props : Props) (st : ListState) : JS (bool * ListState) :=
  match filename props with
  | Some (c :: s) =>
      try_catch
        (savedIcons ← getFontData (c :: s);
         if 0 <? length savedIcons then mret (true, set_both savedIcons st)
         else mret (false, st))
        (fun _ => mret (false, notify LoadFailed st))
  | _ => mret (false, st)
  end.

(** The [watchEffect] callback (lines 85-107). *)
Definition watchEffect (props : Props) (st : ListState) : JS ListState :=
  loaded ← loadSavedIconData props st;
  let (hasLoadedFromCache, st1) := (loaded : bool * ListState) in
  if hasLoadedFromCache then mret st1
  else
    match font props with
    | None => mret (set_both [] st1)
    | Some f => mret (set_both (generatorIconList f) st1)
    end.

(** [handleSave] (lines 135-152). *)
Definition handleSave (props : Props) (st : ListState) : JS ListState :=
  match filename props with
  | Some (c :: s) =>
      try_catch
        (_ ← saveFontData (c :: s) (allIconList st);
         _ ← saveFileNameData (c :: s);
         mret (notify SaveSucceeded st))
        (fun _ => mret (notify SaveFailed st))
  | _ => mret (notify SaveMissingFilename st)
  end.

(** [s.includes(t)]. *)
Fixpoint starts_with (t s : jsstring) : bool :=
  match t, s with
  | [], _ => true
  | a :: t', b :: s' => (a =? b)%N && starts_with t' s'
  | _ :: _, [] => false
  end.

Fixpoint includes (s t : jsstring) : bool :=
  starts_with t s
  || match s with
     | [] => false
     | _ :: s' => includes s' t
     end.

(** References to the records of [icons] that satisfy [keep]; [first] is
    the position of the head of [icons]. *)
Fixpoint filter_refs (keep : IconProps -> bool) (first : nat) (icons : list IconProps)
    : list nat :=
  match icons with
  | [] => []
  | icon :: rest =>
      if keep icon then first :: filter_refs keep (S first) rest
      else filter_refs keep (S first) rest
  end.

Definition stop_editing (icon : IconProps) : IconProps :=
  mkIcon (unicode icon) (iconName icon) (viewBox icon) (svgPath icon)
    (Some false) (editingName icon).

Definition begin_editing (icon : IconProps) : IconProps :=
  mkIcon (unicode icon) (iconName icon) (viewBox icon) (svgPath icon)
    (Some true) (Some (iconName icon)).

(** White space and line terminators, as [trim] sees them. *)
Definition is_js_space (c : N) : bool :=
  ((c =? 9) || (c =? 10) || (c =? 11) || (c =? 12) || (c =? 13) || (c =? 32)
   || (c =? 160) || (c =? 5760) || ((8192 <=? c) && (c <=? 8202))
   || (c =? 8232) || (c =? 8233) || (c =? 8239) || (c =? 8287)
   || (c =? 12288) || (c =? 65279))%N.

Fixpoint trim_start (s : jsstring) : jsstring :=
  match s with
  | c :: r => if is_js_space c then trim_start r else s
  | [] => []
  end.

Definition trim (s : jsstring) : jsstring :=
  rev (trim_start (rev (trim_start s))).

Definition rename (icon : IconProps) : IconProps :=
  match editingName icon with
  | Some staged =>
      match trim staged with
      | [] => icon
      | c :: s =>
          mkIcon (unicode icon) (c :: s) (viewBox icon) (svgPath icon)
            (isEditing icon) (editingName icon)
      end
  | None => icon
  end.

Definition with_icons (icons : list IconProps) (st : ListState) : ListState :=
  mkList icons (iconList st) (isDownloading st) (shown st).

(** Is the record open for editing?  ([undefined] is falsy.) *)
Definition editing (icon : IconProps) : bool :=
  match isEditing icon with
  | Some b => b
  | None => false
  end.

Section ListController.

(** [String.prototype.toLowerCase], the platform's Unicode case
    mapping. *)
Variable toLowerCase : jsstring -> jsstring.

(** The arrow function [handleSearch] filters with. *)
Definition matches (text : jsstring) (item : IconProps) : bool :=
  includes (toLowerCase (iconName item)) (toLowerCase text).

(** [handleSearch] (lines 343-347; icon-list.vue lines 82-86). *)
Definition handleSearch (text : jsstring) (st : ListState) : ListState :=
  mkList (allIconList st)
    (filter_refs (matches text) 0 (allIconList st))
    (isDownloading st) (shown st).

End ListController.

(** [startEditing] (lines 352-360; icon-list.vue lines 91-99): the
    [forEach] runs over [iconList], the filtered view. *)
Definition startEditing (icon : nat) (st : ListState) : ListState :=
  let closed :=
    foldl (fun icons item => alter stop_editing item icons)
      (allIconList st) (iconList st) in
  with_icons (alter begin_editing icon closed) st.

(** [finishEditing] (lines 365-370). *)
Definition finishEditing (icon : nat) (st : ListState) : ListState :=
  with_icons (alter (fun item => stop_editing (rename item)) icon (allIconList st)) st.

(** [cancelEditing] (lines 375-377). *)
Definition cancelEditing (icon : nat) (st : ListState) : ListState :=
  with_icons (alter stop_editing icon (allIconList st)) st.

(** The case mapping restricted to ASCII, where it is known in full. *)
Definition ascii_toLowerCase (s : jsstring) : jsstring :=
  List.map (fun c => if ((65 <=? c) && (c <=? 90))%N then (c + 32)%N else c) s.

(** How many records of the canonical collection are open for editing. *)
Definition open_edits (st : ListState) : nat :=
  length (List.filter editing (allIconList st)).

(* ===================================================================== *)
(** * Batch PNG export                                                    *)
(* ===================================================================== *)

Abbreviation Blob := (list N).

Definition dot : N := 46%N.

(** The code units before the first dot, and the rest from that dot on. *)
Fixpoint until_dot (s : jsstring) : jsstring * jsstring :=
  match s with
  | [] => ([], [])
  | c :: r =>
      if (c =? dot)%N then ([], s)
      else let (e, rest) := until_dot r in (c :: e, rest)
  end.

(** [name.replace(/\.[^/.]+$/, '')]: a final extension is cut off.  The
    match can only start at the last dot, and what follows it must be
    non-empty and free of slashes. *)
Definition strip_extension (name : jsstring) : jsstring :=
  let (extension, rest) := until_dot (rev name) in
  match rest with
  | _ :: before =>
      match extension with
      | [] => name
      | _ :: _ => if forallb (fun c => negb (c =? slash)%N) extension
                  then rev before else name
      end
  | [] => name
  end.

(** The name of a record's archive entry:
    [`${icon.iconName || `icon_${icon.unicode}`}.png`]. *)
Definition png_entry_name (icon : IconProps) : jsstring :=
  or_else (Some (iconName icon)) (lit "icon_" ++ number_to_string (unicode icon))
  ++ lit ".png".

(** The file entries of a JSZip archive, by name: [zip.file(name, data)]
    adds the entry or replaces the entry of that name.  The folder entries
    the library adds beside them are a function of the file names; they
    are [zip_folders] below, and [zip_files] is the whole of
    [zip.files]. *)
Abbreviation Zip := (gmap jsstring Blob).

Definition ends_with_slash (path : jsstring) : bool :=
  match last path with
  | Some c => (c =? slash)%N
  | None => false
  end.

(** [path.lastIndexOf("/")]; [None] stands for [-1]. *)
Fixpoint lastIndexOf_slash (path : jsstring) : option nat :=
  match path with
  | [] => None
  | c :: r =>
      match lastIndexOf_slash r with
      | Some i => Some (S i)
      | None => if (c =? slash)%N then Some 0 else None
      end
  end.

(** JSZip's [parentFolder(path)]: the path up to its last slash, a
    trailing slash aside; empty when that slash is missing or leads the
    path. *)
Definition parentFolder (path : jsstring) : jsstring :=
  let path := if ends_with_slash path then removelast path else path in
  match lastIndexOf_slash path with
  | Some (S i) => take (S i) path
  | _ => []
  end.

(** JSZip's [forceTrailingSlash(path)]. *)
Definition forceTrailingSlash (path : jsstring) : jsstring :=
  if ends_with_slash path then path else path ++ [slash].

(** The folder entries [zip.file(name, data)] creates with the default
    [createFolders]: the parent folder of [name], its parent, and so on. *)
Fixpoint folders_above (fuel : nat) (name : jsstring) : list jsstring :=
  match fuel with
  | 0 => []
  | S fuel' =>
      match parentFolder name with
      | [] => []
      | c :: p =>
          forceTrailingSlash (c :: p)
          :: folders_above fuel' (forceTrailingSlash (c :: p))
      end
  end.

Definition zip_folders (name : jsstring) : list jsstring :=
  folders_above (length name) name.

(** [Object.keys(zip.files)]: the names of the file entries and of the
    folder entries. *)
Definition zip_files (zip : Zip) : gset jsstring :=
  dom zip ∪ set_bind (fun name => list_to_set (zip_folders name)) (dom zip).

Record Download : Type := mkDownload {
  download_name : jsstring;
  download_files : Zip
}.

Definition set_downloading (b : bool) (st : ListState) : ListState :=
  mkList (allIconList st) (iconList st) b (shown st).

Section PngExport.

(** [svgToPng] draws on a canvas and resolves or rejects later; what it
    yields for a record is the browser's.  [Normal blob] is a resolved
    promise, [Throw e] a rejected one. *)
Variable svgToPng : IconProps -> completion Blob.

(** [zip.generateAsync({ type: 'blob' })], likewise. *)
Variable generateAsync : Zip -> completion Blob.

(** Did the conversion of this record succeed? *)
Definition converts (icon : IconProps) : bool :=
  match svgToPng icon with
  | Normal _ => true
  | Throw _ => false
  end.

(** The entry a settled conversion adds to the archive, if any. *)
Definition added_entry (icons : list IconProps) (ref : nat) : option jsstring :=
  icon ← icons !! ref;
  if converts icon then Some (png_entry_name icon) else None.

(** The body of one mapped promise: convert, add to the archive; a
    rejection is logged and the record skipped. *)
Definition convert_into (icons : list IconProps) (zip : Zip) (ref : nat) : Zip :=
  match icons !! ref with
  | Some icon =>
      match svgToPng icon with
      | Normal pngBlob => <[png_entry_name icon := pngBlob]> zip
      | Throw _ => zip
      end
  | None => zip
  end.

(** [downloadAllPng] (lines 279-336).  One conversion is started per
    record of [allIconList]; [settled] is the order in which they
    settle.  The result is the new component state and the download that
    was triggered, if any.  The outer [catch] handles the error thrown for
    an empty archive and clears [isDownloading] at once; on the other
    paths the flag stays set until the timer fires. *)
Definition downloadAllPng (props : Props) (settled : list nat) (st : ListState)
    : ListState * option Download :=
  if isDownloading st then (st, None)
  else
    let st1 := set_downloading true st in
    let converted : completion Zip :=
      let zip := foldl (convert_into (allIconList st)) ∅ settled in
      if bool_decide (size (zip_files zip) = 0) then Throw NoIconsConverted
      else Normal zip in
    match converted with
    | Normal zip =>
        match generateAsync zip with
        | Normal _ =>
            let baseFilename :=
              match filename props with
              | Some (c :: s) => strip_extension (c :: s)
              | _ => lit "icons-png"
              end in
            (notify PngDownloadSucceeded st1,
             Some (mkDownload (baseFilename ++ lit "-png.zip") zip))
        | Throw _ => (notify PngDownloadFailed st1, None)
        end
    | Throw _ =>
        (set_downloading false (notify PngConversionFailed st1), None)
    end.

End PngExport.

(** The [setTimeout] callback that re-enables the export buttons. *)
Definition download_timer (st : ListState) : ListState := set_downloading false st.

(** What [getFontData] yields for the current filename; empty when there
    is no filename. *)
Definition saved_icons (props : Props) (storage : Storage) : list IconProps :=
  match filename props with
  | Some (c :: s) =>
      match getFontData (c :: s) storage with
      | (Normal icons, _) => icons
      | (Throw _, _) => []
      end
  | _ => []
  end.



(** What extraction gives for the current font. *)
Definition extracted (props : Props) : list IconProps :=
  match font props with
  | Some f => generatorIconList f
  | None => []
  end.

(** No two records of the canonical collection are open for editing. *)
Definition at_most_one_open (st : ListState) : Prop :=
  forall i j a b,
    allIconList st !! i = Some a -> allIconList st !! j = Some b ->
    editing a = true -> editing b = true -> i = j.

(** Every record that is open for editing is in the filtered view. *)
Definition open_edits_visible (st : ListState) : Prop :=
  forall i a, allIconList st !! i = Some a -> editing a = true -> i ∈ iconList st.

(* ===================================================================== *)
(** * Icon detail controller                                              *)
(* ===================================================================== *)

(** [positionOffset].  The component's numbers are doubles fed by number
    inputs; the embedding holds integers.  On integers up to 2^53 in
    magnitude the component's sums are exact, and below 10^21 its
    template strings print them in plain decimal, as here. *)
Record Offset : Type := mkOffset { offset_x : Z; offset_y : Z }.

(** The inline style of the rendered [svg] element, as far as the
    component writes it. *)
Record SvgStyle : Type := mkStyle {
  style_fill : option jsstring;
  style_transform : option jsstring
}.

(** The refs of icon-detail.vue.  [svgElement] is [svgElementRef.value]:
    the mounted element, or [None] for [null]. *)
Record DetailState : Type := mkDetail {
  isModalVisible : bool;
  currentIcon : option nat;
  rotationAngle : Z;
  scaleFactor : Z;
  positionOffset : Offset;
  isGridVisible : bool;
  svgElement : option SvgStyle
}.



(** The [transform] string of [applyTransformations]: translate, rotate,
    scale, in that order. *)
Definition transform_string (st : DetailState) : jsstring :=
  lit "translate(" ++ number_to_string (offset_x (positionOffset st)) ++ lit "px, "
  ++ number_to_string (offset_y (positionOffset st)) ++ lit "px) rotate("
  ++ number_to_string (rotationAngle st) ++ lit "deg) scale("
  ++ number_to_string (scaleFactor st) ++ lit ")".

(** [applyTransformations] (lines 202-206). *)
Definition applyTransformations (st : DetailState) : DetailState :=
  match svgElement st with
  | Some el =>
      mkDetail (isModalVisible st) (currentIcon st) (rotationAngle st)
        (scaleFactor st) (positionOffset st) (isGridVisible st)
        (Some (mkStyle (style_fill el) (Some (transform_string st))))
  | None => st
  end.

Definition with_rotation (angle : Z) (st : DetailState) : DetailState :=
  mkDetail (isModalVisible st) (currentIcon st) angle (scaleFactor st)
    (positionOffset st) (isGridVisible st) (svgElement st).

Definition with_scale (scale : Z) (st : DetailState) : DetailState :=
  mkDetail (isModalVisible st) (currentIcon st) (rotationAngle st) scale
    (positionOffset st) (isGridVisible st) (svgElement st).

Definition with_offset (offset : Offset) (st : DetailState) : DetailState :=
  mkDetail (isModalVisible st) (currentIcon st) (rotationAngle st) (scaleFactor st)
    offset (isGridVisible st) (svgElement st).

(** [degrees || 0] *)
Definition or_zero (n : option Z) : Z := default 0%Z n.

(** [rotateIcon] (lines 157-161). *)
Definition rotateIcon (degrees : option Z) (st : DetailState) : DetailState :=
  match svgElement st with
  | None => st
  | Some _ => applyTransformations (with_rotation (rotationAngle st + or_zero degrees) st)
  end.

(** [setRotationAngle] (lines 168-172). *)
Definition setRotationAngle (degrees : option Z) (st : DetailState) : DetailState :=
  match svgElement st with
  | None => st
  | Some _ => applyTransformations (with_rotation (or_zero degrees) st)
  end.

(** [setScaleFactor] (lines 179-183). *)
Definition setScaleFactor (scale : option Z) (st : DetailState) : DetailState :=
  match scale with
  | None => st
  | Some s => applyTransformations (with_scale s st)
  end.

Inductive Direction : Type := Up | Down | Left | Right.

(** [moveIcon] (lines 190-197), for the four directions the template
    passes. *)
Definition moveIcon (direction : Direction) (st : DetailState) : DetailState :=
  let step := 10%Z in
  let p := positionOffset st in
  applyTransformations
    (with_offset
       match direction with
       | Up => mkOffset (offset_x p) (offset_y p - step)
       | Down => mkOffset (offset_x p) (offset_y p + step)
       | Left => mkOffset (offset_x p - step) (offset_y p)
       | Right => mkOffset (offset_x p + step) (offset_y p)
       end st).



(** What a user does inside one detail session, apart from choosing a
    colour. *)
Inductive TransformOp : Type :=
  | OpRotate (degrees : option Z)
  | OpSetRotation (degrees : option Z)
  | OpSetScale (scale : option Z)
  | OpMove (direction : Direction).

Definition transform_step (st : DetailState) (op : TransformOp) : DetailState :=
  match op with
  | OpRotate d => rotateIcon d st
  | OpSetRotation d => setRotationAngle d st
  | OpSetScale s => setScaleFactor s st
  | OpMove d => moveIcon d st
  end.

(* ===================================================================== *)
(** * Key codec: the intermediate values                                  *)
(* ===================================================================== *)

(** [filename.split('/').pop() || filename]. *)
Definition basename (filename : jsstring) : jsstring :=
  or_else (pop (split slash filename)) filename.

(** [safeName] of storageUtil.ts. *)
Definition substituted (filename : jsstring) : jsstring :=
  List.map (fun c => if is_safe c then c else underscore) (basename filename).

(** [safeName] of the older inline codec. *)
Definition deleted (filename : jsstring) : jsstring :=
  List.filter is_safe (basename filename).
(* ===================================================================== *)
(** * The registry item                                                   *)
(* ===================================================================== *)

(** The registry item is missing, is the empty string, is not JSON, or is
    the JSON text of a list of names. *)
Definition registry_readable (st : Storage) : Prop :=
  items st !! storageUtil.storageFileNames = None
  \/ items st !! storageUtil.storageFileNames = Some []
  \/ (exists text,
        items st !! storageUtil.storageFileNames = Some text
        /\ JSON_parse text = Throw SyntaxError)
  \/ (exists names,
        items st !! storageUtil.storageFileNames
        = Some (stringify (json_of_strings names))).

(* ===================================================================== *)
(** * Icon list controller: the rename input                              *)
(* ===================================================================== *)

(** Does [generatorIconList] keep the glyph?  ([!glyph.unicode] is true for
    [undefined] and for 0.) *)
Definition has_code_point (glyph : Glyph) : bool :=
  match glyph_unicode glyph with
  | None | Some 0%Z => false
  | Some _ => true
  end.

Definition with_editingName (value : jsstring) (icon : IconProps) : IconProps :=
  mkIcon (unicode icon) (iconName icon) (viewBox icon) (svgPath icon)
    (isEditing icon) (Some value).

(** Typing into the rename input: [v-model:value="svg.editingName"]
    (src/unnamed/part_000 line 408) assigns the input's value to the
    record. *)
Definition inputEditingName (icon : nat) (value : jsstring) (st : ListState) : ListState :=
  with_icons (alter (with_editingName value) icon (allIconList st)) st.

(** The first and the last code unit of a string are not white space. *)
Definition no_outer_space (s : jsstring) : Prop :=
  match s with
  | [] => True
  | c :: _ => is_js_space c = false /\ exists d, last s = Some d /\ is_js_space d = false
  end.

(* ===================================================================== *)
(** * Batch SVG export                                                    *)
(* ===================================================================== *)

Definition newline : N := 10%N.

(** The document [downloadAllSvg] writes for a record (lines 169-171). *)
Definition svg_document (icon : IconProps) : jsstring :=
  lit "<svg xmlns=" ++ [dquote] ++ lit "http://www.w3.org/2000/svg" ++ [dquote]
  ++ lit " viewBox=" ++ [dquote] ++ viewBox icon ++ [dquote]
  ++ lit " width=" ++ [dquote] ++ lit "1024" ++ [dquote]
  ++ lit " height=" ++ [dquote] ++ lit "1024" ++ [dquote] ++ lit ">"
  ++ [newline] ++ svgPath icon ++ [newline] ++ lit "</svg>".

(** [`${icon.iconName || `icon_${icon.unicode}`}.svg`]. *)
Definition svg_entry_name (icon : IconProps) : jsstring :=
  or_else (Some (iconName icon)) (lit "icon_" ++ number_to_string (unicode icon))
  ++ lit ".svg".

(** The messages of the SVG export. *)
Inductive svg_message : Type :=
  | SvgDownloadSucceeded   (* message.success: SVG icons downloaded *)
  | SvgDownloadFailed.     (* message.error: SVG download failed *)

Section SvgExport.

(** [zip.generateAsync({ type: 'blob' })]: the archive library's. *)
Variable generateAsync : Zip -> completion Blob.

(** [downloadAllSvg] (src/unnamed/part_000 lines 157-204).  The [forEach]
    adds one file entry per record, in order; there is no check for an empty
    archive.  The result is the new component state, the download that was
    triggered, if any, and the message shown; [isDownloading] stays set
    until the timer fires. *)
Definition downloadAllSvg (props : Props) (st : ListState)
    : ListState * option Download * option svg_message :=
  if isDownloading st then (st, None, None)
  else
    let st1 := set_downloading true st in
    let zip : Zip :=
      foldl (fun zip icon => <[svg_entry_name icon := svg_document icon]> zip)
        ∅ (allIconList st) in
    match generateAsync zip with
    | Normal _ =>
        let baseFilename :=
          match filename props with
          | Some (c :: s) => strip_extension (c :: s)
          | _ => lit "icons-svg"
          end in
        (st1, Some (mkDownload (baseFilename ++ lit "-svg.zip") zip),
         Some SvgDownloadSucceeded)
    | Throw _ => (st1, None, Some SvgDownloadFailed)
    end.

End SvgExport.

(* ===================================================================== *)
(** * The application shell (src/App.vue, current revision)               *)
(* ===================================================================== *)

(** An entry of the upload list: its name and, when present, the file
    object ([file?: File]). *)
Record UploadFile : Type := mkFile {
  file_name : jsstring;
  file_blob : option Blob
}.

Record AppState : Type := mkApp {
  fileList : list UploadFile;
  currentFileIndex : nat
}.

(** What a handler does to [fontContent].  Reading and parsing a file is
    asynchronous; the handler only starts it.  [FontParsed file caught]:
    the file is read and parsed, and a failure clears the font when
    [caught] and is left unhandled otherwise. *)
Inductive FontUpdate : Type :=
  | FontKept
  | FontCleared
  | FontParsed (file : UploadFile) (caught : bool).

(** The loop of [handleUploadChange] (lines 35-43): [existingFileNames] is
    the set of names seen so far. *)
Fixpoint uniqueFiles (existingFileNames : gset jsstring) (evt : list UploadFile)
    : list UploadFile :=
  match evt with
  | [] => []
  | file :: rest =>
      if bool_decide (file_name file ∈ existingFileNames) then
        uniqueFiles existingFileNames rest
      else file :: uniqueFiles ({[ file_name file ]} ∪ existingFileNames) rest
  end.

(** [currentFile.file?.arrayBuffer().then(...)]: without a file object the
    optional chain short-circuits the whole expression, [.then] included,
    and nothing is started. *)
Definition read_and_parse (file : UploadFile) : FontUpdate :=
  match file_blob file with
  | Some _ => FontParsed file false
  | None => FontKept
  end.

(** [handleUploadChange] (lines 33-56).  [currentFileIndex] is left as it
    is. *)
Definition handleUploadChange (evt : list UploadFile) (st : AppState)
    : AppState * FontUpdate :=
  let files := uniqueFiles ∅ evt in
  let st' := mkApp files (currentFileIndex st) in
  if 0 <? length files then
    match files !! currentFileIndex st with
    | Some currentFile => (st', read_and_parse currentFile)
    | None => (st', FontKept)
    end
  else (st', FontCleared).

(** [handleRemove] (lines 58-99). *)
Definition handleRemove (index : nat) (st : AppState) : AppState * FontUpdate :=
  let files := delete index (fileList st) in
  let current := currentFileIndex st in
  let newIndex :=
    if index <? current then current - 1
    else if index =? current then
      (if length files <=? current then Nat.max 0 (length files - 1) else current)
    else current in
  let st' := mkApp files newIndex in
  if length files =? 0 then (st', FontCleared)
  else
    match files !! newIndex with
    | Some currentFile =>
        match file_blob currentFile with
        | Some _ => (st', FontParsed currentFile true)
        | None => (st', FontKept)
        end
    | None => (st', FontKept)
    end.

(** [handleFileClick] (lines 101-109). *)
Definition handleFileClick (index : nat) (st : AppState)
    : AppState * FontUpdate :=
  let st' := mkApp (fileList st) index in
  match fileList st !! index with
  | Some currentFile => (st', read_and_parse currentFile)
  | None => (st', FontKept)
  end.

(** The events of the upload panel. *)
Inductive AppOp : Type :=
  | OpUpload (evt : list UploadFile)
  | OpRemove (index : nat)
  | OpClick (index : nat).

Definition app_step (st : AppState) (op : AppOp) : AppState :=
  match op with
  | OpUpload evt => fst (handleUploadChange evt st)
  | OpRemove index => fst (handleRemove index st)
  | OpClick index => fst (handleFileClick index st)
  end.

(** What the template and the upload widget allow: a click comes from a
    rendered entry (lines 148-152), and the widget reports the list it was
    given through [v-model:file-list] with the new files after it. *)
Definition op_enabled (st : AppState) (op : AppOp) : Prop :=
  match op with
  | OpUpload evt => exists more, evt = fileList st ++ more
  | OpRemove _ => True
  | OpClick index => index < length (fileList st)
  end.

(** A run of the panel: each event enabled in the state it meets. *)
Fixpoint app_run (st : AppState) (ops : list AppOp) : Prop :=
  match ops with
  | [] => True
  | op :: rest => op_enabled st op /\ app_run (app_step st op) rest
  end.

(** [ref([])] and [ref(0)] (lines 30-31). *)
Definition app_initial : AppState := mkApp [] 0.

(** The active index points into the list, or the list is empty and the
    index is 0. *)
Definition index_in_range (st : AppState) : Prop :=
  currentFileIndex st < length (fileList st)
  \/ (fileList st = [] /\ currentFileIndex st = 0).

(** The [filename] prop the template passes to the list component:
    [fileList[currentFileIndex]?.name]. *)
Definition active_filename (st : AppState) : option jsstring :=
  file_name <$> fileList st !! currentFileIndex st.

(** The active entry itself. *)
Definition active_file (st : AppState) : option UploadFile :=
  fileList st !! currentFileIndex st.

(* ===================================================================== *)
(** * The list component's loader, older revision                         *)
(* ===================================================================== *)

(** The second copy of icon-list.vue in src/unnamed/part_000: it reads
    the store itself, with its own key codec, and has no guard on the
    length of what it read.  Its [watchEffect] call (line 639) stands
    before [const message = useMessage()] (line 677), and the callback
    runs once at that call: on this first run [message] is not yet
    initialised and reading it throws.  [mounted] tells the later runs
    from the first. *)
Module inlineController.

(** [loadSavedIconData] (src/unnamed/part_000 lines 588-608). *)
Definition loadSavedIconData (mounted : bool) (props : Props) (st : ListState)
    : JS (bool * ListState) :=
  match filename props with
  | Some (c :: s) =>
      try_catch
        (storageKey ← lift (inlineList.getSafeStorageKey (c :: s));
         storedData ← getItem storageKey;
         match storedData with
         | Some (d :: t) =>
             savedIcons ← lift (JSON_parse_as icons_of_json (d :: t));
             mret (true, set_both savedIcons st)
         | _ => mret (false, st)
         end)
        (fun _ =>
           if mounted then mret (false, notify LoadFailed st)
           else lift (Throw ReferenceError))
  | _ => mret (false, st)
  end.

(** The [watchEffect] callback (lines 639-662). *)
Definition watchEffect (mounted : bool) (props : Props) (st : ListState) : JS ListState :=
  loaded ← loadSavedIconData mounted props st;
  let (hasLoadedFromCache, st1) := (loaded : bool * ListState) in
  if hasLoadedFromCache then mret st1
  else
    match font props with
    | None => mret (set_both [] st1)
    | Some f => mret (set_both (generatorIconList f) st1)
    end.

End inlineController.

(** What the older loader finds in the store for the current filename. *)
Definition inline_stored (props : Props) (storage : Storage) : option jsstring :=
  match filename props with
  | Some (c :: s) =>
      match inlineList.getSafeStorageKey (c :: s) with
      | Normal key => items storage !! key
      | Throw _ => None
      end
  | _ => None
  end.

(* ===================================================================== *)
(** * Icon detail controller: the range of its numbers                    *)
(* ===================================================================== *)

(** An integer small enough that adding a step or another such integer
    to it is exact in double arithmetic. *)
Definition in_range (z : Z) : Prop := (Z.abs z <= 2 ^ 52)%Z.

Definition state_in_range (st : DetailState) : Prop :=
  in_range (rotationAngle st) /\ in_range (scaleFactor st)
  /\ in_range (offset_x (positionOffset st))
  /\ in_range (offset_y (positionOffset st)).

Definition op_in_range (op : TransformOp) : Prop :=
  match op with
  | OpRotate (Some d) => in_range d
  | OpSetRotation (Some d) => in_range d
  | OpSetScale (Some s) => in_range s
  | _ => True
  end.

(** Every number of the state is an integer a double holds exactly. *)
Definition state_exact (st : DetailState) : Prop :=
  (Z.abs (rotationAngle st) <= 2 ^ 53)%Z /\ (Z.abs (scaleFactor st) <= 2 ^ 53)%Z
  /\ (Z.abs (offset_x (positionOffset st)) <= 2 ^ 53)%Z
  /\ (Z.abs (offset_y (positionOffset st)) <= 2 ^ 53)%Z.
(* ===================================================================== *)
(** * Key codec: results                                                  *)
(* ===================================================================== *)

Lemma split_nonempty sep s : split sep s <> [].
Proof.
  destruct s as [|c r]; simpl; [discriminate|].
  destruct (c =? sep)%N; [discriminate|].
  destruct (split sep r); discriminate.
Qed.

Lemma is_safe_lt128 c : safe c -> (c < 128)%N.
Proof.
  unfold safe, is_safe. intros H.
  repeat (apply orb_prop in H; destruct H as [H|H]);
    try (apply andb_prop in H; destruct H as [_ H]);
    try apply N.leb_le in H; try apply N.eqb_eq in H; lia.
Qed.

Lemma safe_in_codes c : safe c -> In c safe_codes.
Proof.
  intros H. unfold safe_codes. apply filter_In. split; [|exact H].
  apply in_map_iff. exists (N.to_nat c). split; [apply N2Nat.id|].
  apply in_seq. apply is_safe_lt128 in H. lia.
Qed.

Lemma all_groups_ok :
  forallb (fun a => forallb (fun b => forallb (fun c => group_ok a b c)
    safe_codes) safe_codes) safe_codes = true.
Proof. vm_compute. reflexivity. Qed.

(** A full three-byte group of class characters encodes to four letters or
    digits: the sextets 62 ([+]) and 63 ([/]) would need a byte outside
    the class. *)
Lemma group_safe a b c :
  safe a -> safe b -> safe c -> group_ok a b c = true.
Proof.
  intros Ha Hb Hc.
  pose proof all_groups_ok as H.
  rewrite forallb_forall in H. specialize (H a (safe_in_codes a Ha)).
  rewrite forallb_forall in H. specialize (H b (safe_in_codes b Hb)).
  rewrite forallb_forall in H. exact (H c (safe_in_codes c Hc)).
Qed.

Lemma b64encode_take8_safe s :
  Forall safe s -> 6 <= length s -> Forall safe (take 8 (b64encode s)).
Proof.
  intros Hs Hlen.
  destruct s as [|a [|b [|c [|d [|e [|f r]]]]]]; simpl in Hlen; try lia.
  repeat match goal with
         | H : Forall safe (_ :: _) |- _ => inversion H; clear H; subst
         end.
  pose proof (group_safe a b c ltac:(assumption) ltac:(assumption) ltac:(assumption)) as G1.
  pose proof (group_safe d e f ltac:(assumption) ltac:(assumption) ltac:(assumption)) as G2.
  unfold group_ok in G1, G2.
  repeat (apply andb_prop in G1; destruct G1 as [G1 ?]).
  repeat (apply andb_prop in G2; destruct G2 as [G2 ?]).
  change (take 8 (b64encode (a :: b :: c :: d :: e :: f :: r)))
    with (b64char (N.shiftr a 2)
      :: b64char (N.lor (N.shiftl (N.land a 3) 4) (N.shiftr b 4))
      :: b64char (N.lor (N.shiftl (N.land b 15) 2) (N.shiftr c 6))
      :: b64char (N.land c 63)
      :: b64char (N.shiftr d 2)
      :: b64char (N.lor (N.shiftl (N.land d 3) 4) (N.shiftr e 4))
      :: b64char (N.lor (N.shiftl (N.land e 15) 2) (N.shiftr f 6))
      :: b64char (N.land f 63) :: []).
  repeat constructor; assumption.
Qed.

Lemma btoa_safe s : Forall safe s -> btoa s = Normal (b64encode s).
Proof.
  intros Hs. unfold btoa.
  replace (forallb (fun c => (c <? 256)%N) s) with true; [reflexivity|].
  symmetry. apply forallb_forall. intros c Hc.
  rewrite Forall_forall in Hs. apply list_elem_of_In in Hc.
  apply Hs, is_safe_lt128 in Hc. apply N.ltb_lt. lia.
Qed.

Lemma slice_last_length n s : length (slice_last n s) <= n.
Proof. unfold slice_last. rewrite length_drop. lia. Qed.

Lemma slice_last_Forall (P : N -> Prop) n s :
  Forall P s -> Forall P (slice_last n s).
Proof. unfold slice_last. apply Forall_drop. Qed.

Lemma substitute_safe s :
  Forall safe (List.map (fun c => if is_safe c then c else underscore) s).
Proof.
  apply Forall_forall. intros c Hc. apply list_elem_of_In, in_map_iff in Hc.
  destruct Hc as (x & <- & _). destruct (is_safe x) eqn:E; [exact E|reflexivity].
Qed.

Lemma delete_safe s : Forall safe (List.filter is_safe s).
Proof.
  apply Forall_forall. intros c Hc. apply list_elem_of_In, filter_In in Hc.
  apply Hc.
Qed.

(** The shape both codecs share, once the sanitised name is known to lie in
    the class. *)
Lemma key_of_safe_name (prefix safeName : jsstring) :
  Forall safe safeName ->
  exists key,
    (if length safeName <=? 50 then Normal (prefix ++ safeName)
     else b64 ← btoa safeName;
          Normal (prefix ++ slice_last (50 - 10) safeName ++ [hyphen]
                    ++ substring0 8 b64)) = Normal key
    /\ take (length prefix) key = prefix
    /\ length key <= length prefix + 50
    /\ Forall safe (drop (length prefix) key).
Proof.
  intros Hs. destruct (length safeName <=? 50) eqn:E.
  - apply Nat.leb_le in E. exists (prefix ++ safeName).
    rewrite take_app_length, drop_app_length, length_app.
    repeat split; [lia|exact Hs].
  - apply Nat.leb_gt in E. rewrite (btoa_safe _ Hs). cbn [mbind completion_bind cbind].
    eexists. split; [reflexivity|].
    rewrite take_app_length, drop_app_length, !length_app.
    pose proof (slice_last_length 40 safeName).
    unfold substring0. rewrite length_take. cbn [length].
    change (50 - 10) with 40.
    repeat split; [lia|].
    apply Forall_app. split; [apply slice_last_Forall, Hs|].
    apply Forall_app. split; [repeat constructor|].
    apply b64encode_take8_safe; [exact Hs|lia].
Qed.

(** C3. For every filename, both revisions of [getSafeStorageKey] return
    normally (the [btoa] call never throws), the result is a function of the
    filename alone (any two results for the same filename are equal), the
    key starts with the namespace prefix, its length is at most the prefix
    length plus 50, and every code unit after the prefix lies in the class
    [a-zA-Z0-9._-] - also for names longer than the 50-character threshold,
    where the key ends in a hyphen and an 8-character base64 digest. *)
Theorem getSafeStorageKey_bounded_safe (filename : jsstring) :
  (exists key,
      storageUtil.getSafeStorageKey filename = Normal key
      /\ (forall key', storageUtil.getSafeStorageKey filename = Normal key' -> key' = key)
      /\ take (length storageUtil.storageFontDatasKey) key = storageUtil.storageFontDatasKey
      /\ length key <= length storageUtil.storageFontDatasKey + 50
      /\ Forall safe (drop (length storageUtil.storageFontDatasKey) key))
  /\ (exists key,
      inlineList.getSafeStorageKey filename = Normal key
      /\ (forall key', inlineList.getSafeStorageKey filename = Normal key' -> key' = key)
      /\ take (length inlineList.storageKeyPrefix) key = inlineList.storageKeyPrefix
      /\ length key <= length inlineList.storageKeyPrefix + 50
      /\ Forall safe (drop (length inlineList.storageKeyPrefix) key)).
Proof.
  split.
  - destruct (key_of_safe_name storageUtil.storageFontDatasKey _
                (substitute_safe (or_else (pop (split slash filename)) filename)))
      as (key & Hk & Hp & Hl & Hs).
    change (storageUtil.getSafeStorageKey filename = Normal key) in Hk.
    exists key. rewrite Hk. repeat split; try assumption. congruence.
  - destruct (key_of_safe_name inlineList.storageKeyPrefix _
                (delete_safe (or_else (pop (split slash filename)) filename)))
      as (key & Hk & Hp & Hl & Hs).
    change (inlineList.getSafeStorageKey filename = Normal key) in Hk.
    exists key. rewrite Hk. repeat split; try assumption. congruence.
Qed.

(** C9, as the claim states it (the sanitised name is the filename with
    the space and the exclamation mark removed), fails for the codec of
    storageUtil.ts. *)
Lemma getSafeStorageKey_scenario_not_removed :
  storageUtil.getSafeStorageKey (lit "My Font!.ttf")
  <> Normal (storageUtil.storageFontDatasKey ++ lit "MyFont.ttf").
Proof. vm_compute. discriminate. Qed.

(** C9, amended.  For ["My Font!.ttf"] the codec of storageUtil.ts replaces
    the space and the exclamation mark by underscores and yields
    ["font-icons-My_Font_.ttf"]; the inline codec of the older list
    component deletes them and yields ["font-icons-MyFont.ttf"].  In both
    the key is the namespace prefix followed by the whole sanitised name:
    the name is at most 50 code units long, so nothing is truncated and no
    digest is appended. *)
Theorem getSafeStorageKey_scenario :
  storageUtil.getSafeStorageKey (lit "My Font!.ttf")
  = Normal (storageUtil.storageFontDatasKey ++ lit "My_Font_.ttf")
  /\ storageUtil.storageFontDatasKey ++ lit "My_Font_.ttf" = lit "font-icons-My_Font_.ttf"
  /\ inlineList.getSafeStorageKey (lit "My Font!.ttf")
     = Normal (inlineList.storageKeyPrefix ++ lit "MyFont.ttf")
  /\ inlineList.storageKeyPrefix ++ lit "MyFont.ttf" = lit "font-icons-MyFont.ttf"
  /\ length (lit "My_Font_.ttf") <= storageUtil.maxLength
  /\ length (lit "MyFont.ttf") <= inlineList.maxLength.
Proof. repeat split; vm_compute; try reflexivity; lia. Qed.

(* ===================================================================== *)
(** * JSON: parsing what was printed                                      *)
(* ===================================================================== *)

Section JsonRoundTrip.

(** ** Numbers *)

Lemma delim_not_digit rest : delim rest -> read_digits rest = (Decimal.Nil, rest).
Proof.
  destruct rest as [|c r]; [reflexivity|].
  intros [-> | [-> | ->]]; reflexivity.
Qed.

Lemma delim_not_fraction rest :
  delim rest ->
  read_fraction rest = Some (Decimal.Nil, rest)
  /\ read_exponent rest = Some (None, rest).
Proof.
  destruct rest as [|c r]; [split; reflexivity|].
  intros [-> | [-> | ->]]; split; reflexivity.
Qed.

Lemma read_digits_uint u rest :
  delim rest -> read_digits (uint_digits u ++ rest) = (u, rest).
Proof.
  intros Hd. induction u; cbn [uint_digits app];
    [apply delim_not_digit, Hd | ..];
    cbn [read_digits]; simpl digit_of; rewrite IHu; reflexivity.
Qed.

Lemma to_int_normal z : Z.to_int z = Decimal.norm (Z.to_int z).
Proof.
  pose proof (DecimalZ.to_of (Z.to_int z)) as H.
  rewrite DecimalZ.of_to in H. exact H.
Qed.

Lemma to_int_unorm z u :
  Z.to_int z = Decimal.Pos u \/ Z.to_int z = Decimal.Neg u ->
  Decimal.unorm u = u.
Proof.
  intros H. pose proof (to_int_normal z) as Hn.
  destruct H as [H|H]; rewrite H in Hn; cbn [Decimal.norm] in Hn.
  - congruence.
  - unfold Decimal.unorm.
    destruct (Decimal.nzhead u) eqn:E; congruence.
Qed.

Lemma unorm_nonnil u : Decimal.unorm u = u -> u <> Decimal.Nil.
Proof. intros H ->. discriminate H. Qed.

Lemma uint_beq_refl u : Decimal.uint_beq u u = true.
Proof. apply Decimal.internal_uint_dec_lb. reflexivity. Qed.

Lemma read_sign_digits u rest :
  u <> Decimal.Nil ->
  read_sign (uint_digits u ++ rest) = (false, uint_digits u ++ rest).
Proof. destruct u; [congruence | reflexivity ..]. Qed.

Lemma parse_number_to_string z rest :
  delim rest ->
  parse_number (number_to_string z ++ rest) = Some (JNum z, rest).
Proof.
  intros Hd. unfold number_to_string, parse_number.
  destruct (Z.to_int z) as [u|u] eqn:E.
  - assert (Hu : Decimal.unorm u = u) by (apply (to_int_unorm z); auto).
    rewrite (read_sign_digits u rest (unorm_nonnil u Hu)).
    rewrite (read_digits_uint u rest Hd), Hu, uint_beq_refl.
    destruct (delim_not_fraction rest Hd) as [-> ->].
    rewrite <- E, DecimalZ.of_to. reflexivity.
  - assert (Hu : Decimal.unorm u = u) by (apply (to_int_unorm z); auto).
    cbn [app read_sign]. rewrite N.eqb_refl.
    rewrite (read_digits_uint u rest Hd), Hu, uint_beq_refl.
    destruct (delim_not_fraction rest Hd) as [-> ->].
    rewrite <- E, DecimalZ.of_to. reflexivity.
Qed.

(** ** Strings *)

Lemma parse_chars_plain c r :
  (c =? dquote)%N = false -> (c =? backslash)%N = false -> (c <? 32)%N = false ->
  parse_chars (c :: r)
  = match parse_chars r with
    | Some (t, rest) => Some (c :: t, rest)
    | None => None
    end.
Proof. intros H1 H2 H3. cbn [parse_chars]. rewrite H1, H2, H3. reflexivity. Qed.

Lemma below_32 c : (c < 32)%N -> In c (List.map N.of_nat (seq 0 32)).
Proof.
  intros H. apply in_map_iff. exists (N.to_nat c).
  split; [apply N2Nat.id | apply in_seq; lia].
Qed.

Lemma parse_chars_escape c tl :
  parse_chars (escape_char c ++ tl)
  = match parse_chars tl with
    | Some (t, rest) => Some (c :: t, rest)
    | None => None
    end.
Proof.
  destruct (c <? 32)%N eqn:Hlow.
  - apply N.ltb_lt, below_32 in Hlow. cbn in Hlow.
    repeat (destruct Hlow as [<- | Hlow]; [reflexivity|]). destruct Hlow.
  - unfold escape_char. apply N.ltb_ge in Hlow.
    destruct (c =? 34)%N eqn:E1; [apply N.eqb_eq in E1; subst; reflexivity|].
    destruct (c =? 92)%N eqn:E2; [apply N.eqb_eq in E2; subst; reflexivity|].
    repeat match goal with
           | |- context [(c =? ?k)%N] =>
               replace (c =? k)%N with false by (symmetry; apply N.eqb_neq; lia)
           end.
    replace (c <? 32)%N with false by (symmetry; apply N.ltb_ge; lia).
    cbn [app]. apply parse_chars_plain; [exact E1 | exact E2 | apply N.ltb_ge; lia].
Qed.

Lemma parse_chars_quoted s rest :
  parse_chars (flat_map escape_char s ++ dquote :: rest) = Some (s, rest).
Proof.
  induction s as [|c s IH]; [reflexivity|].
  cbn [flat_map]. rewrite <- app_assoc, parse_chars_escape, IH. reflexivity.
Qed.

(** ** Values: one lemma per production of the parser *)

Lemma skip_ws_nonws c t : is_ws c = false -> skip_ws (c :: t) = c :: t.
Proof. intros H. cbn [skip_ws]. rewrite H. reflexivity. Qed.

Lemma parse_value_string fuel s rest :
  parse_value (S fuel) (quote s ++ rest) = Some (JStr s, rest).
Proof.
  unfold quote. cbn [app]. rewrite <- app_assoc. cbn [app].
  change (parse_value (S fuel) (dquote :: ?r))
    with (match parse_chars r with
          | Some (t, rest) => Some (JStr t, rest)
          | None => None
          end).
  rewrite parse_chars_quoted. reflexivity.
Qed.

Lemma parse_value_array fuel r c t l rest :
  skip_ws r = c :: t -> (c =? rbracket)%N = false ->
  parse_elements fuel r = Some (l, rest) ->
  parse_value (S fuel) (lbracket :: r) = Some (JArr l, rest).
Proof.
  intros Hws Hc He.
  change (parse_value (S fuel) (lbracket :: r))
    with (match skip_ws r with
          | [] => None
          | c' :: r' =>
              if (c' =? rbracket)%N then Some (JArr [], r')
              else match parse_elements fuel r with
                   | Some (l, rest) => Some (JArr l, rest)
                   | None => None
                   end
          end).
  rewrite Hws, Hc, He. reflexivity.
Qed.

Lemma parse_value_object fuel r c t l rest :
  skip_ws r = c :: t -> (c =? rbrace)%N = false ->
  parse_members fuel r = Some (l, rest) ->
  parse_value (S fuel) (lbrace :: r) = Some (JObj l, rest).
Proof.
  intros Hws Hc He.
  change (parse_value (S fuel) (lbrace :: r))
    with (match skip_ws r with
          | [] => None
          | c' :: r' =>
              if (c' =? rbrace)%N then Some (JObj [], r')
              else match parse_members fuel r with
                   | Some (l, rest) => Some (JObj l, rest)
                   | None => None
                   end
          end).
  rewrite Hws, Hc, He. reflexivity.
Qed.

Lemma parse_value_number fuel c r :
  is_num_start c = true -> parse_value (S fuel) (c :: r) = parse_number (c :: r).
Proof.
  unfold is_num_start. intros H.
  assert (Hin : In c [45; 48; 49; 50; 51; 52; 53; 54; 55; 56; 57]%N).
  { apply orb_prop in H. destruct H as [H|H].
    - apply N.eqb_eq in H. subst. left. reflexivity.
    - apply andb_prop in H. destruct H as [H1 H2].
      apply N.leb_le in H1, H2. right.
      assert (Hs : In c (List.map N.of_nat (seq 48 10))).
      { apply in_map_iff. exists (N.to_nat c).
        split; [apply N2Nat.id | apply in_seq; lia]. }
      exact Hs. }
  cbn [In] in Hin.
  repeat (destruct Hin as [<- | Hin]; [reflexivity|]). destruct Hin.
Qed.

Lemma number_to_string_start z :
  exists c t, number_to_string z = c :: t /\ is_num_start c = true.
Proof.
  unfold number_to_string. destruct (Z.to_int z) as [u|u] eqn:E.
  - assert (Hu : Decimal.unorm u = u) by (apply (to_int_unorm z); auto).
    apply unorm_nonnil in Hu.
    destruct u; [congruence | ..]; do 2 eexists; split; reflexivity.
  - do 2 eexists; split; reflexivity.
Qed.

Lemma parse_elements_last fuel s v rest :
  parse_value fuel s = Some (v, rbracket :: rest) ->
  parse_elements (S fuel) s = Some ([v], rest).
Proof.
  intros H.
  change (parse_elements (S fuel) s)
    with (match parse_value fuel s with
          | None => None
          | Some (v, r) =>
              match skip_ws r with
              | [] => None
              | c :: r' =>
                  if (c =? comma)%N then
                    match parse_elements fuel r' with
                    | Some (l, rest) => Some (v :: l, rest)
                    | None => None
                    end
                  else if (c =? rbracket)%N then Some ([v], r')
                  else None
              end
          end).
  rewrite H. reflexivity.
Qed.

Lemma parse_elements_more fuel s v r l rest :
  parse_value fuel s = Some (v, comma :: r) ->
  parse_elements fuel r = Some (l, rest) ->
  parse_elements (S fuel) s = Some (v :: l, rest).
Proof.
  intros H Hl.
  change (parse_elements (S fuel) s)
    with (match parse_value fuel s with
          | None => None
          | Some (v, r) =>
              match skip_ws r with
              | [] => None
              | c :: r' =>
                  if (c =? comma)%N then
                    match parse_elements fuel r' with
                    | Some (l, rest) => Some (v :: l, rest)
                    | None => None
                    end
                  else if (c =? rbracket)%N then Some ([v], r')
                  else None
              end
          end).
  rewrite H. cbn [skip_ws is_ws]. cbn -[parse_elements]. rewrite Hl. reflexivity.
Qed.

Lemma parse_members_unfold fuel k s :
  parse_members (S fuel) (quote k ++ colon :: s)
  = match parse_value fuel s with
    | None => None
    | Some (v, r3) =>
        match skip_ws r3 with
        | [] => None
        | c3 :: r4 =>
            if (c3 =? comma)%N then
              match parse_members fuel r4 with
              | Some (l, rest) => Some ((k, v) :: l, rest)
              | None => None
              end
            else if (c3 =? rbrace)%N then Some ([(k, v)], r4)
            else None
        end
    end.
Proof.
  unfold quote. cbn [app]. rewrite <- app_assoc. cbn [app].
  change (parse_members (S fuel) (dquote :: ?r))
    with (match parse_chars r with
          | None => None
          | Some (k, r1) =>
              match skip_ws r1 with
              | [] => None
              | c1 :: r2 =>
                  if (c1 =? colon)%N then
                    match parse_value fuel r2 with
                    | None => None
                    | Some (v, r3) =>
                        match skip_ws r3 with
                        | [] => None
                        | c3 :: r4 =>
                            if (c3 =? comma)%N then
                              match parse_members fuel r4 with
                              | Some (l, rest) => Some ((k, v) :: l, rest)
                              | None => None
                              end
                            else if (c3 =? rbrace)%N then Some ([(k, v)], r4)
                            else None
                        end
                    end
                  else None
              end
          end).
  rewrite parse_chars_quoted. reflexivity.
Qed.

Lemma parse_members_last fuel k s v rest :
  parse_value fuel s = Some (v, rbrace :: rest) ->
  parse_members (S fuel) (quote k ++ colon :: s) = Some ([(k, v)], rest).
Proof. intros H. rewrite parse_members_unfold, H. reflexivity. Qed.

Lemma parse_members_more fuel k s v r l rest :
  parse_value fuel s = Some (v, comma :: r) ->
  parse_members fuel r = Some (l, rest) ->
  parse_members (S fuel) (quote k ++ colon :: s) = Some ((k, v) :: l, rest).
Proof.
  intros H Hl. rewrite parse_members_unfold, H.
  cbn [skip_ws is_ws]. cbn -[parse_members]. rewrite Hl. reflexivity.
Qed.

Lemma num_start_enum c :
  is_num_start c = true -> In c [45; 48; 49; 50; 51; 52; 53; 54; 55; 56; 57]%N.
Proof.
  unfold is_num_start. intros H.
  apply orb_prop in H. destruct H as [H|H].
  - apply N.eqb_eq in H. subst. left. reflexivity.
  - apply andb_prop in H. destruct H as [H1 H2].
    apply N.leb_le in H1, H2. right.
    change (In c (List.map N.of_nat (seq 48 10))).
    apply in_map_iff. exists (N.to_nat c).
    split; [apply N2Nat.id | apply in_seq; lia].
Qed.

Lemma num_start_not_ws c :
  is_num_start c = true -> is_ws c = false /\ (c =? rbracket)%N = false.
Proof.
  intros H. apply num_start_enum in H. cbn [In] in H.
  repeat (destruct H as [<- | H]; [split; reflexivity|]). destruct H.
Qed.

(** The first character of a printed value is neither white space nor a
    closing bracket. *)
Lemma stringify_start v x :
  integral v = true ->
  exists c t, stringify v ++ x = c :: t
              /\ is_ws c = false /\ (c =? rbracket)%N = false.
Proof.
  intros Hv. destruct v as [|b|z|s|l|l|m k]; [..|discriminate Hv]; cbn [stringify].
  - do 2 eexists. repeat split; reflexivity.
  - destruct b; do 2 eexists; repeat split; reflexivity.
  - destruct (number_to_string_start z) as (c & t & -> & Hc).
    apply num_start_not_ws in Hc. destruct Hc.
    exists c, (t ++ x). repeat split; assumption.
  - do 2 eexists. repeat split; reflexivity.
  - do 2 eexists. repeat split; reflexivity.
  - do 2 eexists. repeat split; reflexivity.
Qed.

Lemma join_head sep (x : jsstring) l : exists y, join sep (x :: l) = x ++ y.
Proof.
  destruct l as [|x' l]; cbn [join].
  - exists []. rewrite app_nil_r. reflexivity.
  - eexists. reflexivity.
Qed.

(** ** Values: the induction *)

Local Abbreviation member :=
  (fun kv : jsstring * json => quote (fst kv) ++ colon :: stringify (snd kv)).

Lemma parse_elements_join l :
  Forall parses l -> l <> [] ->
  forall fuel rest,
    length (join comma (List.map stringify l)) + 2 <= fuel ->
    parse_elements fuel (join comma (List.map stringify l) ++ rbracket :: rest)
    = Some (l, rest).
Proof.
  induction 1 as [|v l Hv Hl IH]; [congruence|].
  intros _ fuel rest Hf. destruct fuel as [|fuel]; [lia|].
  destruct l as [|v' l'].
  - cbn [List.map join] in *. apply parse_elements_last.
    apply Hv; [lia | right; left; reflexivity].
  - change (join comma (List.map stringify (v :: v' :: l')))
      with (stringify v ++ comma :: join comma (List.map stringify (v' :: l'))) in *.
    rewrite <- app_assoc. cbn [app].
    rewrite length_app in Hf. cbn [length] in Hf.
    eapply parse_elements_more.
    + apply Hv; [lia | left; reflexivity].
    + apply IH; [discriminate | lia].
Qed.

Lemma parse_members_join l :
  Forall (fun kv => parses (snd kv)) l -> l <> [] ->
  forall fuel rest,
    length (join comma (List.map member l)) + 2 <= fuel ->
    parse_members fuel (join comma (List.map member l) ++ rbrace :: rest)
    = Some (l, rest).
Proof.
  induction 1 as [|[k v] l Hv Hl IH]; [congruence|].
  intros _ fuel rest Hf. destruct fuel as [|fuel]; [lia|].
  cbn [snd] in Hv.
  destruct l as [|kv' l'].
  - cbn [List.map join fst snd] in *.
    rewrite <- app_assoc. cbn [app].
    rewrite length_app in Hf. cbn [length] in Hf.
    apply parse_members_last.
    apply Hv; [lia | right; right; reflexivity].
  - change (join comma (List.map member ((k, v) :: kv' :: l')))
      with ((quote k ++ colon :: stringify v)
              ++ comma :: join comma (List.map member (kv' :: l'))) in *.
    rewrite <- !app_assoc. cbn [app].
    rewrite !length_app in Hf. cbn [length] in Hf.
    rewrite ?length_app in Hf.
    eapply parse_members_more.
    + apply Hv; [lia | left; reflexivity].
    + apply IH; [discriminate | lia].
Qed.

Lemma Forall_integral_parses l :
  Forall (fun v => integral v = true -> parses v) l ->
  forallb integral l = true -> Forall parses l.
Proof.
  induction 1 as [|v l Hv Hl IH]; intros H; [constructor|].
  cbn [forallb] in H. apply andb_prop in H. destruct H as [H1 H2].
  constructor; [apply Hv, H1 | apply IH, H2].
Qed.

Lemma Forall_integral_members l :
  Forall (fun kv : jsstring * json => integral (snd kv) = true -> parses (snd kv)) l ->
  forallb (fun kv => integral (snd kv)) l = true ->
  Forall (fun kv => parses (snd kv)) l.
Proof.
  induction 1 as [|kv l Hv Hl IH]; intros H; [constructor|].
  cbn [forallb] in H. apply andb_prop in H. destruct H as [H1 H2].
  constructor; [apply Hv, H1 | apply IH, H2].
Qed.

Lemma parse_stringify v : integral v = true -> parses v.
Proof.
  induction v as [|b|z|s|l IH|l IH|m k] using json_ind; intros Hint;
    [..|discriminate Hint];
    intros fuel rest Hf Hd; (destruct fuel as [|fuel]; [lia|]).
  - reflexivity.
  - destruct b; reflexivity.
  - cbn [stringify].
    destruct (number_to_string_start z) as (c & t & E & Hc).
    pose proof (parse_number_to_string z rest Hd) as Hp.
    rewrite E in *. cbn [app] in *.
    rewrite parse_value_number by exact Hc. exact Hp.
  - apply parse_value_string.
  - cbn [stringify] in *. destruct l as [|v l]; [reflexivity|].
    cbn [app]. rewrite <- app_assoc. cbn [app].
    destruct (join_head comma (stringify v) (List.map stringify l)) as [y Hy].
    change (join comma (List.map stringify (v :: l)) = stringify v ++ y) in Hy.
    cbn [integral] in Hint.
    pose proof (Forall_integral_parses _ IH Hint) as IH'.
    cbn [forallb] in Hint. apply andb_prop in Hint. destruct Hint as [Hv _].
    destruct (stringify_start v (y ++ rbracket :: rest) Hv) as (c & t & E & Hw & Hc).
    cbn [length] in Hf. rewrite length_app in Hf. cbn [length] in Hf.
    apply parse_value_array with (c := c) (t := t).
    + rewrite Hy, <- app_assoc, E. apply skip_ws_nonws, Hw.
    + exact Hc.
    + apply parse_elements_join; [exact IH' | discriminate | lia].
  - cbn [stringify] in *. destruct l as [|[k v] l]; [reflexivity|].
    cbn [app]. rewrite <- app_assoc. cbn [app].
    destruct (join_head comma (member (k, v)) (List.map member l)) as [y Hy].
    change (join comma (List.map member ((k, v) :: l))
            = (quote k ++ colon :: stringify v) ++ y) in Hy.
    cbn [length] in Hf. rewrite length_app in Hf. cbn [length] in Hf.
    apply parse_value_object
      with (c := dquote)
           (t := (flat_map escape_char k ++ [dquote]) ++ colon :: stringify v
                   ++ y ++ rbrace :: rest).
    + rewrite Hy. unfold quote. cbn [app].
      rewrite <- !app_assoc. cbn [app]. rewrite <- ?app_assoc. reflexivity.
    + reflexivity.
    + apply parse_members_join;
        [exact (Forall_integral_members _ IH Hint) | discriminate | lia].
Qed.

(** [JSON.parse(JSON.stringify(v))] is [v], for every value without a
    fraction. *)
Lemma JSON_parse_stringify v :
  integral v = true -> JSON_parse (stringify v) = Normal v.
Proof.
  intros Hint. unfold JSON_parse.
  rewrite <- (app_nil_r (stringify v)) at 2.
  rewrite (parse_stringify v Hint (S (length (stringify v))) []);
    [reflexivity | lia | exact I].
Qed.

End JsonRoundTrip.

(* ===================================================================== *)
(** * Persistence store: results                                          *)
(* ===================================================================== *)

Section Persistence.
Import storageUtil.

(** ** Reading back what was written *)

Lemma icon_of_json_of_icon icon : icon_of_json (json_of_icon icon) = Some icon.
Proof. destruct icon as [u n b p [e|] [en|]]; vm_compute; reflexivity. Qed.

Lemma mapM_map_Some {A B} (read : B -> option A) (write : A -> B) l :
  (forall a, read (write a) = Some a) -> mapM read (List.map write l) = Some l.
Proof.
  intros H. induction l as [|a l IH]; [reflexivity|].
  cbn. rewrite H. cbn. rewrite IH. reflexivity.
Qed.

Lemma icons_of_json_of_icons icons : icons_of_json (json_of_icons icons) = Some icons.
Proof. apply mapM_map_Some, icon_of_json_of_icon. Qed.

Lemma strings_of_json_of_strings names :
  strings_of_json (json_of_strings names) = Some names.
Proof. apply mapM_map_Some. reflexivity. Qed.

Lemma integral_json_of_icons icons : integral (json_of_icons icons) = true.
Proof.
  unfold json_of_icons. cbn [integral].
  induction icons as [|icon icons IH]; [reflexivity|].
  cbn [List.map forallb]. rewrite IH.
  destruct icon as [u n b p [e|] [en|]]; reflexivity.
Qed.

Lemma integral_json_of_strings names : integral (json_of_strings names) = true.
Proof.
  unfold json_of_strings. cbn [integral].
  induction names as [|name names IH]; [reflexivity|].
  cbn [List.map forallb integral]. exact IH.
Qed.

Lemma parse_icons_stringify icons :
  JSON_parse_as icons_of_json (stringify (json_of_icons icons)) = Normal icons.
Proof.
  unfold JSON_parse_as. rewrite JSON_parse_stringify by apply integral_json_of_icons.
  cbn [mbind completion_bind cbind].
  rewrite icons_of_json_of_icons. reflexivity.
Qed.

Lemma parse_strings_stringify names :
  JSON_parse_as strings_of_json (stringify (json_of_strings names)) = Normal names.
Proof.
  unfold JSON_parse_as. rewrite JSON_parse_stringify by apply integral_json_of_strings.
  cbn [mbind completion_bind cbind].
  rewrite strings_of_json_of_strings. reflexivity.
Qed.

(** The text of an array is never the empty string, so it is truthy. *)
Lemma stringify_array_truthy l : exists t, stringify (JArr l) = lbracket :: t.
Proof. eexists. reflexivity. Qed.

Lemma getSafeStorageKey_normal filename :
  exists key, getSafeStorageKey filename = Normal key.
Proof.
  destruct (key_of_safe_name storageFontDatasKey _
              (substitute_safe (or_else (pop (split slash filename)) filename)))
    as (key & Hk & _).
  exists key. exact Hk.
Qed.

(** ** getFontData *)

Lemma getFontData_unfold filename key st :
  getSafeStorageKey filename = Normal key ->
  getFontData filename st
  = match items st !! key with
    | Some (c :: s) =>
        match JSON_parse_as icons_of_json (c :: s) with
        | Normal icons => (Normal icons, st)
        | Throw _ => (Normal [], st)
        end
    | _ => (Normal [], st)
    end.
Proof.
  intros Hk. unfold getFontData, try_catch, mbind, JS_bind, lift, getItem.
  rewrite Hk. destruct (items st !! key) as [[|c s]|]; reflexivity.
Qed.

Lemma getFontData_total filename st :
  exists icons, getFontData filename st = (Normal icons, st).
Proof.
  destruct (getSafeStorageKey_normal filename) as [key Hk].
  rewrite (getFontData_unfold _ _ _ Hk).
  destruct (items st !! key) as [[|c s]|]; try (eexists; reflexivity).
  destruct (JSON_parse_as icons_of_json (c :: s)); eexists; reflexivity.
Qed.

Lemma JSON_parse_as_syntax_error {A} (read : json -> option A) text :
  JSON_parse text = Throw SyntaxError -> JSON_parse_as read text = Throw SyntaxError.
Proof. intros H. unfold JSON_parse_as. rewrite H. reflexivity. Qed.

Lemma saveFontData_inv filename icons st st' key :
  getSafeStorageKey filename = Normal key ->
  saveFontData filename icons st = (Normal tt, st') ->
  items st' !! key = Some (stringify (json_of_icons icons)).
Proof.
  intros Hk. unfold saveFontData, mbind, JS_bind, lift, setItem. rewrite Hk.
  destruct (used _ <=? quota st); [|discriminate].
  intros [= <-]. cbn. apply lookup_insert_eq.
Qed.

End Persistence.



(** C2. If [saveFontData filename records] completed normally and the item
    under the derived key has not been written since, [getFontData
    filename] returns exactly [records]: the same records in the same
    order, every field equal, after the trip through [JSON.stringify] and
    [JSON.parse]. *)
Theorem save_then_load_round_trip
    (filename key : jsstring) (records : list IconProps) (st st' st'' : Storage) :
  storageUtil.getSafeStorageKey filename = Normal key ->
  saveFontData filename records st = (Normal tt, st') ->
  items st'' !! key = items st' !! key ->
  getFontData filename st'' = (Normal records, st'').
Proof.
  intros Hk Hsave Hsame.
  rewrite (getFontData_unfold _ _ _ Hk), Hsame.
  rewrite (saveFontData_inv _ _ _ _ _ Hk Hsave).
  destruct (stringify_array_truthy (List.map json_of_icon records)) as [t Ht].
  pose proof (parse_icons_stringify records) as Hp.
  unfold json_of_icons in *. rewrite Ht in *. rewrite Hp. reflexivity.
Qed.

Lemma save_then_load_round_trip_witness :
  let records :=
    [mkIcon 65 (lit "A") (lit "0 0 10 10") (lit "<path d='M0 0'/>")
       (Some false) (Some (lit "A"));
     mkIcon 66 (lit "B") (lit "0 -5 7 12") (lit "<path/>") None None] in
  let st := mkStorage ∅ 1000 in
  let st' := run (saveFontData (lit "a.ttf") records) st in
  let st'' := run (saveFileNameData (lit "a.ttf")) st' in
  storageUtil.getSafeStorageKey (lit "a.ttf") = Normal (lit "font-icons-a.ttf")
  /\ saveFontData (lit "a.ttf") records st = (Normal tt, st')
  /\ items st'' !! lit "font-icons-a.ttf" = items st' !! lit "font-icons-a.ttf"
  /\ getFontData (lit "a.ttf") st'' = (Normal records, st'').
Proof.
  intros records st st' st''.
  assert (Hk : storageUtil.getSafeStorageKey (lit "a.ttf")
               = Normal (lit "font-icons-a.ttf")) by reflexivity.
  assert (Hs : saveFontData (lit "a.ttf") records st = (Normal tt, st'))
    by (vm_compute; reflexivity).
  assert (Hi : items st'' !! lit "font-icons-a.ttf"
               = items st' !! lit "font-icons-a.ttf")
    by (vm_compute; reflexivity).
  split; [exact Hk|]. split; [exact Hs|]. split; [exact Hi|].
  exact (save_then_load_round_trip (lit "a.ttf") (lit "font-icons-a.ttf")
           records st st' st'' Hk Hs Hi).
Defined.

(* ===================================================================== *)
(** * The filename registry                                               *)
(* ===================================================================== *)

Section Registry.
Import storageUtil.

Lemma getSavedFileNameData_eq st :
  getSavedFileNameData st = (Normal (registry st), st).
Proof.
  unfold registry, getSavedFileNameData, try_catch, mbind, JS_bind, lift, getItem.
  destruct (items st !! storageFileNames) as [[|c s]|]; try reflexivity.
  destruct (JSON_parse_as strings_of_json (c :: s)); reflexivity.
Qed.

Lemma registry_absent st :
  items st !! storageFileNames = None -> registry st = [].
Proof.
  intros H. unfold registry, getSavedFileNameData, try_catch, mbind, JS_bind,
    lift, getItem. rewrite H. reflexivity.
Qed.

Lemma registry_stored st names :
  items st !! storageFileNames = Some (stringify (json_of_strings names)) ->
  registry st = names.
Proof.
  intros H. unfold registry, getSavedFileNameData, try_catch, mbind, JS_bind,
    lift, getItem. rewrite H.
  pose proof (parse_strings_stringify names) as Hp.
  destruct (stringify_array_truthy (List.map JStr names)) as [t Ht].
  unfold json_of_strings in *. rewrite Ht in *. rewrite Hp. reflexivity.
Qed.

Lemma registry_ok_NoDup st : registry_ok st -> NoDup (registry st).
Proof.
  intros [H | (names & Hnd & H)].
  - rewrite (registry_absent _ H). constructor.
  - rewrite (registry_stored _ _ H). exact Hnd.
Qed.

Lemma saveFileNameData_eq filename st :
  saveFileNameData filename st
  = if bool_decide (filename ∈ registry st) then (Normal tt, st)
    else setItem storageFileNames
           (stringify (json_of_strings (registry st ++ [filename]))) st.
Proof.
  unfold saveFileNameData, mbind at 1, JS_bind.
  rewrite getSavedFileNameData_eq.
  destruct (bool_decide (filename ∈ registry st)); reflexivity.
Qed.

(** Adding a name that is already registered writes nothing. *)
Lemma saveFileNameData_present filename st :
  filename ∈ registry st -> saveFileNameData filename st = (Normal tt, st).
Proof.
  intros H. rewrite saveFileNameData_eq, bool_decide_eq_true_2 by exact H.
  reflexivity.
Qed.

Lemma setItem_registry_ok names st :
  NoDup names -> registry_ok st ->
  registry_ok (run (setItem storageFileNames (stringify (json_of_strings names))) st).
Proof.
  intros Hnd Hok. unfold run, setItem.
  destruct (used _ <=? quota st); cbn [snd]; [|exact Hok].
  right. exists names. split; [exact Hnd|]. cbn [items]. apply lookup_insert_eq.
Qed.

Lemma saveFileNameData_ok filename st :
  registry_ok st -> registry_ok (run (saveFileNameData filename) st).
Proof.
  intros Hok. unfold run at 1. rewrite saveFileNameData_eq.
  destruct (bool_decide (filename ∈ registry st)) eqn:E; [exact Hok|].
  apply bool_decide_eq_false_1 in E.
  apply (setItem_registry_ok (registry st ++ [filename]) st); [|exact Hok].
  apply NoDup_app. split; [apply registry_ok_NoDup, Hok|].
  split; [|apply NoDup_singleton].
  intros x Hx Hx'. apply list_elem_of_singleton in Hx'. subst. contradiction.
Qed.

Lemma removeItem_registry_ok key st :
  registry_ok st -> registry_ok (run (removeItem key) st).
Proof.
  intros Hok. unfold run, removeItem. cbn [snd].
  destruct (decide (key = storageFileNames)) as [-> | Hne].
  - left. cbn [items]. apply lookup_delete_eq.
  - destruct Hok as [H | (names & Hnd & H)]; [left | right; exists names; split; [exact Hnd|]];
      cbn [items]; rewrite lookup_delete_ne by exact Hne; exact H.
Qed.

Lemma deleteStorageData_eq filename key st :
  getSafeStorageKey filename = Normal key ->
  deleteStorageData filename st
  = let st1 := run (removeItem key) st in
    match indexOf filename (registry st1) with
    | Some index =>
        setItem storageFileNames
          (stringify (json_of_strings (delete index (registry st1)))) st1
    | None => (Normal tt, st1)
    end.
Proof.
  intros Hk. unfold deleteStorageData, mbind at 1, JS_bind, lift. rewrite Hk.
  unfold mbind at 1, JS_bind. unfold removeItem at 1, run. cbn [snd].
  unfold mbind, JS_bind. rewrite getSavedFileNameData_eq.
  destruct (indexOf filename _); reflexivity.
Qed.

Lemma NoDup_delete (l : list jsstring) i : NoDup l -> NoDup (delete i l).
Proof. intros H. exact (sublist_NoDup _ _ H (sublist_delete l i)). Qed.

Lemma deleteStorageData_ok filename st :
  registry_ok st -> registry_ok (run (deleteStorageData filename) st).
Proof.
  intros Hok. destruct (getSafeStorageKey_normal filename) as [key Hk].
  unfold run at 1. rewrite (deleteStorageData_eq _ _ _ Hk). cbv zeta.
  pose proof (removeItem_registry_ok key st Hok) as Hok1.
  destruct (indexOf filename (registry (run (removeItem key) st))) as [i|];
    [|exact Hok1].
  apply (setItem_registry_ok _ _ (NoDup_delete _ i (registry_ok_NoDup _ Hok1)) Hok1).
Qed.

(** After any sequence of registry operations from a store without a
    registry, the registry holds no name twice. *)
Lemma registry_steps_ok ops st :
  registry_ok st -> registry_ok (foldl registry_step st ops).
Proof.
  revert st. induction ops as [|op ops IH]; intros st Hok; [exact Hok|].
  cbn [foldl]. apply IH. destruct op; cbn [registry_step].
  - apply saveFileNameData_ok, Hok.
  - apply deleteStorageData_ok, Hok.
Qed.

Lemma registry_NoDup_after ops st :
  items st !! storageFileNames = None ->
  NoDup (registry (foldl registry_step st ops)).
Proof. intros H. apply registry_ok_NoDup, registry_steps_ok. left. exact H. Qed.

Lemma indexOf_absent x l : x ∉ l -> indexOf x l = None.
Proof.
  induction l as [|y l IH]; [reflexivity|]. intros H.
  apply not_elem_of_cons in H. destruct H as [Hne Hl].
  cbn [indexOf]. rewrite bool_decide_eq_false_2 by congruence.
  rewrite (IH Hl). reflexivity.
Qed.

(** Removing a name that is not registered leaves the registry as it is,
    provided the name's own item is not the registry slot. *)
Lemma deleteStorageData_absent filename key st :
  getSafeStorageKey filename = Normal key ->
  key <> storageFileNames ->
  filename ∉ registry st ->
  registry (run (deleteStorageData filename) st) = registry st.
Proof.
  intros Hk Hne Habs.
  assert (Hreg : registry (run (removeItem key) st) = registry st).
  { unfold registry, getSavedFileNameData, try_catch, mbind, JS_bind, lift,
      getItem, run, removeItem. cbn [snd items].
    rewrite lookup_delete_ne by exact Hne.
    destruct (items st !! storageFileNames) as [[|c s]|]; try reflexivity.
    destruct (JSON_parse_as strings_of_json (c :: s)); reflexivity. }
  unfold run at 1. rewrite (deleteStorageData_eq _ _ _ Hk). cbv zeta.
  rewrite Hreg, (indexOf_absent _ _ Habs). cbn [snd]. exact Hreg.
Qed.

End Registry.

(** C7. The registry stays free of duplicates and a repeated add writes
    nothing (lemmas [registry_NoDup_after] and [saveFileNameData_present]),
    but removing an absent name is not always a no-op on the registry.  The
    registry slot ["font-icons-saved-file-names"] lies in the namespace of
    the derived keys: it is the derived key of the filename
    ["saved-file-names"].  With ["a.ttf"] registered,
    [deleteStorageData "saved-file-names"] - a name the registry does not
    hold - removes the registry item itself and leaves the registry
    empty. *)
Theorem deleteStorageData_absent_name_wipes_registry :
  let st1 := run (saveFileNameData (lit "a.ttf")) (mkStorage ∅ 1000) in
  let st2 := run (deleteStorageData (lit "saved-file-names")) st1 in
  registry st1 = [lit "a.ttf"]
  /\ (lit "saved-file-names" ∉ registry st1)
  /\ storageUtil.getSafeStorageKey (lit "saved-file-names")
     = Normal storageUtil.storageFileNames
  /\ registry st2 = []
  /\ registry st2 <> registry st1.
Proof.
  intros st1 st2.
  assert (H1 : registry st1 = [lit "a.ttf"]) by (vm_compute; reflexivity).
  assert (H2 : registry st2 = []) by (vm_compute; reflexivity).
  split; [exact H1|]. split.
  { rewrite H1. intros H. apply list_elem_of_singleton in H. discriminate H. }
  split; [reflexivity|]. split; [exact H2|].
  rewrite H1, H2. discriminate.
Qed.

(* ===================================================================== *)
(** * Icon list controller: search                                        *)
(* ===================================================================== *)

Section Search.

Lemma visible_filter_refs keep (before icons : list IconProps) :
  omap (fun ref => (before ++ icons) !! ref) (filter_refs keep (length before) icons)
  = List.filter keep icons.
Proof.
  revert before. induction icons as [|icon icons IH]; intros before; [reflexivity|].
  cbn [filter_refs List.filter].
  assert (Hshift : omap (fun ref => (before ++ icon :: icons) !! ref)
                     (filter_refs keep (S (length before)) icons)
                   = List.filter keep icons).
  { specialize (IH (before ++ [icon])).
    rewrite <- app_assoc, length_app in IH. cbn [app length] in IH.
    rewrite Nat.add_1_r in IH. exact IH. }
  destruct (keep icon); [|exact Hshift].
  cbn [omap list_omap]. rewrite list_lookup_middle by reflexivity.
  f_equal. exact Hshift.
Qed.

Lemma filter_refs_all keep first icons :
  (forall icon, icon ∈ icons -> keep icon = true) ->
  filter_refs keep first icons = seq first (length icons).
Proof.
  revert first. induction icons as [|icon icons IH]; intros first H; [reflexivity|].
  cbn [filter_refs length seq]. rewrite (H icon) by (left).
  f_equal. apply IH. intros x Hx. apply H. right. exact Hx.
Qed.

Lemma filter_all {A} (keep : A -> bool) l :
  (forall a, a ∈ l -> keep a = true) -> List.filter keep l = l.
Proof.
  induction l as [|a l IH]; intros H; [reflexivity|].
  cbn [List.filter]. rewrite (H a) by (left).
  f_equal. apply IH. intros x Hx. apply H. right. exact Hx.
Qed.

Lemma visible_every icons st : visible (set_both icons st) = icons.
Proof.
  unfold visible, set_both, every. cbn [allIconList iconList].
  rewrite <- (filter_refs_all (fun _ => true) 0 icons) by reflexivity.
  pose proof (visible_filter_refs (fun _ => true) [] icons) as H.
  cbn [app length] in H. rewrite H. apply filter_all. reflexivity.
Qed.

(** ** [includes] is the substring relation *)

Lemma starts_with_spec t s : starts_with t s = true <-> exists b, s = t ++ b.
Proof.
  revert s. induction t as [|a t IH]; intros s; cbn [starts_with].
  - split; [intros _; exists s; reflexivity | reflexivity].
  - destruct s as [|c s].
    + split; [discriminate | intros [b Hb]; discriminate Hb].
    + rewrite andb_true_iff, N.eqb_eq, IH. split.
      * intros [-> [b ->]]. exists b. reflexivity.
      * intros [b Hb]. injection Hb as -> ->. split; [reflexivity | exists b; reflexivity].
Qed.

Lemma includes_spec s t : includes s t = true <-> exists a b, s = a ++ t ++ b.
Proof.
  induction s as [|c s IH]; cbn [includes]; rewrite orb_true_iff, starts_with_spec.
  - split.
    + intros [[b Hb] | H]; [exists [], b; exact Hb | discriminate H].
    + intros (a & b & H). left. destruct a as [|x a]; [|discriminate H].
      exists b. exact H.
  - rewrite IH. split.
    + intros [[b Hb] | (a & b & ->)]; [exists [], b; exact Hb|].
      exists (c :: a), b. reflexivity.
    + intros (a & b & H). destruct a as [|x a].
      * left. exists b. exact H.
      * right. injection H as -> ->. exists a, b. reflexivity.
Qed.

Lemma includes_empty s : includes s [] = true.
Proof. apply includes_spec. exists [], s. reflexivity. Qed.

Variable toLowerCase : jsstring -> jsstring.

Lemma visible_handleSearch text st :
  visible (handleSearch toLowerCase text st)
  = List.filter (matches toLowerCase text) (allIconList st).
Proof. apply (visible_filter_refs (matches toLowerCase text) [] (allIconList st)). Qed.

Lemma filter_sublist {A} (keep : A -> bool) l : sublist (List.filter keep l) l.
Proof.
  induction l as [|a l IH]; [constructor|].
  cbn [List.filter]. destruct (keep a); constructor; exact IH.
Qed.

End Search.

(** C6. [handleSearch] leaves the canonical collection as it is; the
    filtered view it produces is the canonical collection filtered, in
    order, by the test "the lower-cased name includes the lower-cased
    text" - a subsequence holding exactly the records whose lower-cased
    name has the lower-cased text as a substring; searching again for the
    same text changes nothing; and the empty text yields the whole
    canonical collection in its order.  ([toLowerCase] is the platform's;
    all that is used of it is that it maps the empty string to itself.) *)
Theorem handleSearch_filtered_view
    (toLowerCase : jsstring -> jsstring) (text : jsstring) (st : ListState) :
  toLowerCase [] = [] ->
  let st' := handleSearch toLowerCase text st in
  allIconList st' = allIconList st
  /\ visible st' = List.filter (matches toLowerCase text) (allIconList st)
  /\ sublist (visible st') (allIconList st)
  /\ (forall icon,
        icon ∈ visible st' <->
        icon ∈ allIconList st
        /\ exists a b, toLowerCase (iconName icon) = a ++ toLowerCase text ++ b)
  /\ handleSearch toLowerCase text st' = st'
  /\ visible (handleSearch toLowerCase [] st) = allIconList st.
Proof.
  intros Hempty st'. subst st'.
  split; [reflexivity|].
  split; [apply visible_handleSearch|].
  split; [rewrite visible_handleSearch; apply filter_sublist|].
  split.
  { intros icon. rewrite visible_handleSearch, !list_elem_of_In, filter_In.
    unfold matches. rewrite includes_spec. reflexivity. }
  split; [reflexivity|].
  rewrite visible_handleSearch. apply filter_all. intros icon _.
  unfold matches. rewrite Hempty. apply includes_empty.
Qed.

Lemma handleSearch_filtered_view_witness :
  let A := mkIcon 65 (lit "A") (lit "0 0 10 10") (lit "<path/>") (Some false) (Some (lit "A")) in
  let B := mkIcon 66 (lit "B") (lit "0 0 10 10") (lit "<path/>") (Some false) (Some (lit "B")) in
  let st := set_both [A; B] (mkList [] [] false []) in
  ascii_toLowerCase [] = []
  /\ visible (handleSearch ascii_toLowerCase (lit "a") st) = [A]
  /\ visible (handleSearch ascii_toLowerCase [] st) = [A; B].
Proof.
  intros A B st.
  pose proof (handleSearch_filtered_view ascii_toLowerCase (lit "a") st eq_refl) as H.
  cbv zeta in H. destruct H as (_ & Hview & _ & _ & _ & Hall).
  split; [reflexivity|]. split; [|exact Hall].
  rewrite Hview. reflexivity.
Defined.

(* ===================================================================== *)
(** * Icon list controller: inline editing                                *)
(* ===================================================================== *)

Section Editing.

Lemma stop_editing_closed icon : editing (stop_editing icon) = false.
Proof. reflexivity. Qed.

Lemma begin_editing_open icon : editing (begin_editing icon) = true.
Proof. reflexivity. Qed.

(** What the [forEach] over the filtered view leaves in the canonical
    collection. *)
Lemma closed_lookup refs (icons : list IconProps) i :
  foldl (fun icons item => alter stop_editing item icons) icons refs !! i
  = (if bool_decide (i ∈ refs) then stop_editing else id) <$> (icons !! i).
Proof.
  revert icons. induction refs as [|r refs IH]; intros icons; cbn [foldl].
  - destruct (icons !! i); reflexivity.
  - rewrite IH. destruct (decide (i = r)) as [-> | Hne].
    + rewrite list_lookup_alter_eq.
      rewrite (bool_decide_eq_true_2 (r ∈ r :: refs)) by (left).
      destruct (icons !! r) as [x|]; [|reflexivity]. cbn.
      destruct (bool_decide (r ∈ refs)); reflexivity.
    + rewrite list_lookup_alter_ne by congruence.
      destruct (bool_decide (i ∈ refs)) eqn:E.
      * apply bool_decide_eq_true_1 in E.
        rewrite (bool_decide_eq_true_2 (i ∈ r :: refs)) by (right; exact E).
        reflexivity.
      * apply bool_decide_eq_false_1 in E.
        rewrite (bool_decide_eq_false_2 (i ∈ r :: refs)); [reflexivity|].
        intros H. apply elem_of_cons in H. destruct H; [congruence | contradiction].
Qed.

Lemma startEditing_lookup icon st i :
  allIconList (startEditing icon st) !! i
  = (if bool_decide (i = icon) then begin_editing else id)
      <$> ((if bool_decide (i ∈ iconList st) then stop_editing else id)
             <$> (allIconList st !! i)).
Proof.
  unfold startEditing, with_icons. cbn [allIconList].
  destruct (decide (i = icon)) as [-> | Hne].
  - rewrite list_lookup_alter_eq, closed_lookup.
    rewrite (bool_decide_eq_true_2 (icon = icon)) by reflexivity.
    reflexivity.
  - rewrite list_lookup_alter_ne, closed_lookup, (bool_decide_eq_false_2 (i = icon))
      by congruence.
    destruct (allIconList st !! i); [|reflexivity]. cbn.
    destruct (bool_decide (i ∈ iconList st)); reflexivity.
Qed.

Lemma startEditing_iconList icon st : iconList (startEditing icon st) = iconList st.
Proof. reflexivity. Qed.

(** The target record is open after [startEditing]. *)
Lemma startEditing_target icon st a :
  allIconList st !! icon = Some a ->
  exists a', allIconList (startEditing icon st) !! icon = Some a'
             /\ editing a' = true /\ editingName a' = Some (iconName a).
Proof.
  intros H. rewrite startEditing_lookup, H.
  rewrite (bool_decide_eq_true_2 (icon = icon)) by reflexivity.
  cbn. eexists. split; [reflexivity|].
  destruct (bool_decide (icon ∈ iconList st)); split; reflexivity.
Qed.

(** Every other record of the filtered view is closed. *)
Lemma startEditing_closes_visible icon st i a' :
  i <> icon -> i ∈ iconList st ->
  allIconList (startEditing icon st) !! i = Some a' -> editing a' = false.
Proof.
  intros Hne Hin. rewrite startEditing_lookup.
  rewrite (bool_decide_eq_false_2 (i = icon)), (bool_decide_eq_true_2 (i ∈ iconList st))
    by assumption.
  destruct (allIconList st !! i); cbn; [|discriminate].
  intros [= <-]. reflexivity.
Qed.

(** A record outside the filtered view keeps its state. *)
Lemma startEditing_skips_hidden icon st i :
  i <> icon -> i ∉ iconList st ->
  allIconList (startEditing icon st) !! i = allIconList st !! i.
Proof.
  intros Hne Hout. rewrite startEditing_lookup.
  rewrite (bool_decide_eq_false_2 (i = icon)), (bool_decide_eq_false_2 (i ∈ iconList st))
    by assumption.
  destruct (allIconList st !! i); reflexivity.
Qed.

(** When no open edit is hidden by the filter, [startEditing] leaves the
    target as the only open record. *)
Lemma startEditing_only_target icon st i a' :
  open_edits_visible st ->
  allIconList (startEditing icon st) !! i = Some a' -> editing a' = true ->
  i = icon.
Proof.
  intros Hvis Hi He. destruct (decide (i = icon)) as [|Hne]; [assumption|].
  exfalso. destruct (decide (i ∈ iconList st)) as [Hin | Hout].
  - rewrite (startEditing_closes_visible icon st i a' Hne Hin Hi) in He. discriminate.
  - rewrite (startEditing_skips_hidden icon st i Hne Hout) in Hi.
    apply Hout. exact (Hvis i a' Hi He).
Qed.

Lemma startEditing_at_most_one icon st :
  open_edits_visible st -> at_most_one_open (startEditing icon st).
Proof.
  intros Hvis i j a b Hi Hj Ha Hb.
  rewrite (startEditing_only_target icon st i a Hvis Hi Ha).
  rewrite (startEditing_only_target icon st j b Hvis Hj Hb). reflexivity.
Qed.

Lemma startEditing_keeps_visible icon st :
  icon ∈ iconList st -> open_edits_visible st ->
  open_edits_visible (startEditing icon st).
Proof.
  intros Hin Hvis i a Hi Ha. rewrite startEditing_iconList.
  rewrite (startEditing_only_target icon st i a Hvis Hi Ha). exact Hin.
Qed.

(** Without a search in between, any run of [startEditing] on records of
    the view keeps at most one record open. *)
Lemma startEditing_run_at_most_one targets icon st :
  open_edits_visible st ->
  Forall (fun t => t ∈ iconList st) targets ->
  at_most_one_open (startEditing icon (foldl (fun s t => startEditing t s) st targets)).
Proof.
  intros Hvis Hall. apply startEditing_at_most_one.
  revert st Hvis Hall. induction targets as [|t targets IH]; intros st Hvis Hall;
    [exact Hvis|].
  inversion Hall as [|? ? Ht Hrest]; subst. cbn [foldl]. apply IH.
  - apply startEditing_keeps_visible; assumption.
  - rewrite startEditing_iconList. exact Hrest.
Qed.

(** [beginEdit(recordA)] then [beginEdit(recordB)], both in the view. *)
Lemma startEditing_twice recordA recordB st a b :
  recordA <> recordB ->
  recordA ∈ iconList st -> 
  allIconList st !! recordA = Some a -> allIconList st !! recordB = Some b ->
  exists a' b',
    allIconList (startEditing recordB (startEditing recordA st)) !! recordA = Some a'
    /\ allIconList (startEditing recordB (startEditing recordA st)) !! recordB = Some b'
    /\ editing a' = false /\ editing b' = true.
Proof.
  intros Hne HinA Ha Hb.
  destruct (startEditing_target recordA st a Ha) as (a1 & Ha1 & _).
  assert (Hb1 : exists b1, allIconList (startEditing recordA st) !! recordB = Some b1).
  { rewrite startEditing_lookup, Hb. cbn. eexists. reflexivity. }
  destruct Hb1 as [b1 Hb1].
  destruct (startEditing_target recordB _ b1 Hb1) as (b' & Hb' & Eb & _).
  assert (Ha' : exists a', allIconList (startEditing recordB (startEditing recordA st))
                             !! recordA = Some a').
  { rewrite startEditing_lookup, Ha1. cbn. eexists. reflexivity. }
  destruct Ha' as [a' Ha'].
  exists a', b'. split; [exact Ha'|]. split; [exact Hb'|]. split; [|exact Eb].
  apply (startEditing_closes_visible recordB (startEditing recordA st) recordA a');
    [exact Hne | rewrite startEditing_iconList; exact HinA | exact Ha'].
Qed.

(** Committing, cancelling and searching do not open a record. *)
Lemma finishEditing_at_most_one icon st :
  at_most_one_open st -> at_most_one_open (finishEditing icon st).
Proof.
  intros H i j a b Hi Hj Ha Hb. unfold finishEditing, with_icons in Hi, Hj.
  cbn [allIconList] in Hi, Hj.
  destruct (decide (i = icon)) as [-> | Hi'].
  { rewrite list_lookup_alter_eq in Hi.
    destruct (allIconList st !! icon); [|discriminate].
    injection Hi as <-. discriminate Ha. }
  destruct (decide (j = icon)) as [-> | Hj'].
  { rewrite list_lookup_alter_eq in Hj.
    destruct (allIconList st !! icon); [|discriminate].
    injection Hj as <-. discriminate Hb. }
  rewrite list_lookup_alter_ne in Hi, Hj by congruence.
  exact (H i j a b Hi Hj Ha Hb).
Qed.

Lemma cancelEditing_at_most_one icon st :
  at_most_one_open st -> at_most_one_open (cancelEditing icon st).
Proof.
  intros H i j a b Hi Hj Ha Hb. unfold cancelEditing, with_icons in Hi, Hj.
  cbn [allIconList] in Hi, Hj.
  destruct (decide (i = icon)) as [-> | Hi'].
  { rewrite list_lookup_alter_eq in Hi.
    destruct (allIconList st !! icon); [|discriminate].
    injection Hi as <-. discriminate Ha. }
  destruct (decide (j = icon)) as [-> | Hj'].
  { rewrite list_lookup_alter_eq in Hj.
    destruct (allIconList st !! icon); [|discriminate].
    injection Hj as <-. discriminate Hb. }
  rewrite list_lookup_alter_ne in Hi, Hj by congruence.
  exact (H i j a b Hi Hj Ha Hb).
Qed.

Lemma handleSearch_at_most_one toLowerCase text st :
  at_most_one_open st -> at_most_one_open (handleSearch toLowerCase text st).
Proof. intros H. exact H. Qed.

End Editing.

(** C1. [startEditing] closes the open edits of the filtered view only, so
    the invariant of the claim is broken by a search between two edits:
    with records A and B, [startEditing A], then [handleSearch "b"] (the
    view is now B alone), then [startEditing B] leaves both A and B with
    [isEditing = true] in the canonical collection - and both in the view
    once the search text is cleared.  (Without a search in between the
    invariant holds: [startEditing_run_at_most_one], [startEditing_twice].) *)
Theorem startEditing_after_search_two_open :
  let A := mkIcon 65 (lit "A") (lit "0 0 10 10") (lit "<path/>") (Some false) (Some (lit "A")) in
  let B := mkIcon 66 (lit "B") (lit "0 0 10 10") (lit "<path/>") (Some false) (Some (lit "B")) in
  let st0 := set_both [A; B] (mkList [] [] false []) in
  let st1 := startEditing 0 st0 in
  let st2 := handleSearch ascii_toLowerCase (lit "b") st1 in
  let st3 := startEditing 1 st2 in
  let st4 := handleSearch ascii_toLowerCase [] st3 in
  editing <$> allIconList st1 = [true; false]
  /\ iconList st2 = [1]
  /\ editing <$> allIconList st3 = [true; true]
  /\ open_edits st3 = 2
  /\ editing <$> visible st4 = [true; true]
  /\ ~ at_most_one_open st3.
Proof.
  intros A B st0 st1 st2 st3 st4.
  repeat (split; [vm_compute; reflexivity|]).
  intros H.
  specialize (H 0 1 (begin_editing A) (begin_editing B) eq_refl eq_refl eq_refl eq_refl).
  discriminate H.
Qed.

(* ===================================================================== *)
(** * Icon list controller: loading                                       *)
(* ===================================================================== *)

Section Loading.

Lemma loadSavedIconData_eq props st storage :
  loadSavedIconData props st storage
  = (Normal match saved_icons props storage with
            | [] => (false, st)
            | icon :: icons => (true, set_both (icon :: icons) st)
            end,
     storage).
Proof.
  unfold loadSavedIconData, saved_icons.
  destruct (filename props) as [[|c s]|]; try reflexivity.
  unfold try_catch, mbind, JS_bind.
  destruct (getFontData_total (c :: s) storage) as [icons ->].
  destruct icons; reflexivity.
Qed.

Lemma watchEffect_eq props st storage :
  watchEffect props st storage
  = (Normal match saved_icons props storage with
            | icon :: icons => set_both (icon :: icons) st
            | [] =>
                match font props with
                | Some f => set_both (generatorIconList f) st
                | None => set_both [] st
                end
            end,
     storage).
Proof.
  unfold watchEffect, mbind, JS_bind. rewrite loadSavedIconData_eq.
  destruct (saved_icons props storage); [|reflexivity].
  destruct (font props); reflexivity.
Qed.



End Loading.



(* ===================================================================== *)
(** * Batch PNG export: results                                           *)
(* ===================================================================== *)

Section ZipFacts.

Lemma lastIndexOf_slash_none (path : jsstring) :
  (slash ∉ path) -> lastIndexOf_slash path = None.
Proof.
  induction path as [|c r IH]; intros H; [reflexivity|].
  apply not_elem_of_cons in H. destruct H as [Hc Hr].
  cbn [lastIndexOf_slash]. rewrite (IH Hr).
  rewrite (proj2 (N.eqb_neq c slash)) by congruence. reflexivity.
Qed.

Lemma last_elem_of (path : jsstring) (c : N) : last path = Some c -> c ∈ path.
Proof.
  induction path as [|d r IH]; [discriminate|].
  destruct r as [|e r'].
  - intros [= ->]. left.
  - intros H. right. apply IH. exact H.
Qed.

(** A name without a slash gets no folder entry. *)
Lemma zip_folders_flat (name : jsstring) : (slash ∉ name) -> zip_folders name = [].
Proof.
  intros H. unfold zip_folders. destruct (length name); [reflexivity|].
  cbn [folders_above]. unfold parentFolder.
  replace (ends_with_slash name) with false.
  - rewrite (lastIndexOf_slash_none _ H). reflexivity.
  - unfold ends_with_slash. destruct (last name) as [c|] eqn:E; [|reflexivity].
    symmetry. apply N.eqb_neq. intros ->. apply H, last_elem_of, E.
Qed.

Lemma zip_files_flat (zip : Zip) :
  (forall name, name ∈ dom zip -> slash ∉ name) -> zip_files zip = dom zip.
Proof.
  intros H. unfold zip_files. apply set_eq. intros x.
  rewrite elem_of_union, elem_of_set_bind. split; [|auto].
  intros [Hx | (name & Hname & Hx)]; [exact Hx|].
  rewrite (zip_folders_flat name (H name Hname)) in Hx.
  rewrite list_to_set_nil in Hx. apply not_elem_of_empty in Hx. destruct Hx.
Qed.

(** [zip.files] has no key exactly when there is no file entry. *)
Lemma zip_files_empty_iff (zip : Zip) : size (zip_files zip) = 0 <-> size zip = 0.
Proof.
  rewrite <- (size_dom zip), !size_empty_iff, !elem_of_equiv_empty.
  unfold zip_files. split.
  - intros H x Hx. apply (H x), elem_of_union. left. exact Hx.
  - intros H x Hx. apply elem_of_union in Hx. destruct Hx as [Hx | Hx].
    + exact (H x Hx).
    + apply elem_of_set_bind in Hx. destruct Hx as (name & Hname & _).
      exact (H name Hname).
Qed.

End ZipFacts.

Section PngExportFacts.

Variable svgToPng : IconProps -> completion Blob.
Variable generateAsync : Zip -> completion Blob.

Local Abbreviation archive icons settled :=
  (foldl (convert_into svgToPng icons) (∅ : Zip) settled).

(** The archive holds one file entry per distinct name among the
    conversions that succeeded. *)
Lemma dom_convert_into (icons : list IconProps) (settled : list nat) (zip : Zip) :
  dom (foldl (convert_into svgToPng icons) zip settled)
  = dom zip ∪ list_to_set (omap (added_entry svgToPng icons) settled).
Proof.
  revert zip. induction settled as [|ref settled IH]; intros zip; cbn [foldl omap list_omap].
  - rewrite list_to_set_nil, (right_id_L ∅ (∪)). reflexivity.
  - rewrite IH. unfold convert_into, added_entry, converts.
    destruct (icons !! ref) as [icon|]; cbn [mbind option_bind]; [|reflexivity].
    destruct (svgToPng icon) as [blob|e]; [|reflexivity].
    rewrite dom_insert_L, list_to_set_cons.
    rewrite (comm_L (∪) {[ png_entry_name icon ]} (dom zip)).
    rewrite (assoc_L (∪) (dom zip)). reflexivity.
Qed.

Lemma added_entries_in_order (before icons : list IconProps) :
  omap (added_entry svgToPng (before ++ icons)) (seq (length before) (length icons))
  = png_entry_name <$> List.filter (converts svgToPng) icons.
Proof.
  revert before. induction icons as [|icon icons IH]; intros before; [reflexivity|].
  cbn [length seq omap list_omap List.filter].
  assert (Hrest : omap (added_entry svgToPng (before ++ icon :: icons))
                    (seq (S (length before)) (length icons))
                  = png_entry_name <$> List.filter (converts svgToPng) icons).
  { specialize (IH (before ++ [icon])).
    rewrite <- app_assoc, length_app in IH. cbn [app length] in IH.
    rewrite Nat.add_1_r in IH. exact IH. }
  unfold added_entry at 1. rewrite list_lookup_middle by reflexivity. cbn.
  destruct (converts svgToPng icon); cbn; rewrite Hrest; reflexivity.
Qed.

Lemma dom_archive (icons : list IconProps) (settled : list nat) :
  settled ≡ₚ every icons ->
  dom (archive icons settled)
  = list_to_set (png_entry_name <$> List.filter (converts svgToPng) icons).
Proof.
  intros Hperm. rewrite dom_convert_into, dom_empty_L, (left_id_L ∅ (∪)).
  rewrite <- (added_entries_in_order [] icons). cbn [app length].
  apply set_eq. intros name. rewrite !elem_of_list_to_set.
  unfold every in Hperm. rewrite Hperm. reflexivity.
Qed.

Lemma size_archive (icons : list IconProps) (settled : list nat) :
  settled ≡ₚ every icons ->
  NoDup (png_entry_name <$> List.filter (converts svgToPng) icons) ->
  size (archive icons settled) = length (List.filter (converts svgToPng) icons).
Proof.
  intros Hperm Hnd.
  rewrite <- size_dom, (dom_archive _ _ Hperm), (size_list_to_set _ Hnd), length_fmap.
  reflexivity.
Qed.

Lemma archive_empty_iff (icons : list IconProps) (settled : list nat) :
  settled ≡ₚ every icons ->
  size (archive icons settled) = 0 <-> List.filter (converts svgToPng) icons = [].
Proof.
  intros Hperm. rewrite <- size_dom, size_empty_iff, (dom_archive _ _ Hperm).
  split.
  - intros H. destruct (List.filter (converts svgToPng) icons) as [|icon l]; [reflexivity|].
    exfalso. apply (not_elem_of_empty (C := gset jsstring) (png_entry_name icon)).
    rewrite <- H. apply elem_of_list_to_set. left.
  - intros ->. reflexivity.
Qed.

Lemma converted_count (icons : list IconProps) :
  length (List.filter (fun icon => negb (converts svgToPng icon)) icons) = 1 ->
  length (List.filter (converts svgToPng) icons) = length icons - 1.
Proof. intros H. pose proof (List.filter_length (converts svgToPng) icons). lia. Qed.

End PngExportFacts.

(** C5, as the claim states it, fails, in three ways.  (1) Three records,
    two of them named "a", the conversion of the third fails: the two
    conversions that succeed write the same entry "a.png", so the archive
    holds one entry, not N - 1 = 2.  (2) Two records, one named
    "nav/home", the conversion of the other fails: the archive holds the
    entry "nav/home.png" and the folder entry "nav/", two entries, not
    N - 1 = 1.  (3) Two records, the conversion of one fails and the
    generation of the archive fails: N - 1 = 1 and failure is reported, not
    success. *)
Lemma downloadAllPng_entries_and_outcome :
  let png := [137; 80; 78; 71]%N in
  let no_state := mkList [] [] false [] in
  let props := mkProps None (Some (lit "a.ttf")) in
  let fails_on (u : Z) := fun icon : IconProps =>
    if (unicode icon =? u)%Z then Throw TypeError else Normal png in
  let generated := fun _ : Zip => Normal [80; 75]%N in
  let rejected := fun _ : Zip => @Throw Blob TypeError in
  let A1 := mkIcon 65 (lit "a") (lit "0 0 10 10") (lit "<path/>") None None in
  let A2 := mkIcon 97 (lit "a") (lit "0 0 12 12") (lit "<path/>") None None in
  let B := mkIcon 66 (lit "b") (lit "0 0 10 10") (lit "<path/>") None None in
  let H := mkIcon 72 (lit "nav/home") (lit "0 0 10 10") (lit "<path/>") None None in
  (let st := set_both [A1; A2; B] no_state in
   List.map (converts (fails_on 66%Z)) (allIconList st) = [true; true; false]
   /\ exists download,
        (downloadAllPng (fails_on 66%Z) generated props [0; 1; 2] st).2 = Some download
        /\ size (zip_files (download_files download)) = 1
        /\ length (allIconList st) - 1 = 2)
  /\ (let st := set_both [H; B] no_state in
      List.map (converts (fails_on 66%Z)) (allIconList st) = [true; false]
      /\ exists download,
           (downloadAllPng (fails_on 66%Z) generated props [0; 1] st).2 = Some download
           /\ zip_files (download_files download)
              = {[ lit "nav/home.png"; lit "nav/" ]}
           /\ size (zip_files (download_files download)) = 2
           /\ length (allIconList st) - 1 = 1)
  /\ (let st := set_both [A1; B] no_state in
      List.map (converts (fails_on 66%Z)) (allIconList st) = [true; false]
      /\ 1 <= length (allIconList st) - 1
      /\ (downloadAllPng (fails_on 66%Z) rejected props [0; 1] st).2 = None
      /\ shown (downloadAllPng (fails_on 66%Z) rejected props [0; 1] st).1
         = [PngDownloadFailed]).
Proof.
  intros png no_state props fails_on generated rejected A1 A2 B H.
  split; [|split].
  - split; [reflexivity|]. eexists. split; [vm_compute; reflexivity|].
    split; vm_compute; reflexivity.
  - split; [reflexivity|]. eexists. split; [vm_compute; reflexivity|].
    split; [|split]; vm_compute; reflexivity.
  - split; [reflexivity|]. split; [vm_compute; lia|].
    split; vm_compute; reflexivity.
Qed.

(** C5, amended.  When [downloadAllPng] runs (no export is in flight) over
    N records of which exactly one fails to convert, whatever the order in
    which the conversions settle: the failure is confined to that record -
    the other N - 1 conversions all add their entry, and the archive holds
    one file entry per distinct entry name among them, beside the folder
    entries for names that contain a slash; hence exactly N - 1 entries
    when those names are pairwise distinct and free of slashes.  If
    N - 1 >= 1 and the archive is generated, the archive is offered for
    download and success is reported; if no record converted (N - 1 = 0),
    nothing is downloaded, failure is reported and the in-flight flag is
    cleared at once. *)
Theorem downloadAllPng_isolates_failure
    (svgToPng : IconProps -> completion Blob) (generateAsync : Zip -> completion Blob)
    (props : Props) (settled : list nat) (st : ListState) :
  isDownloading st = false ->
  settled ≡ₚ every (allIconList st) ->
  length (List.filter (fun icon => negb (converts svgToPng icon)) (allIconList st)) = 1 ->
  let N := length (allIconList st) in
  let converted := List.filter (converts svgToPng) (allIconList st) in
  let zip := foldl (convert_into svgToPng (allIconList st)) (∅ : Zip) settled in
  let result := downloadAllPng svgToPng generateAsync props settled st in
  length converted = N - 1
  /\ dom zip =@{gset jsstring} list_to_set (png_entry_name <$> converted)
  /\ dom zip ⊆ zip_files zip
  /\ (NoDup (png_entry_name <$> converted) ->
      Forall (fun icon => slash ∉ png_entry_name icon) converted ->
      zip_files zip = dom zip /\ size (zip_files zip) = N - 1)
  /\ (1 <= N - 1 ->
      forall content, generateAsync zip = Normal content ->
        (exists name, result.2 = Some (mkDownload name zip))
        /\ shown result.1 = shown st ++ [PngDownloadSucceeded])
  /\ (N - 1 = 0 ->
      result.2 = None
      /\ shown result.1 = shown st ++ [PngConversionFailed]
      /\ isDownloading result.1 = false).
Proof.
  intros Hidle Hperm Hone N converted zip result.
  pose proof (converted_count svgToPng _ Hone) as Hcount.
  pose proof (dom_archive svgToPng _ _ Hperm) as Hdom. fold zip converted in Hdom.
  split; [exact Hcount|].
  split; [exact Hdom|].
  split; [unfold zip_files; apply union_subseteq_l|].
  split.
  { intros Hnd Hflat.
    assert (Hfiles : zip_files zip = dom zip).
    { apply zip_files_flat. intros name Hname. rewrite Hdom in Hname.
      apply elem_of_list_to_set, list_elem_of_fmap in Hname.
      destruct Hname as (icon & -> & Hicon).
      rewrite Forall_forall in Hflat. exact (Hflat icon Hicon). }
    split; [exact Hfiles|].
    rewrite Hfiles, size_dom. subst zip.
    rewrite (size_archive svgToPng _ _ Hperm Hnd). exact Hcount. }
  subst result. unfold downloadAllPng. rewrite Hidle. fold zip.
  split.
  - intros Hsome content Hgen.
    rewrite bool_decide_eq_false_2.
    + rewrite Hgen. cbn [fst snd]. split; [eexists; reflexivity | reflexivity].
    + rewrite zip_files_empty_iff. subst zip.
      rewrite (archive_empty_iff svgToPng _ _ Hperm).
      intros Hnil. subst N converted.
      rewrite Hnil in Hcount. cbn [length] in Hcount. lia.
  - intros Hnone.
    rewrite bool_decide_eq_true_2.
    + cbn [fst snd]. repeat split.
    + rewrite zip_files_empty_iff. subst zip.
      rewrite (archive_empty_iff svgToPng _ _ Hperm).
      apply length_zero_iff_nil. subst N converted. lia.
Qed.

Lemma downloadAllPng_isolates_failure_witness :
  let A := mkIcon 65 (lit "A") (lit "0 0 10 10") (lit "<path/>") None None in
  let B := mkIcon 66 [] (lit "0 0 10 10") (lit "<path/>") None None in
  let C := mkIcon 67 (lit "C") (lit "0 0 10 10") (lit "<path/>") None None in
  let svgToPng := fun icon : IconProps =>
    if (unicode icon =? 67)%Z then Throw TypeError else Normal [137; 80; 78; 71]%N in
  let generateAsync := fun _ : Zip => Normal [80; 75]%N in
  let st := set_both [A; B; C] (mkList [] [] false []) in
  let settled := [2; 0; 1] in
  let zip := foldl (convert_into svgToPng (allIconList st)) (∅ : Zip) settled in
  isDownloading st = false
  /\ settled ≡ₚ every (allIconList st)
  /\ length (List.filter (fun icon => negb (converts svgToPng icon)) (allIconList st)) = 1
  /\ NoDup (png_entry_name <$> List.filter (converts svgToPng) (allIconList st))
  /\ Forall (fun icon => slash ∉ png_entry_name icon)
       (List.filter (converts svgToPng) (allIconList st))
  /\ size (zip_files zip) = 2.
Proof.
  intros A B C svgToPng generateAsync st settled zip.
  assert (Hperm : settled ≡ₚ every (allIconList st)).
  { change ([2; 0; 1] ≡ₚ [0; 1; 2]).
    apply (Permutation_cons_app [0; 1] [] 2). reflexivity. }
  assert (Hnd : NoDup (png_entry_name <$> List.filter (converts svgToPng) (allIconList st))).
  { change (NoDup [lit "A.png"; lit "icon_66.png"]).
    apply NoDup_cons. split; [|apply NoDup_singleton].
    intros H. apply list_elem_of_singleton in H. discriminate H. }
  assert (Hflat : Forall (fun icon => slash ∉ png_entry_name icon)
                    (List.filter (converts svgToPng) (allIconList st))).
  { change (Forall (fun icon => slash ∉ png_entry_name icon) [A; B]).
    repeat constructor; intros H; vm_compute in H;
      repeat (apply elem_of_cons in H; destruct H as [H | H]; [discriminate H|]);
      apply elem_of_nil in H; exact H. }
  split; [reflexivity|]. split; [exact Hperm|]. split; [reflexivity|].
  split; [exact Hnd|]. split; [exact Hflat|].
  exact (proj2 (proj1 (proj2 (proj2 (proj2
           (downloadAllPng_isolates_failure svgToPng generateAsync
              (mkProps None (Some (lit "a.ttf"))) settled st eq_refl Hperm eq_refl))))
           Hnd Hflat)).
Defined.

(* ===================================================================== *)
(** * Icon detail controller: results                                     *)
(* ===================================================================== *)

Section Detail.




End Detail.



(* ===================================================================== *)
(** * Key codec: further results                                          *)
(* ===================================================================== *)

Section KeyCodecMore.

Lemma split_app_two sep (a b : jsstring) : 2 <= length (split sep (a ++ sep :: b)).
Proof.
  induction a as [|c a IH]; cbn [app split].
  - rewrite N.eqb_refl. cbn [length].
    pose proof (split_nonempty sep b). destruct (split sep b); [congruence | cbn; lia].
  - destruct (c =? sep)%N; [cbn [length]; lia|].
    destruct (split sep (a ++ sep :: b)) as [|seg segs]; cbn [length] in *; lia.
Qed.

Lemma pop_split_app sep (a b : jsstring) :
  pop (split sep (a ++ sep :: b)) = pop (split sep b).
Proof.
  unfold pop. induction a as [|c a IH]; cbn [app split].
  - rewrite N.eqb_refl. pose proof (split_nonempty sep b).
    destruct (split sep b); [congruence | apply last_cons_cons].
  - pose proof (split_app_two sep a b) as H2.
    destruct (c =? sep)%N.
    + destruct (split sep (a ++ sep :: b)) as [|seg segs]; [cbn in H2; lia|].
      rewrite last_cons_cons. exact IH.
    + destruct (split sep (a ++ sep :: b)) as [|seg [|seg' segs]];
        cbn [length] in H2; try lia.
      rewrite last_cons_cons. rewrite last_cons_cons in IH. exact IH.
Qed.

Lemma split_no_sep sep (s : jsstring) :
  Forall (fun c => c <> sep) s -> split sep s = [s].
Proof.
  induction 1 as [|c s Hc Hs IH]; [reflexivity|].
  cbn [split]. rewrite (proj2 (N.eqb_neq c sep) Hc), IH. reflexivity.
Qed.

Lemma basename_no_slash (s : jsstring) :
  Forall (fun c => c <> slash) s -> basename s = s.
Proof.
  intros H. unfold basename. rewrite (split_no_sep _ _ H).
  destruct s; reflexivity.
Qed.

Lemma basename_path (dir name : jsstring) :
  name <> [] -> Forall (fun c => c <> slash) name ->
  basename (dir ++ slash :: name) = name.
Proof.
  intros Hne H. unfold basename.
  rewrite pop_split_app, (split_no_sep _ _ H).
  destruct name; [congruence | reflexivity].
Qed.

Lemma safe_not_slash c : safe c -> c <> slash.
Proof. intros H ->. discriminate H. Qed.

Lemma Forall_safe_no_slash (s : jsstring) :
  Forall safe s -> Forall (fun c => c <> slash) s.
Proof. intros H. eapply Forall_impl; [exact H | exact safe_not_slash]. Qed.

Lemma substitute_safe_id (s : jsstring) :
  Forall safe s -> List.map (fun c => if is_safe c then c else underscore) s = s.
Proof.
  induction 1 as [|c s Hc Hs IH]; [reflexivity|].
  cbn [List.map]. rewrite Hc, IH. reflexivity.
Qed.

Lemma delete_safe_id (s : jsstring) : Forall safe s -> List.filter is_safe s = s.
Proof.
  induction 1 as [|c s Hc Hs IH]; [reflexivity|].
  cbn [List.filter]. rewrite Hc, IH. reflexivity.
Qed.

Lemma storageUtil_key_eq filename :
  storageUtil.getSafeStorageKey filename
  = if length (substituted filename) <=? 50
    then Normal (storageUtil.storageFontDatasKey ++ substituted filename)
    else b64 ← btoa (substituted filename);
         Normal (storageUtil.storageFontDatasKey
                   ++ slice_last 40 (substituted filename) ++ [hyphen]
                   ++ substring0 8 b64).
Proof. reflexivity. Qed.

Lemma inlineList_key_eq filename :
  inlineList.getSafeStorageKey filename
  = if length (deleted filename) <=? 50
    then Normal (inlineList.storageKeyPrefix ++ deleted filename)
    else b64 ← btoa (deleted filename);
         Normal (inlineList.storageKeyPrefix
                   ++ slice_last 40 (deleted filename) ++ [hyphen]
                   ++ substring0 8 b64).
Proof. reflexivity. Qed.

Lemma b64encode_take8 (s : jsstring) :
  6 <= length s -> take 8 (b64encode s) = b64encode (take 6 s).
Proof.
  intros H. destruct s as [|a [|b [|c [|d [|e [|f r]]]]]]; cbn [length] in H; try lia.
  reflexivity.
Qed.

Lemma long_key (prefix safeName : jsstring) :
  Forall safe safeName -> 50 < length safeName ->
  (if length safeName <=? 50 then Normal (prefix ++ safeName)
   else b64 ← btoa safeName;
        Normal (prefix ++ slice_last 40 safeName ++ [hyphen] ++ substring0 8 b64))
  = Normal (prefix ++ slice_last 40 safeName ++ [hyphen]
              ++ b64encode (take 6 safeName)).
Proof.
  intros Hs Hlen. rewrite (proj2 (Nat.leb_gt _ _) Hlen), (btoa_safe _ Hs).
  cbn [mbind completion_bind cbind]. unfold substring0.
  rewrite b64encode_take8 by lia. reflexivity.
Qed.

Lemma slice_last_exact n (s : jsstring) : n <= length s -> length (slice_last n s) = n.
Proof. intros H. unfold slice_last. rewrite length_drop. lia. Qed.

Lemma b64encode_six_length (s : jsstring) : length s = 6 -> length (b64encode s) = 8.
Proof.
  intros H. destruct s as [|a [|b [|c [|d [|e [|f [|g r]]]]]]]; cbn [length] in H; try lia.
  reflexivity.
Qed.

End KeyCodecMore.

(** X1. A filename whose sanitised basename is longer than 50 code units
    gets a key of exactly the prefix length plus 49: the prefix, the last
    40 code units of the sanitised name, a hyphen and 8 digest characters.
    The digest is the base64 text of the first 6 code units of the
    sanitised name and of nothing else. *)
Theorem getSafeStorageKey_long_name (filename : jsstring) :
  50 < length (substituted filename) ->
  exists key,
    storageUtil.getSafeStorageKey filename = Normal key
    /\ key = storageUtil.storageFontDatasKey
             ++ slice_last 40 (substituted filename) ++ [hyphen]
             ++ b64encode (take 6 (substituted filename))
    /\ length key = length storageUtil.storageFontDatasKey + 49.
Proof.
  intros Hlen. eexists. rewrite storageUtil_key_eq.
  split; [apply long_key; [apply substitute_safe | exact Hlen]|].
  split; [reflexivity|].
  rewrite !length_app, slice_last_exact by lia.
  rewrite b64encode_six_length by (rewrite length_take; lia).
  cbn [length]. lia.
Qed.

Lemma getSafeStorageKey_long_name_witness :
  let filename := lit "fonts/My Very Long Icon Font File Name - Final Version (2).woff" in
  50 < length (substituted filename)
  /\ storageUtil.getSafeStorageKey filename
     = Normal (lit "font-icons-_Font_File_Name_-_Final_Version__2_.woff-TXlfVmVy").
Proof.
  intros filename.
  assert (H : 50 < length (substituted filename)) by (vm_compute; lia).
  split; [exact H|].
  destruct (getSafeStorageKey_long_name filename H) as (key & -> & -> & _).
  reflexivity.
Defined.

(** X2. Two filenames with long sanitised names that agree on the first 6
    and on the last 40 code units of the sanitised name get the same key,
    whatever lies between: the digest does not tell them apart, and the
    data saved for one overwrites the data saved for the other. *)
Theorem getSafeStorageKey_long_names_collide (f g : jsstring) :
  50 < length (substituted f) -> 50 < length (substituted g) ->
  take 6 (substituted f) = take 6 (substituted g) ->
  slice_last 40 (substituted f) = slice_last 40 (substituted g) ->
  storageUtil.getSafeStorageKey f = storageUtil.getSafeStorageKey g.
Proof.
  intros Hf Hg H6 H40. rewrite !storageUtil_key_eq.
  rewrite (long_key storageUtil.storageFontDatasKey (substituted f)
             (substitute_safe (basename f)) Hf).
  rewrite (long_key storageUtil.storageFontDatasKey (substituted g)
             (substitute_safe (basename g)) Hg).
  rewrite H6, H40. reflexivity.
Qed.

Lemma getSafeStorageKey_long_names_collide_witness :
  let f := lit "Material-Symbols-Outlined-Variable-Font-Weight-Grade-OpticalSize.ttf" in
  let g := lit "Material-Symbols-Rounded-Variable-Font-Weight-Grade-OpticalSize.ttf" in
  f <> g
  /\ 50 < length (substituted f) /\ 50 < length (substituted g)
  /\ take 6 (substituted f) = take 6 (substituted g)
  /\ slice_last 40 (substituted f) = slice_last 40 (substituted g)
  /\ storageUtil.getSafeStorageKey f = storageUtil.getSafeStorageKey g.
Proof.
  intros f g.
  assert (Hf : 50 < length (substituted f)) by (vm_compute; lia).
  assert (Hg : 50 < length (substituted g)) by (vm_compute; lia).
  assert (H6 : take 6 (substituted f) = take 6 (substituted g)) by reflexivity.
  assert (H40 : slice_last 40 (substituted f) = slice_last 40 (substituted g))
    by (vm_compute; reflexivity).
  split; [discriminate|].
  repeat (split; [assumption|]).
  exact (getSafeStorageKey_long_names_collide f g Hf Hg H6 H40).
Defined.

(** X3. Only the last path segment counts: a directory prefix in front of
    a non-empty, slash-free name does not change the key, in either
    codec.  A filename that ends in a slash has an empty last segment and
    is taken whole instead. *)
Theorem getSafeStorageKey_ignores_directory (dir name : jsstring) :
  (name <> [] -> Forall (fun c => c <> slash) name ->
   storageUtil.getSafeStorageKey (dir ++ slash :: name)
   = storageUtil.getSafeStorageKey name
   /\ inlineList.getSafeStorageKey (dir ++ slash :: name)
      = inlineList.getSafeStorageKey name)
  /\ basename (dir ++ [slash]) = dir ++ [slash].
Proof.
  split.
  - intros Hne Hname.
    rewrite !storageUtil_key_eq, !inlineList_key_eq. unfold substituted, deleted.
    rewrite (basename_path dir name Hne Hname), (basename_no_slash name Hname).
    split; reflexivity.
  - unfold basename. rewrite pop_split_app. cbn.
    destruct dir; reflexivity.
Qed.

Lemma getSafeStorageKey_ignores_directory_witness :
  lit "icons.ttf" <> []
  /\ Forall (fun c => c <> slash) (lit "icons.ttf")
  /\ storageUtil.getSafeStorageKey (lit "C:/fonts/my set/icons.ttf")
     = storageUtil.getSafeStorageKey (lit "icons.ttf").
Proof.
  assert (Hne : lit "icons.ttf" <> []) by discriminate.
  assert (Hs : Forall (fun c => c <> slash) (lit "icons.ttf")).
  { apply Forall_forall. intros c Hc. apply list_elem_of_In in Hc.
    cbn in Hc. intros ->. repeat (destruct Hc as [Hc | Hc]; [discriminate Hc|]).
    exact Hc. }
  split; [exact Hne|]. split; [exact Hs|].
  exact (proj1 (proj1 (getSafeStorageKey_ignores_directory
                         (lit "C:/fonts/my set") (lit "icons.ttf")) Hne Hs)).
Defined.

(** X4. A filename of at most 50 code units, all in [a-zA-Z0-9._-], is
    kept as it is: its key is the prefix followed by the filename, in both
    codecs.  So two different such filenames never share a key. *)
Theorem getSafeStorageKey_plain_names (f g : jsstring) :
  Forall safe f -> length f <= 50 ->
  (storageUtil.getSafeStorageKey f = Normal (storageUtil.storageFontDatasKey ++ f)
   /\ inlineList.getSafeStorageKey f = Normal (inlineList.storageKeyPrefix ++ f))
  /\ (Forall safe g -> length g <= 50 ->
      (storageUtil.getSafeStorageKey f = storageUtil.getSafeStorageKey g
       \/ inlineList.getSafeStorageKey f = inlineList.getSafeStorageKey g) ->
      f = g).
Proof.
  assert (Hplain : forall h, Forall safe h -> length h <= 50 ->
            storageUtil.getSafeStorageKey h = Normal (storageUtil.storageFontDatasKey ++ h)
            /\ inlineList.getSafeStorageKey h = Normal (inlineList.storageKeyPrefix ++ h)).
  { intros h Hs Hl.
    rewrite storageUtil_key_eq, inlineList_key_eq. unfold substituted, deleted.
    rewrite (basename_no_slash h (Forall_safe_no_slash h Hs)).
    rewrite (substitute_safe_id h Hs), (delete_safe_id h Hs).
    rewrite (proj2 (Nat.leb_le _ _) Hl). split; reflexivity. }
  intros Hf Hlf. split; [exact (Hplain f Hf Hlf)|].
  intros Hg Hlg Heq.
  destruct (Hplain f Hf Hlf) as [Ef Ef'], (Hplain g Hg Hlg) as [Eg Eg'].
  rewrite Ef, Eg, Ef', Eg' in Heq.
  destruct Heq as [Heq | Heq]; injection Heq as Heq; exact Heq.
Qed.

Lemma getSafeStorageKey_plain_names_witness :
  Forall safe (lit "icon-font_v2.0.woff") /\ length (lit "icon-font_v2.0.woff") <= 50
  /\ storageUtil.getSafeStorageKey (lit "icon-font_v2.0.woff")
     = Normal (lit "font-icons-icon-font_v2.0.woff").
Proof.
  assert (Hs : Forall safe (lit "icon-font_v2.0.woff")).
  { apply Forall_forall. intros c Hc. apply list_elem_of_In in Hc. cbn in Hc.
    repeat (destruct Hc as [<- | Hc]; [reflexivity|]). destruct Hc. }
  assert (Hl : length (lit "icon-font_v2.0.woff") <= 50) by (vm_compute; lia).
  split; [exact Hs|]. split; [exact Hl|].
  exact (proj1 (proj1 (getSafeStorageKey_plain_names (lit "icon-font_v2.0.woff") [] Hs Hl))).
Defined.

(* ===================================================================== *)
(** * Persistence store: further results                                  *)
(* ===================================================================== *)

Section PersistenceMore.
Import storageUtil.

Lemma setItem_cases key value st :
  (setItem key value st = (Normal tt, mkStorage (<[key := value]> (items st)) (quota st)))
  \/ setItem key value st = (Throw QuotaExceededError, st).
Proof. unfold setItem. destruct (used _ <=? quota st); [left | right]; reflexivity. Qed.

Lemma registry_only_slot st st' :
  items st' !! storageFileNames = items st !! storageFileNames ->
  registry st' = registry st.
Proof.
  intros H. unfold registry, getSavedFileNameData, try_catch, mbind, JS_bind, lift,
    getItem. rewrite H.
  destruct (items st !! storageFileNames) as [[|c s]|]; try reflexivity.
  destruct (JSON_parse_as strings_of_json (c :: s)); reflexivity.
Qed.

Lemma getFontData_only_key filename key st st' :
  getSafeStorageKey filename = Normal key ->
  items st' !! key = items st !! key ->
  fst (getFontData filename st') = fst (getFontData filename st).
Proof.
  intros Hk H. rewrite !(getFontData_unfold _ _ _ Hk), H.
  destruct (items st !! key) as [[|c s]|]; try reflexivity.
  destruct (JSON_parse_as icons_of_json (c :: s)); reflexivity.
Qed.

Lemma indexOf_Some x l i : indexOf x l = Some i -> l !! i = Some x.
Proof.
  revert i. induction l as [|y l IH]; intros i; cbn [indexOf]; [discriminate|].
  destruct (bool_decide (y = x)) eqn:E.
  - apply bool_decide_eq_true_1 in E. intros [= <-]. subst. reflexivity.
  - destruct (indexOf x l) as [j|]; cbn; [|discriminate].
    intros [= <-]. cbn. apply IH. reflexivity.
Qed.

Lemma indexOf_None x l : indexOf x l = None -> x ∉ l.
Proof.
  induction l as [|y l IH]; cbn [indexOf]; [intros _; apply not_elem_of_nil|].
  destruct (bool_decide (y = x)) eqn:E; [discriminate|].
  apply bool_decide_eq_false_1 in E.
  destruct (indexOf x l); cbn; [discriminate|]. intros _.
  apply not_elem_of_cons. split; [congruence | apply IH; reflexivity].
Qed.

Lemma NoDup_delete_absent (l : list jsstring) i x :
  NoDup l -> l !! i = Some x -> x ∉ delete i l.
Proof.
  intros Hnd Hi. rewrite delete_take_drop.
  rewrite <- (take_drop_middle l i x Hi) in Hnd.
  apply NoDup_app in Hnd. destruct Hnd as (_ & Hdisj & Hnd).
  apply NoDup_cons in Hnd. destruct Hnd as [Hx _].
  intros H. apply elem_of_app in H. destruct H as [H | H]; [|contradiction].
  apply (Hdisj x H). left.
Qed.

Lemma delete_keeps_others (l : list jsstring) i x y :
  l !! i = Some x -> y <> x -> (y ∈ delete i l <-> y ∈ l).
Proof.
  intros Hi Hne. rewrite delete_take_drop.
  rewrite <- (take_drop_middle l i x Hi) at 3.
  rewrite !elem_of_app, elem_of_cons. tauto.
Qed.

End PersistenceMore.

(** X5. [getSavedFileNameData] never throws and never writes.  It returns
    the empty list when the registry item is missing, is the empty string
    or is not JSON, and it returns the list of names when the item holds
    the JSON text of that list. *)
Theorem getSavedFileNameData_reads_registry (st : Storage) :
  (forall e, fst (getSavedFileNameData st) <> Throw e)
  /\ snd (getSavedFileNameData st) = st
  /\ (items st !! storageUtil.storageFileNames = None
      \/ items st !! storageUtil.storageFileNames = Some []
      \/ (exists text,
            items st !! storageUtil.storageFileNames = Some text
            /\ JSON_parse text = Throw SyntaxError) ->
      getSavedFileNameData st = (Normal [], st))
  /\ (forall saved,
        items st !! storageUtil.storageFileNames
        = Some (stringify (json_of_strings saved)) ->
        getSavedFileNameData st = (Normal saved, st)).
Proof.
  rewrite getSavedFileNameData_eq. cbn [fst snd].
  split; [discriminate|]. split; [reflexivity|]. split.
  - intros [H | [H | (text & H & Hp)]].
    + rewrite (registry_absent _ H). reflexivity.
    + unfold registry, getSavedFileNameData, try_catch, mbind, JS_bind, lift, getItem.
      rewrite H. reflexivity.
    + unfold registry, getSavedFileNameData, try_catch, mbind, JS_bind, lift, getItem.
      rewrite H. destruct text as [|c s]; [reflexivity|].
      rewrite (JSON_parse_as_syntax_error _ _ Hp). reflexivity.
  - intros saved H. rewrite (registry_stored _ _ H). reflexivity.
Qed.

Lemma getSavedFileNameData_reads_registry_witness :
  let st := mkStorage {[ storageUtil.storageFileNames := lit "[a.ttf" ]} 100 in
  items st !! storageUtil.storageFileNames = Some (lit "[a.ttf")
  /\ JSON_parse (lit "[a.ttf") = Throw SyntaxError
  /\ getSavedFileNameData st = (Normal [], st).
Proof.
  intros st.
  assert (Hi : items st !! storageUtil.storageFileNames = Some (lit "[a.ttf"))
    by apply lookup_singleton_eq.
  assert (Hp : JSON_parse (lit "[a.ttf") = Throw SyntaxError) by reflexivity.
  split; [exact Hi|]. split; [exact Hp|].
  apply (proj1 (proj2 (proj2 (getSavedFileNameData_reads_registry st)))).
  right. right. exists (lit "[a.ttf"). split; [exact Hi | exact Hp].
Defined.

(** X6. Starting from a store without a registry item, after any sequence
    of [saveFileNameData] and [deleteStorageData] calls - also ones that
    fail on the quota - the registry holds no filename twice. *)
Theorem registry_never_duplicates (ops : list RegistryOp) (st : Storage) :
  items st !! storageUtil.storageFileNames = None ->
  NoDup (registry (foldl registry_step st ops)).
Proof. apply registry_NoDup_after. Qed.

Lemma registry_never_duplicates_witness :
  let ops := [RegistryAdd (lit "a.ttf"); RegistryAdd (lit "b.woff");
              RegistryAdd (lit "a.ttf"); RegistryRemove (lit "c.ttf");
              RegistryRemove (lit "a.ttf"); RegistryAdd (lit "b.woff")] in
  items (mkStorage ∅ 60) !! storageUtil.storageFileNames = None
  /\ NoDup (registry (foldl registry_step (mkStorage ∅ 60) ops))
  /\ registry (foldl registry_step (mkStorage ∅ 60) ops) = [lit "b.woff"].
Proof.
  intros ops. split; [reflexivity|]. split.
  - exact (registry_never_duplicates ops (mkStorage ∅ 60) eq_refl).
  - vm_compute. reflexivity.
Defined.

Lemma saveFileNameData_effect (filename : jsstring) (st : Storage) :
  match saveFileNameData filename st with
  | (Normal _, st') =>
      registry st'
      = (if bool_decide (filename ∈ registry st) then registry st
         else registry st ++ [filename])
      /\ filename ∈ registry st'
      /\ (filename ∈ registry st -> st' = st)
      /\ (forall key, key <> storageUtil.storageFileNames ->
            items st' !! key = items st !! key)
  | (Throw e, st') => e = QuotaExceededError /\ st' = st
  end.
Proof.
  rewrite saveFileNameData_eq.
  destruct (bool_decide (filename ∈ registry st)) eqn:E.
  - apply bool_decide_eq_true_1 in E. repeat split; assumption.
  - apply bool_decide_eq_false_1 in E.
    destruct (setItem_cases storageUtil.storageFileNames
                (stringify (json_of_strings (registry st ++ [filename]))) st)
      as [-> | ->]; [|split; reflexivity].
    assert (Hreg : registry (mkStorage
                     (<[storageUtil.storageFileNames :=
                          stringify (json_of_strings (registry st ++ [filename]))]>
                        (items st)) (quota st))
                   = registry st ++ [filename]).
    { apply registry_stored. cbn [items]. apply lookup_insert_eq. }
    rewrite Hreg. split; [reflexivity|]. split.
    + apply elem_of_app. right. left.
    + split; [intros H; contradiction|].
      intros key Hne. cbn [items]. apply lookup_insert_ne. congruence.
Qed.

(** X7. With a registry item that is missing, empty, not JSON or the text
    of a list of names, [saveFileNameData] either completes, and then the
    registry is the old one if it held the name already (nothing is
    written) and the old one with the name appended otherwise, with every
    other item untouched; or it throws [QuotaExceededError] and leaves the
    store exactly as it was. *)
Theorem saveFileNameData_appends (filename : jsstring) (st : Storage) :
  registry_readable st ->
  match saveFileNameData filename st with
  | (Normal _, st') =>
      registry st'
      = (if bool_decide (filename ∈ registry st) then registry st
         else registry st ++ [filename])
      /\ filename ∈ registry st'
      /\ (filename ∈ registry st -> st' = st)
      /\ (forall key, key <> storageUtil.storageFileNames ->
            items st' !! key = items st !! key)
  | (Throw e, st') => e = QuotaExceededError /\ st' = st
  end.
Proof. intros _. exact (saveFileNameData_effect filename st). Qed.

Lemma saveFileNameData_appends_witness :
  let st := mkStorage {[ storageUtil.storageFileNames := lit "['a.ttf" ]} 100 in
  registry_readable st
  /\ registry st = []
  /\ registry (run (saveFileNameData (lit "b.woff")) st) = [lit "b.woff"].
Proof.
  intros st.
  assert (Hok : registry_readable st).
  { right. right. left. exists (lit "['a.ttf").
    split; [apply lookup_singleton_eq | reflexivity]. }
  split; [exact Hok|]. split; [reflexivity|].
  pose proof (saveFileNameData_appends (lit "b.woff") st Hok) as H.
  unfold run. destruct (saveFileNameData (lit "b.woff") st) as [[[]|e] st'] eqn:E.
  - destruct H as [H _]. exact H.
  - exfalso. vm_compute in E. discriminate E.
Defined.

Lemma deleteStorageData_item_gone filename key st :
  storageUtil.getSafeStorageKey filename = Normal key ->
  items (run (deleteStorageData filename) st) !! key = None.
Proof.
  intros Hk. unfold run at 1. rewrite (deleteStorageData_eq _ _ _ Hk). cbv zeta.
  set (st1 := run (removeItem key) st).
  assert (H1 : items st1 !! key = None) by apply lookup_delete_eq.
  destruct (indexOf filename (registry st1)) as [i|] eqn:Ei; [|exact H1].
  destruct (setItem_cases storageUtil.storageFileNames
              (stringify (json_of_strings (delete i (registry st1)))) st1)
    as [-> | ->]; [|exact H1].
  cbn [snd items].
  destruct (decide (key = storageUtil.storageFileNames)) as [-> | Hne].
  - rewrite (registry_absent _ H1) in Ei. discriminate Ei.
  - rewrite lookup_insert_ne by congruence. exact H1.
Qed.

(** X8. After [deleteStorageData filename] - whether or not its registry
    update fails - the item under the derived key is gone, and with it
    what was saved for the file: [getFontData filename] returns the empty
    list. *)
Theorem deleteStorageData_removes_data (saved : jsstring) (st : Storage) :
  let st' := run (deleteStorageData saved) st in
  exists key,
    storageUtil.getSafeStorageKey saved = Normal key
    /\ items st' !! key = None
    /\ getFontData saved st' = (Normal [], st').
Proof.
  intros st'. destruct (getSafeStorageKey_normal saved) as [key Hk].
  pose proof (deleteStorageData_item_gone saved key st Hk) as Hgone.
  exists key. split; [exact Hk|]. split; [exact Hgone|].
  rewrite (getFontData_unfold _ _ _ Hk). subst st'. rewrite Hgone. reflexivity.
Qed.

(** X9. When the registry holds no name twice and the derived key of
    [filename] is not the registry slot, a [deleteStorageData filename]
    that completes leaves a registry without [filename] and with exactly
    the other names it had. *)
Theorem deleteStorageData_unregisters
    (filename key : jsstring) (st st' : Storage) :
  storageUtil.getSafeStorageKey filename = Normal key ->
  key <> storageUtil.storageFileNames ->
  NoDup (registry st) ->
  deleteStorageData filename st = (Normal tt, st') ->
  (filename ∉ registry st')
  /\ forall other, other <> filename ->
       (other ∈ registry st' <-> other ∈ registry st).
Proof.
  intros Hk Hne Hnd. rewrite (deleteStorageData_eq _ _ _ Hk). cbv zeta.
  set (st1 := run (removeItem key) st).
  assert (Hreg1 : registry st1 = registry st).
  { apply registry_only_slot. apply lookup_delete_ne. exact Hne. }
  rewrite Hreg1.
  destruct (indexOf filename (registry st)) as [i|] eqn:Ei.
  - apply indexOf_Some in Ei.
    destruct (setItem_cases storageUtil.storageFileNames
                (stringify (json_of_strings (delete i (registry st)))) st1)
      as [-> | ->]; [|discriminate].
    intros [= <-].
    rewrite (registry_stored _ (delete i (registry st)))
      by (cbn [items]; apply lookup_insert_eq).
    split; [exact (NoDup_delete_absent _ _ _ Hnd Ei)|].
    intros other Ho. exact (delete_keeps_others _ _ _ _ Ei Ho).
  - apply indexOf_None in Ei. intros [= <-]. rewrite Hreg1.
    split; [exact Ei | reflexivity].
Qed.

Lemma deleteStorageData_unregisters_witness :
  let st := foldl registry_step (mkStorage ∅ 200)
              [RegistryAdd (lit "a.ttf"); RegistryAdd (lit "b.woff")] in
  let st' := run (deleteStorageData (lit "a.ttf")) st in
  storageUtil.getSafeStorageKey (lit "a.ttf") = Normal (lit "font-icons-a.ttf")
  /\ lit "font-icons-a.ttf" <> storageUtil.storageFileNames
  /\ NoDup (registry st)
  /\ deleteStorageData (lit "a.ttf") st = (Normal tt, st')
  /\ (lit "a.ttf" ∉ registry st')
  /\ registry st' = [lit "b.woff"].
Proof.
  intros st st'.
  assert (Hk : storageUtil.getSafeStorageKey (lit "a.ttf") = Normal (lit "font-icons-a.ttf"))
    by reflexivity.
  assert (Hne : lit "font-icons-a.ttf" <> storageUtil.storageFileNames) by discriminate.
  assert (Hnd : NoDup (registry st)) by (apply registry_NoDup_after; reflexivity).
  assert (Hrun : deleteStorageData (lit "a.ttf") st = (Normal tt, st'))
    by (vm_compute; reflexivity).
  split; [exact Hk|]. split; [exact Hne|]. split; [exact Hnd|]. split; [exact Hrun|].
  split; [|vm_compute; reflexivity].
  exact (proj1 (deleteStorageData_unregisters _ _ st st' Hk Hne Hnd Hrun)).
Defined.

(** X10. Saving icon data for one filename does not disturb another: when
    the two derived keys differ, [getFontData] for the first filename
    returns after [saveFontData] for the second what it returned before,
    whether the save completed or failed; and unless the second key is the
    registry slot, the registry is unchanged too. *)
Theorem saveFontData_leaves_other_files
    (f g kf kg : jsstring) (icons : list IconProps) (st : Storage) :
  storageUtil.getSafeStorageKey f = Normal kf ->
  storageUtil.getSafeStorageKey g = Normal kg ->
  kf <> kg ->
  let st' := run (saveFontData g icons) st in
  fst (getFontData f st') = fst (getFontData f st)
  /\ (kg <> storageUtil.storageFileNames -> registry st' = registry st).
Proof.
  intros Hf Hg Hne st'.
  assert (Hitems : forall k, k <> kg -> items st' !! k = items st !! k).
  { intros k Hk. subst st'. unfold run, saveFontData, mbind, JS_bind, lift.
    rewrite Hg. destruct (setItem_cases kg (stringify (json_of_icons icons)) st)
      as [-> | ->]; cbn [snd items]; [|reflexivity].
    apply lookup_insert_ne. congruence. }
  split.
  - apply (getFontData_only_key f kf); [exact Hf | apply Hitems; exact Hne].
  - intros Hslot. apply registry_only_slot, Hitems. congruence.
Qed.

Lemma saveFontData_leaves_other_files_witness :
  let icon := mkIcon 65 (lit "A") (lit "0 0 10 10") (lit "<path/>") None None in
  let st := run (saveFontData (lit "a.ttf") [icon]) (mkStorage ∅ 500) in
  let st' := run (saveFontData (lit "b.ttf") []) st in
  storageUtil.getSafeStorageKey (lit "a.ttf") = Normal (lit "font-icons-a.ttf")
  /\ storageUtil.getSafeStorageKey (lit "b.ttf") = Normal (lit "font-icons-b.ttf")
  /\ lit "font-icons-a.ttf" <> lit "font-icons-b.ttf"
  /\ fst (getFontData (lit "a.ttf") st') = Normal [icon].
Proof.
  intros icon st st'.
  assert (Hf : storageUtil.getSafeStorageKey (lit "a.ttf") = Normal (lit "font-icons-a.ttf"))
    by reflexivity.
  assert (Hg : storageUtil.getSafeStorageKey (lit "b.ttf") = Normal (lit "font-icons-b.ttf"))
    by reflexivity.
  assert (Hne : lit "font-icons-a.ttf" <> lit "font-icons-b.ttf") by discriminate.
  split; [exact Hf|]. split; [exact Hg|]. split; [exact Hne|].
  etransitivity;
    [exact (proj1 (saveFontData_leaves_other_files _ _ _ _ [] st Hf Hg Hne))|].
  vm_compute. reflexivity.
Defined.

(* ===================================================================== *)
(** * Saving from the list component                                      *)
(* ===================================================================== *)

Lemma saveFontData_cases filename key icons st :
  storageUtil.getSafeStorageKey filename = Normal key ->
  saveFontData filename icons st
  = (Normal tt,
     mkStorage (<[key := stringify (json_of_icons icons)]> (items st)) (quota st))
  \/ saveFontData filename icons st = (Throw QuotaExceededError, st).
Proof.
  intros Hk. unfold saveFontData, mbind, JS_bind, lift. rewrite Hk.
  apply setItem_cases.
Qed.

Lemma getFontData_stored filename key icons st :
  storageUtil.getSafeStorageKey filename = Normal key ->
  items st !! key = Some (stringify (json_of_icons icons)) ->
  getFontData filename st = (Normal icons, st).
Proof.
  intros Hk Hi. rewrite (getFontData_unfold _ _ _ Hk), Hi.
  destruct (stringify_array_truthy (List.map json_of_icon icons)) as [t Ht].
  pose proof (parse_icons_stringify icons) as Hp.
  unfold json_of_icons in *. rewrite Ht in *. rewrite Hp. reflexivity.
Qed.

Lemma handleSave_eq font c s st storage :
  handleSave (mkProps font (Some (c :: s))) st storage
  = match saveFontData (c :: s) (allIconList st) storage with
    | (Normal _, s1) =>
        match saveFileNameData (c :: s) s1 with
        | (Normal _, s2) => (Normal (notify SaveSucceeded st), s2)
        | (Throw _, s2) => (Normal (notify SaveFailed st), s2)
        end
    | (Throw _, s1) => (Normal (notify SaveFailed st), s1)
    end.
Proof.
  unfold handleSave. cbn [filename]. unfold try_catch, mbind, JS_bind.
  destruct (saveFontData (c :: s) (allIconList st) storage) as [[[]|e] s1];
    [|reflexivity].
  destruct (saveFileNameData (c :: s) s1) as [[[]|e] s2]; reflexivity.
Qed.

(** What [handleSave] leaves behind for a filename [saved]. *)
Lemma handleSave_cases font saved key st storage :
  saved <> [] ->
  storageUtil.getSafeStorageKey saved = Normal key ->
  exists storage',
    (handleSave (mkProps font (Some saved)) st storage
       = (Normal (notify SaveSucceeded st), storage')
     /\ saved ∈ registry storage'
     /\ (key <> storageUtil.storageFileNames ->
         items storage' !! key = Some (stringify (json_of_icons (allIconList st)))))
    \/ (handleSave (mkProps font (Some saved)) st storage
          = (Normal (notify SaveFailed st), storage')
        /\ forall k, k <> key -> items storage' !! k = items storage !! k).
Proof.
  intros Hne Hk. destruct saved as [|c s]; [congruence|].
  rewrite handleSave_eq.
  destruct (saveFontData_cases (c :: s) key (allIconList st) storage Hk) as [E | E];
    rewrite E.
  - set (s1 := mkStorage _ _).
    pose proof (saveFileNameData_effect (c :: s) s1) as Heff.
    destruct (saveFileNameData (c :: s) s1) as [[[]|e] s2].
    + destruct Heff as (_ & Hin & _ & Hother).
      exists s2. left. split; [reflexivity|]. split; [exact Hin|].
      intros Hslot. rewrite (Hother key Hslot). apply lookup_insert_eq.
    + destruct Heff as [_ ->]. exists s1. right. split; [reflexivity|].
      intros k Hk'. apply lookup_insert_ne. congruence.
  - exists storage. right. split; [reflexivity|]. reflexivity.
Qed.


(** X12. Save, then reopen: when [handleSave] reported success for a
    non-empty collection (the filename's key not being the registry slot),
    the next [watchEffect] for the same filename - whatever font object it
    is given, and whatever the component held meanwhile - puts exactly the
    saved records back as canonical collection and view, transient edit
    fields included, without extracting from the font. *)
Theorem handleSave_then_watchEffect_restores
    (font font' : option Font) (saved key : jsstring)
    (st st' later : ListState) (storage storage' : Storage) :
  storageUtil.getSafeStorageKey saved = Normal key ->
  key <> storageUtil.storageFileNames ->
  allIconList st <> [] ->
  handleSave (mkProps font (Some saved)) st storage = (Normal st', storage') ->
  shown st' = shown st ++ [SaveSucceeded] ->
  exists reopened,
    watchEffect (mkProps font' (Some saved)) later storage' = (Normal reopened, storage')
    /\ allIconList reopened = allIconList st
    /\ visible reopened = allIconList st.
Proof.
  intros Hk Hslot Hicons Hrun Hshown.
  assert (Hne : saved <> []).
  { intros ->. cbn in Hrun. injection Hrun as <- <-. cbn in Hshown.
    apply app_inv_head in Hshown. discriminate Hshown. }
  destruct (handleSave_cases font saved key st storage Hne Hk)
    as [s2 [(Hrun' & _ & Hitem) | (Hrun' & _)]]; rewrite Hrun' in Hrun;
    injection Hrun as <- <-.
  2: { cbn in Hshown. apply app_inv_head in Hshown. discriminate Hshown. }
  specialize (Hitem Hslot).
  rewrite watchEffect_eq. unfold saved_icons. cbn [filename].
  destruct saved as [|c s]; [congruence|].
  rewrite (getFontData_stored _ key _ _ Hk Hitem).
  destruct (allIconList st) as [|icon icons] eqn:E; [congruence|].
  eexists. split; [reflexivity|]. split; [reflexivity | apply visible_every].
Qed.

Lemma handleSave_then_watchEffect_restores_witness :
  let A := mkIcon 65 (lit "home") (lit "0 0 10 10") (lit "<path/>") (Some true) (Some (lit "hom")) in
  let st := set_both [A] (mkList [] [] false []) in
  let props := mkProps None (Some (lit "a.ttf")) in
  let result := handleSave props st (mkStorage ∅ 500) in
  storageUtil.getSafeStorageKey (lit "a.ttf") = Normal (lit "font-icons-a.ttf")
  /\ lit "font-icons-a.ttf" <> storageUtil.storageFileNames
  /\ allIconList st <> []
  /\ result = (Normal (notify SaveSucceeded st), result.2)
  /\ exists reopened,
       watchEffect props (mkList [] [] false []) result.2 = (Normal reopened, result.2)
       /\ allIconList reopened = [A].
Proof.
  intros A st props result.
  assert (Hk : storageUtil.getSafeStorageKey (lit "a.ttf") = Normal (lit "font-icons-a.ttf"))
    by reflexivity.
  assert (Hslot : lit "font-icons-a.ttf" <> storageUtil.storageFileNames) by discriminate.
  assert (Hicons : allIconList st <> []) by discriminate.
  assert (Hrun : result = (Normal (notify SaveSucceeded st), result.2))
    by (vm_compute; reflexivity).
  split; [exact Hk|]. split; [exact Hslot|]. split; [exact Hicons|]. split; [exact Hrun|].
  destruct (handleSave_then_watchEffect_restores None None (lit "a.ttf")
              (lit "font-icons-a.ttf") st (notify SaveSucceeded st)
              (mkList [] [] false []) (mkStorage ∅ 500) result.2
              Hk Hslot Hicons Hrun eq_refl)
    as (reopened & Hw & Hall & _).
  exists reopened. split; [exact Hw | exact Hall].
Defined.

(* ===================================================================== *)
(** * Icon list controller: extraction and renaming                       *)
(* ===================================================================== *)

Section ExtractionFacts.

Lemma generatorIconList_glyphs gs :
  generatorIconList (mkFont (Some gs))
  = flat_map (fun glyph => generatorIconList (mkFont (Some [glyph]))) gs.
Proof.
  unfold generatorIconList. cbn [glyphs].
  induction gs as [|g gs IH]; [reflexivity|].
  cbn [flat_map]. rewrite IH. rewrite app_nil_r. reflexivity.
Qed.

Lemma generatorIconList_one glyph :
  generatorIconList (mkFont (Some [glyph]))
  = if has_code_point glyph
    then [mkIcon (default 0%Z (glyph_unicode glyph))
            (or_else (glyph_name glyph) [])
            (number_to_string (x1 (glyph_box glyph)) ++ [space]
             ++ number_to_string (y1 (glyph_box glyph)) ++ [space]
             ++ number_to_string (x2 (glyph_box glyph) - x1 (glyph_box glyph)) ++ [space]
             ++ number_to_string (y2 (glyph_box glyph) - y1 (glyph_box glyph)))
            (glyph_svg glyph) (Some false) (Some (or_else (glyph_name glyph) []))]
    else [].
Proof.
  unfold generatorIconList, has_code_point. cbn [glyphs flat_map].
  destruct (glyph_unicode glyph) as [[|p|p]|]; reflexivity.
Qed.

End ExtractionFacts.

(** X13. [generatorIconList] yields one record per glyph that has a
    non-zero code point, in glyph order and with that code point; a font
    without a glyph set yields none.  Every record it yields is closed for
    editing and stages its own name, so a freshly extracted collection has
    no open edit. *)
Theorem generatorIconList_records (font : Font) :
  let icons := generatorIconList font in
  let kept := List.filter has_code_point (default [] (glyphs font)) in
  unicode <$> icons = (fun g => default 0%Z (glyph_unicode g)) <$> kept
  /\ iconName <$> icons = (fun g => or_else (glyph_name g) []) <$> kept
  /\ svgPath <$> icons = glyph_svg <$> kept
  /\ Forall (fun icon => unicode icon <> 0%Z
                         /\ isEditing icon = Some false
                         /\ editingName icon = Some (iconName icon)) icons
  /\ List.filter editing icons = [].
Proof.
  cbv zeta. destruct font as [[gs|]]; [|repeat split; constructor].
  cbn [glyphs]. change (default [] (Some gs)) with gs.
  rewrite generatorIconList_glyphs.
  induction gs as [|g gs IH]; [repeat split; constructor|].
  cbn [flat_map List.filter]. rewrite generatorIconList_one.
  destruct IH as (IH1 & IH2 & IH3 & IH4 & IH5).
  destruct (has_code_point g) eqn:E; cbn [app fmap list_fmap];
    [|repeat split; assumption].
  rewrite IH1, IH2, IH3. repeat split; try reflexivity.
  - constructor; [|exact IH4]. cbn. repeat split.
    unfold has_code_point in E. destruct (glyph_unicode g) as [[|p|p]|]; cbn;
      congruence.
  - cbn [List.filter editing isEditing]. exact IH5.
Qed.

Section TrimFacts.

Lemma trim_start_head s c r : trim_start s = c :: r -> is_js_space c = false.
Proof.
  induction s as [|x s IH]; cbn [trim_start]; [discriminate|].
  destruct (is_js_space x) eqn:E; [exact IH|]. intros [= <- _]. exact E.
Qed.

Lemma trim_start_fixed c s : is_js_space c = false -> trim_start (c :: s) = c :: s.
Proof. intros H. cbn [trim_start]. rewrite H. reflexivity. Qed.

(** Dropping leading white space keeps a last code unit that is not white
    space. *)
Lemma trim_start_last s d :
  last s = Some d -> is_js_space d = false -> last (trim_start s) = Some d.
Proof.
  induction s as [|x s IH]; [discriminate|]. intros Hl Hd.
  cbn [trim_start]. destruct (is_js_space x) eqn:E; [|exact Hl].
  destruct s as [|y s].
  - cbn in Hl. injection Hl as <-. congruence.
  - rewrite last_cons_cons in Hl. exact (IH Hl Hd).
Qed.

Lemma last_rev_head (c : N) s : last (rev (c :: s)) = Some c.
Proof. cbn [rev]. apply last_snoc. Qed.

Lemma head_rev_last (s : jsstring) d : last s = Some d -> exists r, rev s = d :: r.
Proof.
  intros H. apply last_Some in H. destruct H as [l' ->].
  rewrite rev_app_distr. cbn. eexists. reflexivity.
Qed.

Lemma trim_no_outer_space s : no_outer_space (trim s).
Proof.
  unfold trim. destruct (trim_start s) as [|c t] eqn:Et; [exact I|].
  pose proof (trim_start_head _ _ _ Et) as Hc.
  pose proof (last_rev_head c t) as Hlast.
  pose proof (trim_start_last _ _ Hlast Hc) as Hlast'.
  destruct (trim_start (rev (c :: t))) as [|d u] eqn:Eu; [discriminate Hlast'|].
  pose proof (trim_start_head _ _ _ Eu) as Hd.
  destruct (head_rev_last _ _ Hlast') as [r Hr]. rewrite Hr.
  split; [exact Hc|]. exists d. split; [|exact Hd].
  rewrite <- Hr. apply last_rev_head.
Qed.

Lemma trim_fixed s : no_outer_space s -> trim s = s.
Proof.
  destruct s as [|c s]; [reflexivity|]. intros (Hc & d & Hl & Hd).
  unfold trim. rewrite (trim_start_fixed c s Hc).
  destruct (head_rev_last _ _ Hl) as [r Hr]. rewrite Hr.
  rewrite (trim_start_fixed d r Hd), <- Hr. apply rev_involutive.
Qed.

Lemma trim_spaces s : forallb is_js_space s = true -> trim s = [].
Proof.
  intros H. unfold trim.
  assert (E : trim_start s = []).
  { induction s as [|c s IH]; [reflexivity|]. cbn in H.
    apply andb_prop in H. destruct H as [Hc Hs].
    cbn [trim_start]. rewrite Hc. exact (IH Hs). }
  rewrite E. reflexivity.
Qed.

End TrimFacts.

Section RenameFacts.

Lemma rename_name icon :
  iconName (rename icon)
  = match editingName icon with
    | Some staged => match trim staged with [] => iconName icon | c :: s => c :: s end
    | None => iconName icon
    end.
Proof.
  unfold rename. destruct (editingName icon) as [staged|]; [|reflexivity].
  destruct (trim staged); reflexivity.
Qed.

Lemma finishEditing_lookup icon st :
  allIconList (finishEditing icon st) !! icon
  = (fun item => stop_editing (rename item)) <$> allIconList st !! icon.
Proof. apply list_lookup_alter_eq. Qed.

End RenameFacts.

(** X14. [finishEditing] closes the record and touches no other record and
    no list.  It either leaves the name as it was - always so when the
    staged text is missing, empty or all white space - or replaces it by
    the trimmed staged text, which is then non-empty and neither starts nor
    ends with white space.  A commit can therefore not blank a name. *)
Theorem finishEditing_commits_trimmed (icon : nat) (st : ListState) (a : IconProps) :
  allIconList st !! icon = Some a ->
  let st' := finishEditing icon st in
  iconList st' = iconList st
  /\ (forall other, other <> icon -> allIconList st' !! other = allIconList st !! other)
  /\ exists a',
       allIconList st' !! icon = Some a'
       /\ editing a' = false
       /\ unicode a' = unicode a /\ viewBox a' = viewBox a /\ svgPath a' = svgPath a
       /\ (iconName a' = iconName a
           \/ exists staged,
                editingName a = Some staged /\ iconName a' = trim staged
                /\ iconName a' <> [] /\ no_outer_space (iconName a'))
       /\ (forall staged, editingName a = Some staged ->
             forallb is_js_space staged = true -> iconName a' = iconName a)
       /\ (iconName a <> [] -> iconName a' <> []).
Proof.
  intros Ha st'. subst st'. split; [reflexivity|]. split.
  { intros other Hne. apply list_lookup_alter_ne. congruence. }
  rewrite finishEditing_lookup, Ha. cbn [fmap option_fmap option_map].
  eexists. split; [reflexivity|]. split; [reflexivity|].
  assert (Hfields : unicode (rename a) = unicode a /\ viewBox (rename a) = viewBox a
                    /\ svgPath (rename a) = svgPath a).
  { unfold rename. destruct (editingName a) as [staged|]; [|repeat split].
    destruct (trim staged); repeat split. }
  destruct Hfields as (Hu & Hv & Hp).
  cbn [stop_editing unicode viewBox svgPath iconName].
  split; [exact Hu|]. split; [exact Hv|]. split; [exact Hp|].
  rewrite rename_name.
  destruct (editingName a) as [staged|] eqn:Es.
  - destruct (trim staged) as [|c s] eqn:Et.
    + split; [left; reflexivity|]. split; [reflexivity | intros H; exact H].
    + split.
      * right. exists staged. split; [reflexivity|]. split; [congruence|].
        split; [discriminate|]. rewrite <- Et. apply trim_no_outer_space.
      * split; [|discriminate].
        intros staged' [= <-] Hsp. rewrite (trim_spaces _ Hsp) in Et. discriminate Et.
  - split; [left; reflexivity|]. split; [discriminate | intros H; exact H].
Qed.

Lemma finishEditing_commits_trimmed_witness :
  let A := mkIcon 65 (lit "A") (lit "0 0 10 10") (lit "<path/>") (Some true)
             (Some (lit "  arrow left ")) in
  let st := set_both [A] (mkList [] [] false []) in
  allIconList st !! 0 = Some A
  /\ exists a', allIconList (finishEditing 0 st) !! 0 = Some a'
                /\ editing a' = false /\ iconName a' = lit "arrow left".
Proof.
  intros A st. split; [reflexivity|].
  destruct (finishEditing_commits_trimmed 0 st A eq_refl)
    as (_ & _ & a' & Ha' & He & _).
  exists a'. split; [exact Ha'|]. split; [exact He|].
  cbn in Ha'. injection Ha' as <-. reflexivity.
Defined.

Lemma startEditing_target_record icon st a :
  allIconList st !! icon = Some a ->
  exists a1,
    allIconList (startEditing icon st) !! icon = Some a1
    /\ iconName a1 = iconName a /\ editingName a1 = Some (iconName a)
    /\ isEditing a1 = Some true.
Proof.
  intros Ha. rewrite startEditing_lookup, Ha.
  rewrite (bool_decide_eq_true_2 (icon = icon)) by reflexivity.
  destruct (bool_decide (icon ∈ iconList st)); eexists; (split; [reflexivity|]);
    repeat split.
Qed.

(** X15. The rename flow.  After [startEditing] on a record, typing a text
    into the rename input and committing with [finishEditing] leaves the
    record closed and named by the trimmed text - or by its old name when
    the text is empty or all white space; cancelling with [cancelEditing]
    instead leaves it closed with its old name, whatever was typed.
    Committing without typing re-applies the record's own name, trimmed:
    a name without outer white space is unchanged. *)
Theorem rename_flow (icon : nat) (text : jsstring) (st : ListState) (a : IconProps) :
  allIconList st !! icon = Some a ->
  let typed := inputEditingName icon text (startEditing icon st) in
  (exists a', allIconList (finishEditing icon typed) !! icon = Some a'
              /\ editing a' = false
              /\ iconName a' = match trim text with
                               | [] => iconName a
                               | c :: s => c :: s
                               end)
  /\ (exists a', allIconList (cancelEditing icon typed) !! icon = Some a'
                 /\ editing a' = false /\ iconName a' = iconName a)
  /\ (exists a', allIconList (finishEditing icon (startEditing icon st)) !! icon = Some a'
                 /\ editing a' = false
                 /\ (no_outer_space (iconName a) -> iconName a' = iconName a)).
Proof.
  intros Ha typed.
  destruct (startEditing_target_record icon st a Ha) as (a1 & Ha1 & Hn1 & He1 & _).
  assert (Htyped : allIconList typed !! icon = Some (with_editingName text a1)).
  { subst typed. unfold inputEditingName, with_icons. cbn [allIconList].
    rewrite list_lookup_alter_eq, Ha1. reflexivity. }
  split; [|split].
  - rewrite finishEditing_lookup, Htyped. cbn [fmap option_fmap option_map].
    eexists. split; [reflexivity|]. split; [reflexivity|].
    cbn [stop_editing iconName]. rewrite rename_name.
    cbn [with_editingName editingName iconName]. rewrite Hn1. reflexivity.
  - unfold cancelEditing, with_icons. cbn [allIconList].
    rewrite list_lookup_alter_eq, Htyped. cbn [fmap option_fmap option_map].
    eexists. split; [reflexivity|]. split; [reflexivity|]. exact Hn1.
  - rewrite finishEditing_lookup, Ha1. cbn [fmap option_fmap option_map].
    eexists. split; [reflexivity|]. split; [reflexivity|].
    intros Hclean. cbn [stop_editing iconName]. rewrite rename_name, He1, Hn1.
    rewrite (trim_fixed _ Hclean). destruct (iconName a); reflexivity.
Qed.

Lemma rename_flow_witness :
  let A := mkIcon 65 (lit "uniE001") (lit "0 0 10 10") (lit "<path/>") (Some false)
             (Some (lit "uniE001")) in
  let st := set_both [A] (mkList [] [] false []) in
  allIconList st !! 0 = Some A
  /\ exists a',
       allIconList (finishEditing 0 (inputEditingName 0 (lit " home ") (startEditing 0 st)))
         !! 0 = Some a'
       /\ iconName a' = lit "home".
Proof.
  intros A st. split; [reflexivity|].
  destruct (proj1 (rename_flow 0 (lit " home ") st A eq_refl)) as (a' & Ha' & _ & Hn).
  exists a'. split; [exact Ha' | exact Hn].
Defined.

(* ===================================================================== *)
(** * Batch export: further results                                       *)
(* ===================================================================== *)

Section SvgExportFacts.

Local Abbreviation add_svg :=
  (fun (zip : Zip) (icon : IconProps) => <[svg_entry_name icon := svg_document icon]> zip).

Lemma svg_archive_snoc (icons : list IconProps) (icon : IconProps) :
  foldl add_svg (∅ : Zip) (icons ++ [icon])
  = <[svg_entry_name icon := svg_document icon]> (foldl add_svg (∅ : Zip) icons).
Proof. rewrite foldl_app. reflexivity. Qed.

Lemma dom_svg_archive (icons : list IconProps) :
  dom (foldl add_svg (∅ : Zip) icons)
  =@{gset jsstring} list_to_set (svg_entry_name <$> icons).
Proof.
  induction icons as [|icon icons IH] using rev_ind.
  - cbn. apply dom_empty_L.
  - rewrite svg_archive_snoc, dom_insert_L, IH, fmap_app, list_to_set_app_L.
    cbn [fmap list_fmap]. rewrite list_to_set_cons, list_to_set_nil.
    rewrite (right_id_L ∅ (∪)). apply (comm_L (∪)).
Qed.

Lemma lookup_svg_archive (icons : list IconProps) (icon : IconProps) :
  NoDup (svg_entry_name <$> icons) -> icon ∈ icons ->
  foldl add_svg (∅ : Zip) icons !! svg_entry_name icon = Some (svg_document icon).
Proof.
  induction icons as [|last icons IH] using rev_ind; intros Hnd Hin.
  - apply elem_of_nil in Hin. destruct Hin.
  - rewrite svg_archive_snoc. rewrite fmap_app in Hnd.
    apply NoDup_app in Hnd. destruct Hnd as (Hnd & Hdisj & _).
    apply elem_of_app in Hin. destruct Hin as [Hin | Hin].
    + rewrite lookup_insert_ne; [exact (IH Hnd Hin)|].
      intros Heq. apply (Hdisj (svg_entry_name icon)).
      * apply list_elem_of_fmap. exists icon. split; [reflexivity | exact Hin].
      * rewrite <- Heq. left.
    + apply list_elem_of_singleton in Hin. subst. apply lookup_insert_eq.
Qed.

Lemma zip_files_svg_flat (icons : list IconProps) :
  Forall (fun icon => slash ∉ svg_entry_name icon) icons ->
  zip_files (foldl add_svg (∅ : Zip) icons) = dom (foldl add_svg (∅ : Zip) icons).
Proof.
  intros Hflat. apply zip_files_flat. intros name Hname.
  rewrite dom_svg_archive in Hname.
  apply elem_of_list_to_set, list_elem_of_fmap in Hname.
  destruct Hname as (icon & -> & Hicon).
  rewrite Forall_forall in Hflat. exact (Hflat icon Hicon).
Qed.

End SvgExportFacts.

(** X16. [downloadAllSvg], when no export is in flight, always builds the
    archive and has it generated - there is no check for an empty
    collection, so an empty collection yields an empty archive and, once
    generated, a download and a success message.  The download is named
    after the filename without its extension, or "icons-svg" when there is
    no filename, followed by "-svg.zip".  The file entries of the archive
    are the distinct entry names; when the names are pairwise distinct
    every record's document is under the record's name, and when they are
    also free of slashes there is no folder entry and the archive holds as
    many entries as there are records.  Success or failure of the
    generation alone decides the message, and the in-flight flag is set in
    both cases. *)
Theorem downloadAllSvg_archive
    (generateAsync : Zip -> completion Blob) (props : Props) (st : ListState) :
  isDownloading st = false ->
  let zip : Zip :=
    foldl (fun zip icon => <[svg_entry_name icon := svg_document icon]> zip)
      ∅ (allIconList st) in
  let name :=
    match filename props with
    | Some (c :: s) => strip_extension (c :: s)
    | _ => lit "icons-svg"
    end ++ lit "-svg.zip" in
  let result := downloadAllSvg generateAsync props st in
  dom zip =@{gset jsstring} list_to_set (svg_entry_name <$> allIconList st)
  /\ (NoDup (svg_entry_name <$> allIconList st) ->
      (forall icon, icon ∈ allIconList st ->
         zip !! svg_entry_name icon = Some (svg_document icon))
      /\ (Forall (fun icon => slash ∉ svg_entry_name icon) (allIconList st) ->
          zip_files zip = dom zip
          /\ size (zip_files zip) = length (allIconList st)))
  /\ (allIconList st = [] -> zip = ∅)
  /\ (forall content, generateAsync zip = Normal content ->
        result = (set_downloading true st, Some (mkDownload name zip),
                  Some SvgDownloadSucceeded))
  /\ (forall e, generateAsync zip = Throw e ->
        result = (set_downloading true st, None, Some SvgDownloadFailed)).
Proof.
  intros Hidle zip name result. split; [apply dom_svg_archive|]. split.
  { intros Hnd. split.
    - intros icon Hin. apply lookup_svg_archive; assumption.
    - intros Hflat. subst zip.
      rewrite (zip_files_svg_flat _ Hflat). split; [reflexivity|].
      rewrite dom_svg_archive, (size_list_to_set _ Hnd), length_fmap.
      reflexivity. }
  split; [intros E; subst zip; rewrite E; reflexivity|].
  subst result. unfold downloadAllSvg. rewrite Hidle. fold zip.
  split.
  - intros content ->. reflexivity.
  - intros e ->. reflexivity.
Qed.

Lemma downloadAllSvg_archive_witness :
  let generateAsync := fun _ : Zip => Normal [80; 75]%N in
  let st := mkList [] [] false [] in
  isDownloading st = false
  /\ downloadAllSvg generateAsync (mkProps None None) st
     = (set_downloading true st, Some (mkDownload (lit "icons-svg-svg.zip") ∅),
        Some SvgDownloadSucceeded).
Proof.
  intros generateAsync st. split; [reflexivity|].
  exact (proj1 (proj2 (proj2 (proj2
           (downloadAllSvg_archive generateAsync (mkProps None None) st eq_refl))))
           [80; 75]%N eq_refl).
Defined.

(** X17. One export at a time.  A [downloadAllPng] that starts never
    changes the collection or the view.  If its archive is empty it
    clears the in-flight flag itself; otherwise it leaves the flag set,
    and until the timer callback runs every further [downloadAllPng] and
    [downloadAllSvg] call - whatever its arguments - does nothing at all.
    The timer callback clears the flag. *)
Theorem downloadAllPng_one_at_a_time
    (svgToPng : IconProps -> completion Blob) (generateAsync : Zip -> completion Blob)
    (props : Props) (settled : list nat) (st : ListState) :
  isDownloading st = false ->
  let zip := foldl (convert_into svgToPng (allIconList st)) (∅ : Zip) settled in
  let st' := (downloadAllPng svgToPng generateAsync props settled st).1 in
  allIconList st' = allIconList st /\ iconList st' = iconList st
  /\ (isDownloading st' = false <-> size zip = 0)
  /\ (size zip <> 0 ->
      (forall svgToPng' generateAsync' props' settled',
         downloadAllPng svgToPng' generateAsync' props' settled' st' = (st', None))
      /\ (forall generateAsync' props',
            downloadAllSvg generateAsync' props' st' = (st', None, None)))
  /\ isDownloading (download_timer st') = false.
Proof.
  intros Hidle zip st'.
  assert (Hflag : isDownloading st' = bool_decide (size zip <> 0)
                  /\ allIconList st' = allIconList st /\ iconList st' = iconList st).
  { subst st'. unfold downloadAllPng. rewrite Hidle. fold zip.
    rewrite (bool_decide_ext _ _ (zip_files_empty_iff zip)).
    destruct (decide (size zip = 0)) as [E | E].
    - rewrite (bool_decide_eq_true_2 _ E), (bool_decide_eq_false_2 (size zip <> 0))
        by (intros H; exact (H E)).
      repeat split.
    - rewrite (bool_decide_eq_false_2 _ E), (bool_decide_eq_true_2 (size zip <> 0))
        by exact E.
      destruct (generateAsync zip); repeat split. }
  destruct Hflag as (Hflag & Hall & Hview).
  split; [exact Hall|]. split; [exact Hview|]. split.
  { rewrite Hflag. split.
    - intros H. apply bool_decide_eq_false_1 in H.
      destruct (decide (size zip = 0)); [assumption | contradiction].
    - intros E. apply bool_decide_eq_false_2. intros H. exact (H E). }
  split; [|reflexivity].
  intros Hne. rewrite (bool_decide_eq_true_2 _ Hne) in Hflag. split.
  - intros. unfold downloadAllPng. rewrite Hflag. reflexivity.
  - intros. unfold downloadAllSvg. rewrite Hflag. reflexivity.
Qed.

Lemma downloadAllPng_one_at_a_time_witness :
  let A := mkIcon 65 (lit "A") (lit "0 0 10 10") (lit "<path/>") None None in
  let svgToPng := fun _ : IconProps => Normal [137; 80; 78; 71]%N in
  let generateAsync := fun _ : Zip => Normal [80; 75]%N in
  let st := set_both [A] (mkList [] [] false []) in
  let st' := (downloadAllPng svgToPng generateAsync (mkProps None None) [0] st).1 in
  isDownloading st = false
  /\ size (foldl (convert_into svgToPng (allIconList st)) (∅ : Zip) [0]) <> 0
  /\ downloadAllPng svgToPng generateAsync (mkProps None None) [0] st' = (st', None).
Proof.
  intros A svgToPng generateAsync st st'.
  assert (Hne : size (foldl (convert_into svgToPng (allIconList st)) (∅ : Zip) [0]) <> 0)
    by (vm_compute; discriminate).
  split; [reflexivity|]. split; [exact Hne|].
  exact (proj1 (proj1 (proj2 (proj2 (proj2
           (downloadAllPng_one_at_a_time svgToPng generateAsync (mkProps None None)
              [0] st eq_refl)))) Hne) svgToPng generateAsync (mkProps None None) [0]).
Defined.

Section ExtensionFacts.

Lemma until_dot_app (e rest : jsstring) :
  Forall (fun c => c <> dot) e -> until_dot (e ++ dot :: rest) = (e, dot :: rest).
Proof.
  induction 1 as [|c e Hc He IH]; cbn [app until_dot].
  - rewrite N.eqb_refl. reflexivity.
  - rewrite (proj2 (N.eqb_neq c dot) Hc), IH. reflexivity.
Qed.

Lemma until_dot_none (s : jsstring) :
  Forall (fun c => c <> dot) s -> until_dot s = (s, []).
Proof.
  induction 1 as [|c s Hc Hs IH]; [reflexivity|].
  cbn [until_dot]. rewrite (proj2 (N.eqb_neq c dot) Hc), IH. reflexivity.
Qed.

Lemma Forall_rev_iff (P : N -> Prop) (s : jsstring) : Forall P s -> Forall P (rev s).
Proof.
  intros H. apply Forall_forall. intros c Hc. rewrite Forall_forall in H.
  apply H. apply list_elem_of_In. apply list_elem_of_In in Hc.
  apply in_rev. exact Hc.
Qed.

Lemma rev_path (base ext : jsstring) :
  rev (base ++ dot :: ext) = rev ext ++ dot :: rev base.
Proof. rewrite rev_app_distr. cbn [rev]. rewrite <- app_assoc. reflexivity. Qed.

End ExtensionFacts.

(** X18. [strip_extension], the [replace(/\.[^/.]+$/, '')] that names the
    archive: a final extension - a dot followed by one or more code units
    that are neither dots nor slashes - is cut off, and only the last one;
    a name without a dot, a name that ends in a dot and a name whose last
    dot is followed by a slash are left as they are. *)
Theorem strip_extension_cuts_last (base ext : jsstring) :
  Forall (fun c => c <> dot) ext ->
  (ext <> [] -> Forall (fun c => c <> slash) ext ->
   strip_extension (base ++ dot :: ext) = base)
  /\ strip_extension ext = ext
  /\ strip_extension (base ++ [dot]) = base ++ [dot]
  /\ (slash ∈ ext -> strip_extension (base ++ dot :: ext) = base ++ dot :: ext).
Proof.
  intros Hdot.
  assert (Hu : until_dot (rev (base ++ dot :: ext)) = (rev ext, dot :: rev base)).
  { rewrite rev_path. apply until_dot_app, Forall_rev_iff, Hdot. }
  split; [|split; [|split]].
  - intros Hne Hslash. unfold strip_extension. rewrite Hu.
    destruct (rev ext) as [|c r] eqn:Er.
    { exfalso. apply Hne. rewrite <- (rev_involutive ext), Er. reflexivity. }
    rewrite <- Er.
    replace (forallb (fun c => negb (c =? slash)%N) (rev ext)) with true.
    + destruct (rev ext); [discriminate Er | apply rev_involutive].
    + symmetry. apply forallb_forall. intros x Hx. apply in_rev in Hx.
      rewrite Forall_forall in Hslash. apply list_elem_of_In in Hx.
      apply negb_true_iff, N.eqb_neq, Hslash, Hx.
  - unfold strip_extension.
    rewrite (until_dot_none _ (Forall_rev_iff _ _ Hdot)). reflexivity.
  - unfold strip_extension.
    pose proof (until_dot_app [] (rev base) (Forall_nil_2 _)) as H.
    rewrite rev_app_distr. cbn [rev app] in H |- *. rewrite H. reflexivity.
  - intros Hin. unfold strip_extension. rewrite Hu.
    destruct (rev ext) as [|c r] eqn:Er; [reflexivity|]. rewrite <- Er.
    replace (forallb (fun c => negb (c =? slash)%N) (rev ext)) with false.
    + destruct (rev ext); reflexivity.
    + symmetry. apply not_true_is_false. intros H.
      rewrite forallb_forall in H. apply list_elem_of_In, in_rev in Hin.
      specialize (H slash Hin). discriminate H.
Qed.

Lemma strip_extension_cuts_last_witness :
  Forall (fun c => c <> dot) (lit "woff")
  /\ lit "woff" <> []
  /\ Forall (fun c => c <> slash) (lit "woff")
  /\ strip_extension (lit "icons.v2.woff") = lit "icons.v2".
Proof.
  assert (Hd : Forall (fun c => c <> dot) (lit "woff"))
    by (repeat constructor; discriminate).
  assert (Hs : Forall (fun c => c <> slash) (lit "woff"))
    by (repeat constructor; discriminate).
  split; [exact Hd|]. split; [discriminate|]. split; [exact Hs|].
  exact (proj1 (strip_extension_cuts_last (lit "icons.v2") (lit "woff") Hd)
           ltac:(discriminate) Hs).
Defined.

Section EntryNameFacts.

Lemma number_to_string_inj z1 z2 :
  number_to_string z1 = number_to_string z2 -> z1 = z2.
Proof.
  intros H.
  pose proof (parse_number_to_string z1 [] I) as H1.
  pose proof (parse_number_to_string z2 [] I) as H2.
  rewrite H in H1. rewrite H1 in H2. injection H2 as ->. reflexivity.
Qed.

Lemma fallback_name_inj (ext : jsstring) :
  Inj (=) (=) (fun u : Z => (lit "icon_" ++ number_to_string u) ++ ext).
Proof.
  intros u1 u2 H. apply app_inv_tail, app_inv_head in H.
  apply number_to_string_inj, H.
Qed.

Lemma given_name_inj (ext : jsstring) :
  Inj (=) (=) (fun name : jsstring => name ++ ext).
Proof. intros n1 n2 H. exact (app_inv_tail _ _ _ H). Qed.

Lemma entry_names_unnamed (ext : jsstring) (icons : list IconProps) :
  Forall (fun icon => iconName icon = []) icons ->
  (fun icon => or_else (Some (iconName icon))
                 (lit "icon_" ++ number_to_string (unicode icon)) ++ ext) <$> icons
  = (fun u : Z => (lit "icon_" ++ number_to_string u) ++ ext) <$> (unicode <$> icons).
Proof.
  intros H. rewrite <- list_fmap_compose. apply Forall_fmap_ext_1.
  eapply Forall_impl; [exact H|]. intros icon E. cbn. rewrite E. reflexivity.
Qed.

Lemma entry_names_named (ext : jsstring) (icons : list IconProps) :
  Forall (fun icon => iconName icon <> []) icons ->
  (fun icon => or_else (Some (iconName icon))
                 (lit "icon_" ++ number_to_string (unicode icon)) ++ ext) <$> icons
  = (fun name : jsstring => name ++ ext) <$> (iconName <$> icons).
Proof.
  intros H. rewrite <- list_fmap_compose. apply Forall_fmap_ext_1.
  eapply Forall_impl; [exact H|]. intros icon. cbn.
  destruct (iconName icon); [congruence | reflexivity].
Qed.

Lemma uint_digits_no_slash (u : Decimal.uint) : slash ∉ uint_digits u.
Proof.
  induction u; cbn [uint_digits];
    [apply not_elem_of_nil | ..];
    (apply not_elem_of_cons; split; [discriminate | exact IHu]).
Qed.

Lemma number_to_string_no_slash (z : Z) : slash ∉ number_to_string z.
Proof.
  unfold number_to_string. destruct (Z.to_int z) as [u|u].
  - apply uint_digits_no_slash.
  - apply not_elem_of_cons. split; [discriminate | apply uint_digits_no_slash].
Qed.

Lemma svg_entry_name_no_slash (icon : IconProps) :
  (slash ∉ iconName icon) -> slash ∉ svg_entry_name icon.
Proof.
  intros Hname. unfold svg_entry_name, or_else.
  assert (Hext : forall ext : jsstring, (ext = lit ".svg") -> slash ∉ ext).
  { intros ext -> H. vm_compute in H.
    repeat (apply elem_of_cons in H; destruct H as [H | H]; [discriminate H|]).
    apply elem_of_nil in H. exact H. }
  destruct (iconName icon) as [|c n] eqn:E.
  - intros H. rewrite !elem_of_app in H. destruct H as [[H | H] | H].
    + vm_compute in H.
      repeat (apply elem_of_cons in H; destruct H as [H | H]; [discriminate H|]).
      apply elem_of_nil in H. exact H.
    + exact (number_to_string_no_slash _ H).
    + exact (Hext _ eq_refl H).
  - intros H. rewrite elem_of_app in H. destruct H as [H | H].
    + exact (Hname H).
    + exact (Hext _ eq_refl H).
Qed.

End EntryNameFacts.

(** X19. Entry names do not collide among unnamed records with pairwise
    distinct code points (they are "icon_" and the code point in decimal),
    nor among named records with pairwise distinct names - for the PNG and
    for the SVG archive alike.  When, in the second case, the names are
    also free of slashes, the SVG archive has no folder entry and holds as
    many entries as there are records; in the first case it always
    does. *)
Theorem entry_names_distinct (icons : list IconProps) :
  (Forall (fun icon => iconName icon = []) icons /\ NoDup (unicode <$> icons))
  \/ (Forall (fun icon => iconName icon <> []) icons /\ NoDup (iconName <$> icons)) ->
  NoDup (png_entry_name <$> icons)
  /\ NoDup (svg_entry_name <$> icons)
  /\ (Forall (fun icon => slash ∉ iconName icon) icons ->
      size (zip_files
              (foldl (fun (zip : Zip) icon =>
                        <[svg_entry_name icon := svg_document icon]> zip) ∅ icons))
      = length icons).
Proof.
  intros H.
  assert (Hpng : NoDup (png_entry_name <$> icons)).
  { destruct H as [[Hun Hnd] | [Hn Hnd]].
    - unfold png_entry_name. rewrite (entry_names_unnamed (lit ".png") icons Hun).
      apply (@NoDup_fmap_2 _ _ _ (fallback_name_inj (lit ".png"))). exact Hnd.
    - unfold png_entry_name. rewrite (entry_names_named (lit ".png") icons Hn).
      apply (@NoDup_fmap_2 _ _ _ (given_name_inj (lit ".png"))). exact Hnd. }
  assert (Hsvg : NoDup (svg_entry_name <$> icons)).
  { destruct H as [[Hun Hnd] | [Hn Hnd]].
    - unfold svg_entry_name. rewrite (entry_names_unnamed (lit ".svg") icons Hun).
      apply (@NoDup_fmap_2 _ _ _ (fallback_name_inj (lit ".svg"))). exact Hnd.
    - unfold svg_entry_name. rewrite (entry_names_named (lit ".svg") icons Hn).
      apply (@NoDup_fmap_2 _ _ _ (given_name_inj (lit ".svg"))). exact Hnd. }
  split; [exact Hpng|]. split; [exact Hsvg|].
  intros Hflat. rewrite zip_files_svg_flat.
  - rewrite dom_svg_archive, (size_list_to_set _ Hsvg), length_fmap. reflexivity.
  - eapply Forall_impl; [exact Hflat|]. intros icon. apply svg_entry_name_no_slash.
Qed.

Lemma entry_names_distinct_witness :
  let icons := [mkIcon 57345 [] (lit "0 0 10 10") (lit "<path/>") None None;
                mkIcon 57346 [] (lit "0 0 10 10") (lit "<path/>") None None] in
  Forall (fun icon => iconName icon = []) icons
  /\ NoDup (unicode <$> icons)
  /\ NoDup (png_entry_name <$> icons)
  /\ png_entry_name <$> icons = [lit "icon_57345.png"; lit "icon_57346.png"].
Proof.
  intros icons.
  assert (Hun : Forall (fun icon => iconName icon = []) icons)
    by (repeat constructor).
  assert (Hnd : NoDup (unicode <$> icons)).
  { cbn. apply NoDup_cons. split; [|apply NoDup_singleton].
    intros H. apply list_elem_of_singleton in H. discriminate H. }
  split; [exact Hun|]. split; [exact Hnd|].
  split; [|vm_compute; reflexivity].
  exact (proj1 (entry_names_distinct icons (or_introl (conj Hun Hnd)))).
Defined.

(* ===================================================================== *)
(** * Icon detail controller: further results                             *)
(* ===================================================================== *)

Section DetailMore.

Lemma applyTransformations_mounted st el :
  svgElement st = Some el ->
  applyTransformations st
  = mkDetail (isModalVisible st) (currentIcon st) (rotationAngle st) (scaleFactor st)
      (positionOffset st) (isGridVisible st)
      (Some (mkStyle (style_fill el) (Some (transform_string st)))).
Proof. intros H. unfold applyTransformations. rewrite H. reflexivity. Qed.

Lemma rotateIcon_mounted st el d :
  svgElement st = Some el ->
  rotateIcon (Some d) st
  = mkDetail (isModalVisible st) (currentIcon st) (rotationAngle st + d) (scaleFactor st)
      (positionOffset st) (isGridVisible st)
      (Some (mkStyle (style_fill el)
               (Some (transform_string (with_rotation (rotationAngle st + d) st))))).
Proof.
  intros H. unfold rotateIcon. rewrite H.
  apply (applyTransformations_mounted (with_rotation (rotationAngle st + d) st) el H).
Qed.

Lemma rotateIcon_iter st el d n :
  svgElement st = Some el ->
  rotationAngle (Nat.iter n (rotateIcon (Some d)) st) = (rotationAngle st + Z.of_nat n * d)%Z
  /\ exists el', svgElement (Nat.iter n (rotateIcon (Some d)) st) = Some el'.
Proof.
  intros H. induction n as [|n [IHa [el' IHe]]].
  - cbn. split; [lia | eauto].
  - rewrite Nat.iter_succ, (rotateIcon_mounted _ el' d IHe).
    cbn [rotationAngle svgElement].
    split; [lia | eauto].
Qed.

Lemma transform_step_exact st op :
  state_in_range st -> op_in_range op -> state_exact (transform_step st op).
Proof.
  unfold state_in_range, op_in_range, state_exact, in_range.
  intros (Hr & Hs & Hx & Hy) Hop.
  destruct st as [vis cur rot sc [px py] grid [el|]];
    destruct op as [[d|] | [d|] | [s|] | []];
    cbn in *; lia.
Qed.

End DetailMore.

(** X20. For integer angle, scale and offsets of magnitude at most 2^52,
    and an integer argument of that size: with the element mounted, each
    transform operation - [rotateIcon], [setRotationAngle],
    [setScaleFactor] with a number, [moveIcon] - leaves the element's
    [transform] style equal to the string built from the state it has just
    set (translate, then rotate, then scale), leaves the fill colour
    alone, and keeps every number within 2^53, where a double holds it
    exactly.  [setScaleFactor(null)] does nothing. *)
Theorem transform_step_renders_state (st : DetailState) (op : TransformOp) (el : SvgStyle) :
  state_in_range st -> op_in_range op ->
  svgElement st = Some el ->
  (op <> OpSetScale None ->
   exists el',
     svgElement (transform_step st op) = Some el'
     /\ style_transform el' = Some (transform_string (transform_step st op))
     /\ style_fill el' = style_fill el)
  /\ state_exact (transform_step st op)
  /\ transform_step st (OpSetScale None) = st.
Proof.
  intros Hst Hin Hel. split; [|split; [apply transform_step_exact; assumption | reflexivity]].
  intros Hop.
  destruct op as [d | d | [s|] | d]; cbn [transform_step];
    unfold rotateIcon, setRotationAngle, setScaleFactor, moveIcon;
    try congruence; rewrite ?Hel;
    match goal with
    | |- context [applyTransformations ?s] =>
        rewrite (applyTransformations_mounted s el Hel)
    end;
    eexists; (split; [reflexivity|]); split; reflexivity.
Qed.

Lemma transform_step_renders_state_witness :
  let st := mkDetail true (Some 0) 0 1 (mkOffset 0 0) false (Some (mkStyle None None)) in
  state_in_range st
  /\ op_in_range (OpMove Left)
  /\ svgElement st = Some (mkStyle None None)
  /\ OpMove Left <> OpSetScale None
  /\ exists el',
       svgElement (transform_step st (OpMove Left)) = Some el'
       /\ style_transform el' = Some (lit "translate(-10px, 0px) rotate(0deg) scale(1)").
Proof.
  intros st.
  assert (Hst : state_in_range st) by (unfold state_in_range, in_range; cbn; lia).
  split; [exact Hst|]. split; [exact I|]. split; [reflexivity|]. split; [discriminate|].
  destruct (proj1 (transform_step_renders_state st (OpMove Left) (mkStyle None None)
                     Hst I eq_refl)
              ltac:(discriminate)) as (el' & Hel' & Ht & _).
  exists el'. split; [exact Hel'|]. rewrite Ht. reflexivity.
Defined.

(** X21. For integer angle, scale and offsets of magnitude at most 2^52,
    with the element mounted and its [transform] style in step with the
    state: [moveIcon] up then down, down then up, left then right, or
    right then left gives back the very state it started from, and so does
    a rotation by an integer of that size followed by the opposite
    rotation.  Rotations add up without wrapping at 360: as long as the
    sum stays within 2^53, n rotations by d degrees leave the angle at the
    old angle plus n times d. *)
Theorem opposite_transforms_cancel (st : DetailState) (el : SvgStyle) (d : Z) (n : nat) :
  state_in_range st -> in_range d ->
  svgElement st = Some el ->
  style_transform el = Some (transform_string st) ->
  moveIcon Down (moveIcon Up st) = st
  /\ moveIcon Up (moveIcon Down st) = st
  /\ moveIcon Right (moveIcon Left st) = st
  /\ moveIcon Left (moveIcon Right st) = st
  /\ rotateIcon (Some (- d)%Z) (rotateIcon (Some d) st) = st
  /\ ((Z.abs (rotationAngle st) + Z.of_nat n * Z.abs d <= 2 ^ 53)%Z ->
      rotationAngle (Nat.iter n (rotateIcon (Some d)) st)
      = (rotationAngle st + Z.of_nat n * d)%Z).
Proof.
  intros _ _ Hel Hsync.
  pose proof (proj1 (rotateIcon_iter st el d n Hel)) as Hiter. revert Hiter.
  generalize (rotationAngle (Nat.iter n (rotateIcon (Some d)) st)). intros total Hiter.
  destruct st as [vis cur rot sc [px py] grid svg]. cbn [svgElement] in Hel. subst svg.
  destruct el as [fill tr]. cbn [style_transform] in Hsync.
  assert (Htr : tr = Some (transform_string
                             (mkDetail vis cur rot sc (mkOffset px py) grid None)))
    by exact Hsync.
  clear Hsync. subst tr.
  unfold moveIcon, rotateIcon, applyTransformations, with_offset, with_rotation,
    transform_string, or_zero.
  cbn [svgElement positionOffset offset_x offset_y rotationAngle scaleFactor
         isModalVisible currentIcon isGridVisible style_fill default from_option id].
  rewrite !Z.sub_add, !Z.add_simpl_r.
  replace (rot + d + - d)%Z with rot by lia.
  repeat (split; [reflexivity|]).
  intros _. exact Hiter.
Qed.

Lemma opposite_transforms_cancel_witness :
  let st := mkDetail true (Some 0) 0 1 (mkOffset 0 0) false
              (Some (mkStyle None (Some (lit "translate(0px, 0px) rotate(0deg) scale(1)")))) in
  state_in_range st
  /\ in_range 45
  /\ svgElement st
     = Some (mkStyle None (Some (lit "translate(0px, 0px) rotate(0deg) scale(1)")))
  /\ Some (lit "translate(0px, 0px) rotate(0deg) scale(1)") = Some (transform_string st)
  /\ moveIcon Down (moveIcon Up st) = st
  /\ rotationAngle (Nat.iter 8 (rotateIcon (Some 45%Z)) st) = 360%Z.
Proof.
  intros st.
  assert (Hst : state_in_range st) by (unfold state_in_range, in_range; cbn; lia).
  assert (Hd : in_range 45) by (unfold in_range; cbn; lia).
  pose proof (opposite_transforms_cancel st
                (mkStyle None (Some (lit "translate(0px, 0px) rotate(0deg) scale(1)")))
                45 8 Hst Hd eq_refl eq_refl) as (Hud & _ & _ & _ & _ & Hrot).
  split; [exact Hst|]. split; [exact Hd|].
  split; [reflexivity|]. split; [reflexivity|]. split; [exact Hud|].
  apply Hrot. cbn. lia.
Defined.

(* ===================================================================== *)
(** * The application shell                                               *)
(* ===================================================================== *)

Section AppShell.

Lemma uniqueFiles_sublist (seen : gset jsstring) (evt : list UploadFile) :
  sublist (uniqueFiles seen evt) evt.
Proof.
  revert seen. induction evt as [|f rest IH]; intros seen; cbn [uniqueFiles].
  - constructor.
  - destruct (bool_decide (file_name f ∈ seen)).
    + apply sublist_cons, IH.
    + apply sublist_skip, IH.
Qed.

Lemma uniqueFiles_fresh (seen : gset jsstring) (evt : list UploadFile) (f : UploadFile) :
  f ∈ uniqueFiles seen evt -> file_name f ∉ seen.
Proof.
  revert seen. induction evt as [|g rest IH]; intros seen; cbn [uniqueFiles].
  - intros H. apply elem_of_nil in H. destruct H.
  - destruct (bool_decide (file_name g ∈ seen)) eqn:E.
    + apply IH.
    + apply bool_decide_eq_false in E. intros H. apply elem_of_cons in H.
      destruct H as [-> | H]; [exact E|].
      apply IH in H. intros Hin. apply H, elem_of_union. right. exact Hin.
Qed.

Lemma uniqueFiles_NoDup (seen : gset jsstring) (evt : list UploadFile) :
  NoDup (file_name <$> uniqueFiles seen evt).
Proof.
  revert seen. induction evt as [|g rest IH]; intros seen; cbn [uniqueFiles].
  - constructor.
  - destruct (bool_decide (file_name g ∈ seen)); [apply IH|].
    rewrite fmap_cons. constructor; [|apply IH].
    intros Hin. apply list_elem_of_fmap in Hin. destruct Hin as (h & Hname & Hh).
    apply uniqueFiles_fresh in Hh. apply Hh, elem_of_union. left.
    rewrite Hname. apply elem_of_singleton. reflexivity.
Qed.

Lemma uniqueFiles_first (seen : gset jsstring) (l1 l2 : list UploadFile) (f : UploadFile) :
  file_name f ∉ seen ->
  (file_name f ∉ file_name <$> l1) ->
  f ∈ uniqueFiles seen (l1 ++ f :: l2).
Proof.
  revert seen. induction l1 as [|g l1 IH]; intros seen Hseen Hl1; cbn [uniqueFiles app].
  - rewrite bool_decide_eq_false_2 by exact Hseen. apply elem_of_cons. left. reflexivity.
  - rewrite fmap_cons in Hl1. apply not_elem_of_cons in Hl1. destruct Hl1 as [Hne Hl1].
    destruct (bool_decide (file_name g ∈ seen)).
    + apply IH; assumption.
    + apply elem_of_cons. right. apply IH; [|exact Hl1].
      intros Hin. apply elem_of_union in Hin. destruct Hin as [Hin | Hin]; [|auto].
      apply elem_of_singleton in Hin. auto.
Qed.

Lemma uniqueFiles_covers (seen : gset jsstring) (evt : list UploadFile) (f : UploadFile) :
  f ∈ evt ->
  file_name f ∈ seen \/ file_name f ∈ file_name <$> uniqueFiles seen evt.
Proof.
  revert seen. induction evt as [|g rest IH]; intros seen Hin; cbn [uniqueFiles].
  - apply elem_of_nil in Hin. destruct Hin.
  - apply elem_of_cons in Hin. destruct (bool_decide (file_name g ∈ seen)) eqn:E.
    + destruct Hin as [-> | Hin]; [left; apply bool_decide_eq_true in E; exact E|].
      apply IH, Hin.
    + rewrite fmap_cons. destruct Hin as [-> | Hin].
      * right. apply elem_of_cons. left. reflexivity.
      * destruct (IH ({[file_name g]} ∪ seen) Hin) as [H | H].
        -- apply elem_of_union in H. destruct H as [H | H]; [|left; exact H].
           apply elem_of_singleton in H. right. apply elem_of_cons. left. exact H.
        -- right. apply elem_of_cons. right. exact H.
Qed.

(** A list of distinct, unseen names passes through unchanged. *)
Lemma uniqueFiles_app (seen : gset jsstring) (l more : list UploadFile) :
  NoDup (file_name <$> l) ->
  (forall f, f ∈ l -> file_name f ∉ seen) ->
  uniqueFiles seen (l ++ more)
  = l ++ uniqueFiles (list_to_set (file_name <$> l) ∪ seen) more.
Proof.
  revert seen. induction l as [|g l IH]; intros seen Hnd Hseen; cbn [uniqueFiles app].
  - rewrite fmap_nil, list_to_set_nil, (left_id_L ∅ (∪)). reflexivity.
  - rewrite fmap_cons in Hnd. apply NoDup_cons in Hnd. destruct Hnd as [Hg Hnd].
    rewrite bool_decide_eq_false_2 by (apply Hseen, elem_of_cons; left; reflexivity).
    f_equal. rewrite IH.
    + f_equal. f_equal. rewrite fmap_cons, list_to_set_cons.
      rewrite <- (assoc_L (∪)), (comm_L (∪) (list_to_set _) ({[_]} ∪ seen)).
      rewrite <- (assoc_L (∪)), (comm_L (∪) seen). reflexivity.
    + exact Hnd.
    + intros f Hf Hin. apply elem_of_union in Hin. destruct Hin as [Hin | Hin].
      * apply elem_of_singleton in Hin. apply Hg. rewrite <- Hin.
        apply list_elem_of_fmap. exists f. split; [reflexivity | exact Hf].
      * apply (Hseen f); [apply elem_of_cons; right; exact Hf | exact Hin].
Qed.

Lemma handleUploadChange_state evt st :
  fst (handleUploadChange evt st) = mkApp (uniqueFiles ∅ evt) (currentFileIndex st).
Proof.
  unfold handleUploadChange.
  destruct (0 <? length (uniqueFiles ∅ evt)); [|reflexivity].
  destruct (uniqueFiles ∅ evt !! currentFileIndex st); reflexivity.
Qed.

Lemma handleRemove_state index st :
  fst (handleRemove index st)
  = mkApp (delete index (fileList st))
      (if index <? currentFileIndex st then currentFileIndex st - 1
       else if index =? currentFileIndex st then
         (if length (delete index (fileList st)) <=? currentFileIndex st
          then Nat.max 0 (length (delete index (fileList st)) - 1)
          else currentFileIndex st)
       else currentFileIndex st).
Proof.
  unfold handleRemove.
  destruct (length (delete index (fileList st)) =? 0); [reflexivity|].
  match goal with |- context [?l !! ?i] => destruct (l !! i) as [f|] end; [|reflexivity].
  destruct (file_blob f); reflexivity.
Qed.

Lemma handleFileClick_state index st :
  fst (handleFileClick index st) = mkApp (fileList st) index.
Proof.
  unfold handleFileClick. destruct (fileList st !! index); reflexivity.
Qed.

Lemma read_and_parse_not_cleared f : read_and_parse f <> FontCleared.
Proof. unfold read_and_parse. destruct (file_blob f); discriminate. Qed.

Lemma length_delete_le {A} (l : list A) i : length (delete i l) <= length l.
Proof. apply sublist_length, sublist_delete. Qed.

Lemma length_delete_out {A} (l : list A) i : length l <= i -> delete i l = l.
Proof.
  revert i. induction l as [|x l IH]; intros i Hi; [destruct i; reflexivity|].
  destruct i as [|i]; cbn in Hi; [lia|]. cbn. f_equal. apply IH. lia.
Qed.

Lemma length_delete_in {A} (l : list A) i :
  i < length l -> length (delete i l) = length l - 1.
Proof. intros Hi. apply length_delete, lookup_lt_is_Some_2, Hi. Qed.

Lemma handleRemove_in_range index st :
  index_in_range st -> index_in_range (fst (handleRemove index st)).
Proof.
  intros Hok. rewrite handleRemove_state. unfold index_in_range in *.
  cbn [fileList currentFileIndex].
  destruct (Nat.lt_ge_cases index (length (fileList st))) as [Hin | Hout].
  - pose proof (length_delete_in (fileList st) index Hin) as Hlen. rewrite Hlen.
    destruct Hok as [Hcur | [Hnil _]]; [|rewrite Hnil in Hin; cbn in Hin; lia].
    destruct (index <? currentFileIndex st) eqn:E1.
    + apply Nat.ltb_lt in E1. left. lia.
    + apply Nat.ltb_ge in E1. destruct (index =? currentFileIndex st) eqn:E2.
      * apply Nat.eqb_eq in E2.
        destruct (length (fileList st) - 1 <=? currentFileIndex st) eqn:E3.
        -- apply Nat.leb_le in E3.
           destruct (Nat.eq_dec (length (fileList st)) 1) as [H1 | H1].
           ++ right. split; [|rewrite H1; reflexivity].
              apply length_zero_iff_nil. lia.
           ++ left. lia.
        -- apply Nat.leb_gt in E3. left. exact E3.
      * apply Nat.eqb_neq in E2. left. lia.
  - rewrite (length_delete_out _ _ Hout).
    destruct Hok as [Hcur | [Hnil Hz]].
    + left. rewrite (proj2 (Nat.ltb_ge _ _)) by lia.
      rewrite (proj2 (Nat.eqb_neq _ _)) by lia. exact Hcur.
    + right. split; [exact Hnil|]. rewrite Hz, Hnil. cbn [length].
      destruct index; reflexivity.
Qed.

Lemma app_step_ok st op :
  NoDup (file_name <$> fileList st) -> index_in_range st -> op_enabled st op ->
  NoDup (file_name <$> fileList (app_step st op)) /\ index_in_range (app_step st op).
Proof.
  intros Hnd Hok Hen. destruct op as [evt | index | index]; cbn [app_step op_enabled] in *.
  - rewrite handleUploadChange_state. cbn [fileList]. split; [apply uniqueFiles_NoDup|].
    destruct Hen as [more ->]. unfold index_in_range. cbn [fileList currentFileIndex].
    rewrite (uniqueFiles_app ∅ _ more Hnd) by (intros; apply not_elem_of_empty).
    rewrite length_app. destruct Hok as [Hcur | [Hnil Hz]]; [left; lia|].
    rewrite Hnil, Hz. cbn [length app].
    destruct (uniqueFiles _ more) as [|f l]; [right; split; reflexivity|].
    left. cbn [length]. lia.
  - split; [|apply handleRemove_in_range, Hok].
    rewrite handleRemove_state. cbn [fileList].
    eapply sublist_NoDup; [exact Hnd|]. apply fmap_sublist, sublist_delete.
  - rewrite handleFileClick_state. cbn [fileList]. split; [exact Hnd|].
    left. exact Hen.
Qed.

End AppShell.

(** X22. [handleUploadChange] keeps one entry per file name: the stored
    list is a sub-list of the event's list in the same order, its names are
    pairwise distinct, and every name of the event is represented - by its
    first carrier.  The active index is not touched, and the font is
    cleared exactly when the event's list is empty. *)
Theorem handleUploadChange_dedupes (evt : list UploadFile) (st : AppState) :
  NoDup (file_name <$> fileList (fst (handleUploadChange evt st)))
  /\ sublist (fileList (fst (handleUploadChange evt st))) evt
  /\ (forall f, f ∈ evt ->
        file_name f ∈ file_name <$> fileList (fst (handleUploadChange evt st)))
  /\ (forall l1 f l2, evt = l1 ++ f :: l2 -> (file_name f ∉ file_name <$> l1) ->
        f ∈ fileList (fst (handleUploadChange evt st)))
  /\ currentFileIndex (fst (handleUploadChange evt st)) = currentFileIndex st
  /\ (snd (handleUploadChange evt st) = FontCleared <-> evt = []).
Proof.
  rewrite handleUploadChange_state. cbn [fileList currentFileIndex].
  split; [apply uniqueFiles_NoDup|]. split; [apply uniqueFiles_sublist|].
  split.
  { intros f Hf. destruct (uniqueFiles_covers ∅ evt f Hf) as [H | H]; [|exact H].
    apply not_elem_of_empty in H. destruct H. }
  split.
  { intros l1 f l2 -> Hl1. apply uniqueFiles_first; [apply not_elem_of_empty | exact Hl1]. }
  split; [reflexivity|].
  unfold handleUploadChange. destruct evt as [|f rest].
  - split; reflexivity.
  - cbn [uniqueFiles]. rewrite bool_decide_eq_false_2 by apply not_elem_of_empty.
    cbn [length Nat.ltb Nat.leb].
    split; [|discriminate].
    match goal with |- context [?l !! ?i] => destruct (l !! i) as [g|] end.
    + cbn [snd]. intros H. apply read_and_parse_not_cleared in H. destruct H.
    + discriminate.
Qed.

(** X23. [handleRemove] on a rendered entry: the entry leaves the list
    and the active index stays in range.  Removing another entry leaves
    the active file the same file; removing the active entry makes its
    successor active, or the last remaining file when it had none.  The
    font is cleared exactly when the last entry is removed. *)
Theorem handleRemove_active_file (index : nat) (st : AppState) :
  index < length (fileList st) ->
  currentFileIndex st < length (fileList st) ->
  fileList (fst (handleRemove index st)) = delete index (fileList st)
  /\ length (fileList (fst (handleRemove index st))) = length (fileList st) - 1
  /\ index_in_range (fst (handleRemove index st))
  /\ (index <> currentFileIndex st ->
      active_file (fst (handleRemove index st)) = active_file st)
  /\ (index = currentFileIndex st -> S index < length (fileList st) ->
      active_file (fst (handleRemove index st)) = fileList st !! S index)
  /\ (index = currentFileIndex st -> S index = length (fileList st) ->
      active_file (fst (handleRemove index st)) = last (delete index (fileList st)))
  /\ (snd (handleRemove index st) = FontCleared <-> length (fileList st) = 1).
Proof.
  intros Hin Hcur.
  pose proof (length_delete_in (fileList st) index Hin) as Hlen.
  split; [rewrite handleRemove_state; reflexivity|].
  split; [rewrite handleRemove_state; exact Hlen|].
  split; [apply handleRemove_in_range; left; exact Hcur|].
  split; [|split; [|split]].
  - intros Hne. rewrite handleRemove_state. unfold active_file.
    cbn [fileList currentFileIndex].
    destruct (index <? currentFileIndex st) eqn:E1.
    + apply Nat.ltb_lt in E1. rewrite list_lookup_delete_ge by lia.
      f_equal. lia.
    + apply Nat.ltb_ge in E1. rewrite (proj2 (Nat.eqb_neq _ _)) by exact Hne.
      apply list_lookup_delete_lt. lia.
  - intros -> Hnext. rewrite handleRemove_state. unfold active_file.
    cbn [fileList currentFileIndex].
    rewrite Nat.ltb_irrefl, Nat.eqb_refl, Hlen.
    rewrite (proj2 (Nat.leb_gt _ _)) by lia.
    apply list_lookup_delete_ge. lia.
  - intros -> Hlast. rewrite handleRemove_state. unfold active_file.
    cbn [fileList currentFileIndex].
    rewrite Nat.ltb_irrefl, Nat.eqb_refl, Hlen.
    rewrite (proj2 (Nat.leb_le _ _)) by lia.
    rewrite last_lookup, Hlen. f_equal. lia.
  - unfold handleRemove. rewrite Hlen.
    destruct (length (fileList st) - 1 =? 0) eqn:E.
    + apply Nat.eqb_eq in E. split; [lia | reflexivity].
    + apply Nat.eqb_neq in E. split; [|lia].
      match goal with |- context [?l !! ?i] => destruct (l !! i) as [f|] end;
        [destruct (file_blob f)|]; discriminate.
Qed.

Lemma handleRemove_active_file_witness :
  let a := mkFile (lit "a.ttf") (Some [1%N]) in
  let b := mkFile (lit "b.ttf") (Some [2%N]) in
  let c := mkFile (lit "c.woff") (Some [3%N]) in
  let st := mkApp [a; b; c] 2 in
  1 < length (fileList st) /\ currentFileIndex st < length (fileList st)
  /\ fileList (fst (handleRemove 1 st)) = [a; c]
  /\ active_file (fst (handleRemove 1 st)) = Some c.
Proof.
  intros a b c st.
  assert (H1 : 1 < length (fileList st)) by (cbn; lia).
  assert (H2 : currentFileIndex st < length (fileList st)) by (cbn; lia).
  destruct (handleRemove_active_file 1 st H1 H2) as (Hl & _ & _ & Hact & _).
  split; [exact H1|]. split; [exact H2|]. split; [exact Hl|].
  rewrite Hact by discriminate. reflexivity.
Defined.

(** X24. From the initial state, whatever the user does in the upload
    panel - uploads that extend the shown list, removals, clicks on
    rendered entries - the file names stay pairwise distinct and the active
    index points into the list (or the list is empty and the index is
    0). *)
Theorem app_invariant (ops : list AppOp) :
  app_run app_initial ops ->
  NoDup (file_name <$> fileList (foldl app_step app_initial ops))
  /\ index_in_range (foldl app_step app_initial ops).
Proof.
  assert (Hgen : forall st, NoDup (file_name <$> fileList st) -> index_in_range st ->
                   app_run st ops ->
                   NoDup (file_name <$> fileList (foldl app_step st ops))
                   /\ index_in_range (foldl app_step st ops)).
  { induction ops as [|op rest IH]; intros st Hnd Hok Hrun; cbn [foldl].
    - split; assumption.
    - destruct Hrun as [Hen Hrun].
      destruct (app_step_ok st op Hnd Hok Hen) as [Hnd' Hok'].
      apply IH; assumption. }
  apply Hgen; [constructor | right; split; reflexivity].
Qed.

Lemma app_invariant_witness :
  let a := mkFile (lit "a.ttf") (Some [1%N]) in
  let a' := mkFile (lit "a.ttf") (Some [2%N]) in
  let b := mkFile (lit "b.ttf") (Some [3%N]) in
  let ops := [OpUpload [a; b]; OpClick 1; OpUpload [a; b; a']; OpRemove 1] in
  app_run app_initial ops
  /\ foldl app_step app_initial ops = mkApp [a] 0
  /\ index_in_range (foldl app_step app_initial ops).
Proof.
  intros a a' b ops.
  assert (Hrun : app_run app_initial ops).
  { cbn. split; [exists [a; b]; reflexivity|]. split; [vm_compute; lia|].
    split; [exists [a']; vm_compute; reflexivity|]. split; exact I. }
  split; [exact Hrun|]. split; [vm_compute; reflexivity|].
  exact (proj2 (app_invariant ops Hrun)).
Defined.

(* ===================================================================== *)
(** * The list component's loader, older revision                         *)
(* ===================================================================== *)

Section InlineLoader.

Lemma inlineList_key_normal filename :
  exists key, inlineList.getSafeStorageKey filename = Normal key.
Proof.
  destruct (key_of_safe_name inlineList.storageKeyPrefix _
              (delete_safe (basename filename))) as (key & Hk & _).
  exists key. rewrite inlineList_key_eq. exact Hk.
Qed.

Lemma inline_watchEffect_eq mounted props st storage :
  inlineController.watchEffect mounted props st storage
  = (match inline_stored props storage with
     | Some (c :: s) =>
         match JSON_parse_as icons_of_json (c :: s) with
         | Normal icons => Normal (set_both icons st)
         | Throw _ =>
             if mounted then Normal (set_both (extracted props) (notify LoadFailed st))
             else Throw ReferenceError
         end
     | _ => Normal (set_both (extracted props) st)
     end,
     storage).
Proof.
  unfold inlineController.watchEffect, inlineController.loadSavedIconData,
    inline_stored, extracted.
  destruct (filename props) as [[|c s]|].
  - destruct (font props); reflexivity.
  - destruct (inlineList_key_normal (c :: s)) as [key Hk]. rewrite Hk.
    unfold try_catch, mbind, JS_bind, lift, getItem. cbn [mret JS_ret].
    destruct (items storage !! key) as [[|d t]|].
    + destruct (font props); reflexivity.
    + destruct (JSON_parse_as icons_of_json (d :: t)); [reflexivity|].
      destruct mounted; [|reflexivity].
      destruct (font props); reflexivity.
    + destruct (font props); reflexivity.
  - destruct (font props); reflexivity.
Qed.

End InlineLoader.

(** X25. The older revision's [watchEffect] callback never writes to the
    store.  A stored JSON text of a list of icon records (their code
    points within the integers a number holds exactly) - the empty list
    included - becomes both the canonical collection and the filtered
    view, with no extraction and no message.  With nothing stored, an
    empty item or no filename, the views are what the font yields, with no
    message.  A stored item that is not JSON makes the handler of the
    failure read [message]: on the run at set-up, where [message] is not
    yet initialised, the callback throws a [ReferenceError] and assigns
    nothing; on later runs it shows the load-failed message and the views
    fall back to what the font yields. *)
Theorem inline_watchEffect_policy
    (mounted : bool) (props : Props) (st : ListState) (storage : Storage) :
  snd (inlineController.watchEffect mounted props st storage) = storage
  /\ (forall icons,
        exact_code_points icons ->
        inline_stored props storage = Some (stringify (json_of_icons icons)) ->
        exists st',
          inlineController.watchEffect mounted props st storage = (Normal st', storage)
          /\ allIconList st' = icons /\ visible st' = icons /\ shown st' = shown st)
  /\ (inline_stored props storage = None \/ inline_stored props storage = Some [] ->
      exists st',
        inlineController.watchEffect mounted props st storage = (Normal st', storage)
        /\ allIconList st' = extracted props /\ visible st' = extracted props
        /\ shown st' = shown st)
  /\ (forall c s,
        inline_stored props storage = Some (c :: s) ->
        JSON_parse (c :: s) = Throw SyntaxError ->
        if mounted then
          exists st',
            inlineController.watchEffect mounted props st storage = (Normal st', storage)
            /\ allIconList st' = extracted props /\ visible st' = extracted props
            /\ shown st' = shown st ++ [LoadFailed]
        else
          inlineController.watchEffect mounted props st storage
          = (Throw ReferenceError, storage)).
Proof.
  rewrite inline_watchEffect_eq. cbn [snd].
  split; [reflexivity|]. split; [|split].
  - intros icons _ ->.
    destruct (stringify_array_truthy (List.map json_of_icon icons)) as [t Ht].
    change (stringify (json_of_icons icons) = lbracket :: t) in Ht.
    rewrite Ht, <- Ht, parse_icons_stringify.
    eexists. split; [reflexivity|].
    split; [reflexivity|]. split; [apply visible_every | reflexivity].
  - intros [-> | ->]; eexists; (split; [reflexivity|]);
      (split; [reflexivity|]); (split; [apply visible_every | reflexivity]).
  - intros c s -> Hbad. rewrite (JSON_parse_as_syntax_error _ _ Hbad).
    destruct mounted; [|reflexivity].
    eexists. split; [reflexivity|].
    split; [reflexivity|]. split; [apply visible_every | reflexivity].
Qed.
